(** * thpool: a fixed-size worker-thread pool (thpool.c)

    A shallow embedding of [thpool.c] and the properties of its job queue,
    pool construction, submission, worker loop and shutdown.

    - Memory is a typed heap [gmap positive block]; a pointer is
      [option positive] with [None] for [NULL].  Dereferencing [NULL], a freed
      address or a block of another type is the outcome [Fault].
    - C code runs in the monad [M]: a function from the [world] to an
      [outcome] (normal return, [exit], blocked in [sem_wait], fault).
    - What the C library decides ([malloc], [pthread_create], [sem_wait]
      failing or not) is read from scripts carried by the [world].
    - [thpool_thread_do] is a transition system with one step per source
      line, so that other threads can be interleaved between its steps. *)

From Stdlib Require Import ZArith Lia.
From stdpp Require Import gmap list strings.

Local Open Scope Z_scope.

(** ** C values *)

Abbreviation loc := positive (only parsing).
Abbreviation ptr := (option positive) (only parsing).
Abbreviation NULL := (@None positive) (only parsing).

(** [int] is 32 bits wide; [wrap_int] is the two's complement wrap-around of
    an increment or decrement that leaves the range. *)
Definition INT_MAX : Z := 2147483647.
Definition INT_MIN : Z := -2147483648.
Definition wrap_int (z : Z) : Z := ((z + 2147483648) mod 4294967296 - 2147483648)%Z.

Abbreviation fnptr := Z (only parsing).      (* pointer to a job function, 0 for NULL *)
Abbreviation voidp := Z (only parsing).      (* void*, never dereferenced by the pool *)
Abbreviation pthread_t := Z (only parsing).
Abbreviation sem_t := Z (only parsing).      (* the counter of a POSIX semaphore *)

(** Modelled from the spec: the header [thpool.h], which declares the three
    structures, is not part of the sources.  They are given the fields that
    [thpool.c] reads and writes: the Job of the data model (a callable, an
    opaque argument and the two links), the Job Queue (two end references and
    a size, an [int]) and the Pool (thread handles, their count, the queue and
    the three semaphores). *)
Record thpool_job_t := Job {
  function : fnptr;
  arg : voidp;
  next : ptr;
  prev : ptr
}.

(** Modelled from the spec: the Job Queue of [thpool.h] (absent), with the two
    end references and the size that [thpool.c] uses. *)
Record thpool_jobqueue := JobQueue {
  head : ptr;
  tail : ptr;
  jobsN : Z
}.

(** Modelled from the spec: the Pool of [thpool.h] (absent), with the thread
    handles, their count, the queue and the three semaphores that [thpool.c]
    uses. *)
Record thpool_t := Pool {
  threads : ptr;
  threadsN : Z;
  jobqueue : ptr;
  mutex : sem_t;
  nEmpty : sem_t;
  nStored : sem_t
}.

Inductive block :=
| BJob (j : thpool_job_t)
| BQueue (q : thpool_jobqueue)
| BPool (p : thpool_t)
| BThreads (ts : list pthread_t).

(** Field assignments. *)
Definition set_function (v : fnptr) (j : thpool_job_t) := Job v (arg j) (next j) (prev j).
Definition set_arg (v : voidp) (j : thpool_job_t) := Job (function j) v (next j) (prev j).
Definition set_next (v : ptr) (j : thpool_job_t) := Job (function j) (arg j) v (prev j).
Definition set_prev (v : ptr) (j : thpool_job_t) := Job (function j) (arg j) (next j) v.

Definition set_head (v : ptr) (q : thpool_jobqueue) := JobQueue v (tail q) (jobsN q).
Definition set_tail (v : ptr) (q : thpool_jobqueue) := JobQueue (head q) v (jobsN q).
Definition set_jobsN (v : Z) (q : thpool_jobqueue) := JobQueue (head q) (tail q) v.

Definition set_threads (v : ptr) (p : thpool_t) :=
  Pool v (threadsN p) (jobqueue p) (mutex p) (nEmpty p) (nStored p).
Definition set_threadsN (v : Z) (p : thpool_t) :=
  Pool (threads p) v (jobqueue p) (mutex p) (nEmpty p) (nStored p).
Definition set_jobqueue (v : ptr) (p : thpool_t) :=
  Pool (threads p) (threadsN p) v (mutex p) (nEmpty p) (nStored p).

Inductive semaphore := Mutex | NEmpty | NStored.

Definition sem_get (s : semaphore) (p : thpool_t) : sem_t :=
  match s with Mutex => mutex p | NEmpty => nEmpty p | NStored => nStored p end.
Definition sem_set (s : semaphore) (v : sem_t) (p : thpool_t) : thpool_t :=
  match s with
  | Mutex => Pool (threads p) (threadsN p) (jobqueue p) v (nEmpty p) (nStored p)
  | NEmpty => Pool (threads p) (threadsN p) (jobqueue p) (mutex p) v (nStored p)
  | NStored => Pool (threads p) (threadsN p) (jobqueue p) (mutex p) (nEmpty p) v
  end.

(** What [malloc] hands out before the program writes to it.  Every field is
    assigned by [thpool.c] before it is read, so the choice is not observable. *)
Definition job_indeterminate : thpool_job_t := Job 0 0 NULL NULL.
Definition queue_indeterminate : thpool_jobqueue := JobQueue NULL NULL 0.
Definition pool_indeterminate : thpool_t := Pool NULL 0 NULL 0 0 0.

(** ** The world *)

Record world := World {
  heap : gmap positive block;
  thpool_keepalive : Z;                 (* static int thpool_keepalive *)
  stderr : list string;                 (* format strings printed so far *)
  spawned : list (pthread_t * ptr);     (* threads started on thpool_thread_do *)
  exited : list pthread_t;              (* threads that left thpool_thread_do *)
  executed : list (fnptr * voidp);      (* calls func_buff(arg_buff) made *)
  malloc_env : list bool;               (* false: the next malloc returns NULL *)
  create_env : list bool;               (* false: the next pthread_create fails *)
  semwait_env : list bool               (* false: the next sem_wait is interrupted *)
}.

Definition with_heap (f : gmap positive block → gmap positive block) (w : world) : world :=
  World (f (heap w)) (thpool_keepalive w) (stderr w) (spawned w) (exited w) (executed w)
        (malloc_env w) (create_env w) (semwait_env w).
Definition with_keepalive (v : Z) (w : world) : world :=
  World (heap w) v (stderr w) (spawned w) (exited w) (executed w)
        (malloc_env w) (create_env w) (semwait_env w).
Definition with_stderr (f : list string → list string) (w : world) : world :=
  World (heap w) (thpool_keepalive w) (f (stderr w)) (spawned w) (exited w) (executed w)
        (malloc_env w) (create_env w) (semwait_env w).
Definition with_spawned (f : list (pthread_t * ptr) → list (pthread_t * ptr)) (w : world) : world :=
  World (heap w) (thpool_keepalive w) (stderr w) (f (spawned w)) (exited w) (executed w)
        (malloc_env w) (create_env w) (semwait_env w).
Definition with_exited (f : list pthread_t → list pthread_t) (w : world) : world :=
  World (heap w) (thpool_keepalive w) (stderr w) (spawned w) (f (exited w)) (executed w)
        (malloc_env w) (create_env w) (semwait_env w).
Definition with_executed (f : list (fnptr * voidp) → list (fnptr * voidp)) (w : world) : world :=
  World (heap w) (thpool_keepalive w) (stderr w) (spawned w) (exited w) (f (executed w))
        (malloc_env w) (create_env w) (semwait_env w).
Definition with_malloc_env (e : list bool) (w : world) : world :=
  World (heap w) (thpool_keepalive w) (stderr w) (spawned w) (exited w) (executed w)
        e (create_env w) (semwait_env w).
Definition with_create_env (e : list bool) (w : world) : world :=
  World (heap w) (thpool_keepalive w) (stderr w) (spawned w) (exited w) (executed w)
        (malloc_env w) e (semwait_env w).
Definition with_semwait_env (e : list bool) (w : world) : world :=
  World (heap w) (thpool_keepalive w) (stderr w) (spawned w) (exited w) (executed w)
        (malloc_env w) (create_env w) e.

(** ** The monad of C computations *)

Inductive outcome (A : Type) : Type :=
| Ret (a : A) (w : world)        (* returned [a] *)
| Exit (status : Z) (w : world)  (* called exit(status) *)
| Block                          (* cannot proceed: sem_wait on 0, join of a live thread *)
| Fault.                         (* undefined behaviour *)
Arguments Ret {A} a w.
Arguments Exit {A} status w.
Arguments Block {A}.
Arguments Fault {A}.

Definition M (A : Type) : Type := world → outcome A.

#[global] Instance M_ret : MRet M := λ A a w, Ret a w.
#[global] Instance M_bind : MBind M := λ A B f m w,
  match m w with
  | Ret a w' => f a w'
  | Exit s w' => Exit s w'
  | Block => Block
  | Fault => Fault
  end.

#[global] Instance M_fmap : FMap M := λ A B f m, a ← m; mret (f a).

Definition fault {A} : M A := λ _, Fault.
Definition exit {A} (status : Z) : M A := λ w, Exit status w.
Definition gets {A} (f : world → A) : M A := λ w, Ret (f w) w.
Definition modify (f : world → world) : M unit := λ w, Ret tt (f w).

Definition fprintf_stderr (s : string) : M unit := modify (with_stderr (λ l, l ++ [s])).

(** *** Memory *)

Definition load (p : ptr) : M block := λ w,
  match p with
  | None => Fault
  | Some l => match heap w !! l with Some b => Ret b w | None => Fault end
  end.

Definition store (p : ptr) (b : block) : M unit := λ w,
  match p with
  | None => Fault
  | Some l =>
      match heap w !! l with
      | Some _ => Ret tt (with_heap (insert l b) w)
      | None => Fault
      end
  end.

Definition load_job (p : ptr) : M thpool_job_t :=
  b ← load p; match b with BJob j => mret j | _ => fault end.
Definition load_queue (p : ptr) : M thpool_jobqueue :=
  b ← load p; match b with BQueue q => mret q | _ => fault end.
Definition load_pool (p : ptr) : M thpool_t :=
  b ← load p; match b with BPool q => mret q | _ => fault end.
Definition load_threads (p : ptr) : M (list pthread_t) :=
  b ← load p; match b with BThreads ts => mret ts | _ => fault end.

Definition modify_job (p : ptr) (f : thpool_job_t → thpool_job_t) : M unit :=
  j ← load_job p; store p (BJob (f j)).
Definition modify_queue (p : ptr) (f : thpool_jobqueue → thpool_jobqueue) : M unit :=
  q ← load_queue p; store p (BQueue (f q)).
Definition modify_pool (p : ptr) (f : thpool_t → thpool_t) : M unit :=
  q ← load_pool p; store p (BPool (f q)).

(** [malloc]: [NULL] when the script says so, else an address that is not in
    use, holding [init].  [thpool.c] compares addresses with [NULL] only, so
    which free address is handed out is not observable. *)
Definition malloc (init : block) : M ptr := λ w,
  match malloc_env w with
  | false :: e => Ret NULL (with_malloc_env e w)
  | e =>
      let l := fresh (dom (heap w)) in
      Ret (Some l) (with_malloc_env (List.tl e) (with_heap (insert l init) w))
  end.

(** [free]: no operation on [NULL]; freeing what is not allocated is a fault. *)
Definition free (p : ptr) : M unit := λ w,
  match p with
  | None => Ret tt w
  | Some l =>
      match heap w !! l with
      | Some _ => Ret tt (with_heap (delete l) w)
      | None => Fault
      end
  end.

(** *** Semaphores, addressed as [&tp_p->s] *)

Definition SEM_VALUE_MAX : Z := 2147483647.

Definition sem_init (tp_p : ptr) (s : semaphore) (value : Z) : M Z :=
  modify_pool tp_p (sem_set s value);; mret 0%Z.

(** [sem_wait] returns -1 when interrupted, blocks on a zero counter, and
    otherwise decrements it and returns 0.  The script is read before the
    counter; glibc interrupts a wait only while it is blocked, that is on a
    counter of 0, and only that case of an interrupted wait stands for a run
    of the C program. *)
Definition sem_wait (tp_p : ptr) (s : semaphore) : M Z :=
  e ← gets semwait_env;
  match e with
  | false :: e' => modify (with_semwait_env e');; mret (-1)%Z
  | _ =>
      modify (with_semwait_env (List.tl e));;
      p ← load_pool tp_p;
      if (0 <? sem_get s p)%Z
      then store tp_p (BPool (sem_set s (sem_get s p - 1)%Z p));; mret 0%Z
      else λ _, Block
  end.

(** [sem_post] fails, leaving the counter, when it is at its maximum. *)
Definition sem_post (tp_p : ptr) (s : semaphore) : M Z :=
  p ← load_pool tp_p;
  if (sem_get s p <? SEM_VALUE_MAX)%Z
  then store tp_p (BPool (sem_set s (sem_get s p + 1)%Z p));; mret 0%Z
  else mret (-1)%Z.

(** glibc's [sem_destroy] leaves the counter in place and returns 0. *)
Definition sem_destroy (tp_p : ptr) (s : semaphore) : M Z :=
  _ ← load_pool tp_p; mret 0%Z.

(** ** Job queue operations *)

(** [tp_p->jobqueue] and an assignment to one of its fields. *)
Definition queue_of (tp_p : ptr) : M ptr :=
  p ← load_pool tp_p; mret (jobqueue p).
Definition queue_get (tp_p : ptr) : M thpool_jobqueue :=
  jq ← queue_of tp_p; load_queue jq.
Definition queue_set (tp_p : ptr) (f : thpool_jobqueue → thpool_jobqueue) : M unit :=
  jq ← queue_of tp_p; modify_queue jq f.

Definition thpool_jobqueue_init (tp_p : ptr) : M Z :=
  jq ← malloc (BQueue queue_indeterminate);
  modify_pool tp_p (set_jobqueue jq);;
  jq' ← queue_of tp_p;
  match jq' with
  | None => mret (-1)%Z
  | Some _ =>
      queue_set tp_p (set_tail NULL);;
      queue_set tp_p (set_head NULL);;
      queue_set tp_p (set_jobsN 0);;
      mret 0%Z
  end.

Definition thpool_jobqueue_add (tp_p : ptr) (newjob_p : ptr) : M unit :=
  modify_job newjob_p (set_next NULL);;
  modify_job newjob_p (set_prev NULL);;
  q ← queue_get tp_p;
  let oldFirstJob := head q in
  n ← jobsN <$> queue_get tp_p;
  (if (n =? 0)%Z
   then
     queue_set tp_p (set_tail newjob_p);;
     queue_set tp_p (set_head newjob_p)
   else
     modify_job oldFirstJob (set_prev newjob_p);;
     modify_job newjob_p (set_next oldFirstJob);;
     queue_set tp_p (set_head newjob_p));;
  queue_set tp_p (λ q, set_jobsN (wrap_int (jobsN q + 1)) q).

Definition thpool_jobqueue_removelast (tp_p : ptr) : M Z :=
  q ← queue_get tp_p;
  let oldLastJob := tail q in
  n ← jobsN <$> queue_get tp_p;
  if (n =? 0)%Z then mret (-1)%Z
  else
    (if (n =? 1)%Z
     then
       queue_set tp_p (set_tail NULL);;
       queue_set tp_p (set_head NULL)
     else
       almost_last ← prev <$> load_job oldLastJob;
       modify_job almost_last (set_next NULL);;
       almost_last' ← prev <$> load_job oldLastJob;
       queue_set tp_p (set_tail almost_last'));;
    queue_set tp_p (λ q, set_jobsN (wrap_int (jobsN q - 1)) q);;
    mret 0%Z.

Definition thpool_jobqueue_peek (tp_p : ptr) : M ptr :=
  tail <$> queue_get tp_p.

(** The loop [while (tp_p->jobqueue->jobsN) { ... }] of
    [thpool_jobqueue_empty].  The result is [true] when the loop condition was
    found false and [false] when [fuel] turns did not suffice. *)
Fixpoint empty_loop (fuel : nat) (tp_p : ptr) (curjob : ptr) : M bool :=
  match fuel with
  | O => mret false
  | S fuel' =>
      n ← jobsN <$> queue_get tp_p;
      if n =? 0 then mret true
      else
        before ← prev <$> load_job curjob;
        queue_set tp_p (set_tail before);;
        free curjob;;
        curjob' ← tail <$> queue_get tp_p;
        queue_set tp_p (λ q, set_jobsN (wrap_int (jobsN q - 1)) q);;
        empty_loop fuel' tp_p curjob'
  end.

(** Every turn of the loop frees one block, so one more turn than there are
    blocks is always enough ([empty_loop_fuel] below): the last branch is
    never taken. *)
Definition thpool_jobqueue_empty (tp_p : ptr) : M unit :=
  curjob ← tail <$> queue_get tp_p;
  fuel ← gets (λ w, S (size (heap w)));
  finished ← empty_loop fuel tp_p curjob;
  if finished : bool
  then
    queue_set tp_p (set_tail NULL);;
    queue_set tp_p (set_head NULL)
  else fault.

(** ** Pool manager *)

(** [for (t=0; t<n; t++) body(t)] for a bound [n] the body leaves alone. *)
Fixpoint for_loop (t : Z) (turns : nat) (body : Z → M unit) : M unit :=
  match turns with
  | O => mret tt
  | S turns' => body t;; for_loop (t + 1) turns' body
  end.

Definition EAGAIN : Z := 11.

(** [pthread_create(&tp_p->threads[t], NULL, thpool_thread_do, arg)]: on
    success the new thread's id is written to the slot and the thread is
    recorded as started; on failure nothing is written. *)
Definition pthread_create (tp_p : ptr) (t : Z) (arg : ptr) : M Z :=
  ths ← threads <$> load_pool tp_p;
  e ← gets create_env;
  modify (with_create_env (List.tl e));;
  match e with
  | false :: _ => mret EAGAIN
  | _ =>
      ts ← load_threads ths;
      if bool_decide (0 ≤ t < Z.of_nat (length ts))
      then
        tid ← gets (λ w, Z.of_nat (length (spawned w)) + 1);
        store ths (BThreads (<[Z.to_nat t := tid]> ts));;
        modify (with_spawned (λ l, l ++ [(tid, arg)]));;
        mret 0
      else fault
  end.

Definition thpool_init (threadsN : Z) : M ptr :=
  let threadsN := if (threadsN =? 0) || (threadsN <? 1) then 1 else threadsN in
  tp_p ← malloc (BPool pool_indeterminate);
  if bool_decide (tp_p = NULL)
  then
    fprintf_stderr "thpool_init(): Could not allocate memory for thread pool\n";;
    mret NULL
  else
    ths ← malloc (BThreads (replicate (Z.to_nat threadsN) 0));
    modify_pool tp_p (set_threads ths);;
    ths' ← threads <$> load_pool tp_p;
    if bool_decide (ths' = NULL)
    then
      fprintf_stderr "thpool_init(): Could not allocate memory for thread IDs\n";;
      free tp_p;;
      mret NULL
    else
      modify_pool tp_p (set_threadsN threadsN);;
      r ← thpool_jobqueue_init tp_p;
      if r =? -1
      then
        fprintf_stderr "thpool_init(): Could not allocate memory for job queue\n";;
        (ths'' ← threads <$> load_pool tp_p; free ths'');;
        free tp_p;;
        mret NULL
      else
        sem_init tp_p Mutex 1;;
        sem_init tp_p NEmpty threadsN;;
        sem_init tp_p NStored 0;;
        for_loop 0 (Z.to_nat threadsN) (λ t,
          r ← pthread_create tp_p t tp_p;
          if negb (r =? 0)
          then fprintf_stderr "created thread pool failed %s\n"
          else mret tt);;
        mret tp_p.

Definition thpool_add_work (tp_p : ptr) (function_p : fnptr) (arg_p : voidp) : M Z :=
  newJob ← malloc (BJob job_indeterminate);
  (if bool_decide (newJob = NULL)
   then
     fprintf_stderr "thpool_add_work(): Could not allocate memory for new job\n";;
     exit 1
   else mret tt);;
  modify_job newJob (set_function function_p);;
  modify_job newJob (set_arg arg_p);;
  sem_wait tp_p NEmpty;;
  sem_wait tp_p Mutex;;
  thpool_jobqueue_add tp_p newJob;;
  sem_post tp_p Mutex;;
  sem_post tp_p NStored;;
  mret 0.

(** [pthread_join] returns once the thread has left [thpool_thread_do].
    This is the call on the id of a thread that was started; on a handle
    that no [pthread_create] has written the C call is undefined. *)
Definition pthread_join (tid : pthread_t) : M Z := λ w,
  if bool_decide (tid ∈ exited w) then Ret 0 w else Block.

(** The bound [tp_p->threadsN] of the two loops is read once before each:
    their bodies do not assign it. *)
Definition thpool_destroy (tp_p : ptr) : M unit :=
  modify (with_keepalive 0);;
  n ← threadsN <$> load_pool tp_p;
  for_loop 0 (Z.to_nat n) (λ _,
    r ← sem_post tp_p NStored;
    if negb (r =? 0)
    then fprintf_stderr "thpool_destroy(): Could not bypass sem_wait()\n"
    else mret tt);;
  (r ← sem_destroy tp_p Mutex;
   if negb (r =? 0)
   then fprintf_stderr "thpool_destroy(): Could not destroy semaphore\n" else mret tt);;
  (r ← sem_destroy tp_p NEmpty;
   if negb (r =? 0)
   then fprintf_stderr "thpool_destroy(): Could not destroy semaphore\n" else mret tt);;
  (r ← sem_destroy tp_p NStored;
   if negb (r =? 0)
   then fprintf_stderr "thpool_destroy(): Could not destroy semaphore\n" else mret tt);;
  n' ← threadsN <$> load_pool tp_p;
  for_loop 0 (Z.to_nat n') (λ t,
    ths ← threads <$> load_pool tp_p;
    ts ← load_threads ths;
    match ts !! Z.to_nat t with
    | Some tid => pthread_join tid;; mret tt
    | None => fault
    end);;
  thpool_jobqueue_empty tp_p;;
  (ths ← threads <$> load_pool tp_p; free ths);;
  (jq ← queue_of tp_p; free jq);;
  free tp_p.

(** ** The worker: [thpool_thread_do], one step per source line *)

Inductive line :=
| L84    (* while(thpool_keepalive) *)
| L85    (* if (sem_wait(&tp_p->nStored)) { fprintf; exit(1); } *)
| L90    (* if (thpool_keepalive) *)
| L96    (* sem_wait(&tp_p->mutex) *)
| L98    (* job_p = thpool_jobqueue_peek(tp_p) *)
| L99    (* func_buff=job_p->function *)
| L100   (* arg_buff =job_p->arg *)
| L101   (* thpool_jobqueue_removelast(tp_p) *)
| L103   (* sem_post(&tp_p->mutex) *)
| L104   (* sem_post(&tp_p->nEmpty) *)
| L106   (* func_buff(arg_buff) *)
| L107   (* free(job_p) *)
| L110   (* return *)
| Returned.

#[global] Instance line_eq_dec : EqDecision line.
Proof. solve_decision. Defined.

Record frame := Frame {
  self : pthread_t;
  pc : line;
  job_p : ptr;
  func_buff : fnptr;
  arg_buff : voidp
}.

Definition goto (l : line) (s : frame) : frame :=
  Frame (self s) l (job_p s) (func_buff s) (arg_buff s).
Definition set_job_p (v : ptr) (s : frame) : frame :=
  Frame (self s) (pc s) v (func_buff s) (arg_buff s).
Definition set_func_buff (v : fnptr) (s : frame) : frame :=
  Frame (self s) (pc s) (job_p s) v (arg_buff s).
Definition set_arg_buff (v : voidp) (s : frame) : frame :=
  Frame (self s) (pc s) (job_p s) (func_buff s) v.

(** Calling the job: a null function pointer is a fault, any other call is
    recorded. *)
Definition call (f : fnptr) (a : voidp) : M unit :=
  if f =? 0 then fault else modify (with_executed (λ l, l ++ [(f, a)])).

Definition thpool_thread_do (tp_p : ptr) (s : frame) : M frame :=
  match pc s with
  | L84 =>
      k ← gets thpool_keepalive;
      mret (if k =? 0 then goto L110 s else goto L85 s)
  | L85 =>
      r ← sem_wait tp_p NStored;
      if negb (r =? 0)
      then fprintf_stderr "thpool_thread_do(): Waiting for semaphore";; exit 1
      else mret (goto L90 s)
  | L90 =>
      k ← gets thpool_keepalive;
      mret (if k =? 0 then goto L84 s else goto L96 s)
  | L96 => sem_wait tp_p Mutex;; mret (goto L98 s)
  | L98 => j ← thpool_jobqueue_peek tp_p; mret (goto L99 (set_job_p j s))
  | L99 => j ← load_job (job_p s); mret (goto L100 (set_func_buff (function j) s))
  | L100 => j ← load_job (job_p s); mret (goto L101 (set_arg_buff (arg j) s))
  | L101 => thpool_jobqueue_removelast tp_p;; mret (goto L103 s)
  | L103 => sem_post tp_p Mutex;; mret (goto L104 s)
  | L104 => sem_post tp_p NEmpty;; mret (goto L106 s)
  | L106 => call (func_buff s) (arg_buff s);; mret (goto L107 s)
  | L107 => free (job_p s);; mret (goto L84 s)
  | L110 => modify (with_exited (λ l, l ++ [self s]));; mret (goto Returned s)
  | Returned => λ _, Block
  end.

(** [n] steps of the worker with no other thread in between. *)
Fixpoint thread_steps (n : nat) (tp_p : ptr) (s : frame) : M frame :=
  match n with
  | O => mret s
  | S n' => s' ← thpool_thread_do tp_p s; thread_steps n' tp_p s'
  end.

(** ** The shape of a well-formed queue *)

(** [js] lists the linked jobs from the head (newest) to the tail (oldest):
    each is an allocated job whose [next] is its successor in [js] and whose
    [prev] is its predecessor. *)
Definition linked (h : gmap positive block) (js : list positive) : Prop :=
  ∀ (i : nat) (l : positive), js !! i = Some l →
    ∃ j, h !! l = Some (BJob j) ∧ next j = js !! S i ∧
         prev j = match i with O => None | S i' => js !! i' end.

Definition queue_rep (w : world) (tp : positive) (js : list positive) : Prop :=
  ∃ p jq q,
    heap w !! tp = Some (BPool p) ∧ jobqueue p = Some jq ∧
    heap w !! jq = Some (BQueue q) ∧
    head q = js !! 0%nat ∧ tail q = last js ∧
    jobsN q = Z.of_nat (length js) ∧ Z.of_nat (length js) ≤ INT_MAX ∧
    NoDup js ∧ linked (heap w) js.

(** The same, as a check that runs. *)
Fixpoint linkedb (h : gmap positive block) (before : ptr) (js : list positive) : bool :=
  match js with
  | [] => true
  | l :: rest =>
      match h !! l with
      | Some (BJob j) =>
          bool_decide (prev j = before) && bool_decide (next j = rest !! 0%nat)
          && linkedb h (Some l) rest
      | _ => false
      end
  end.

Definition queue_repb (w : world) (tp : positive) (js : list positive) : bool :=
  match heap w !! tp with
  | Some (BPool p) =>
      match jobqueue p with
      | Some jq =>
          match heap w !! jq with
          | Some (BQueue q) =>
              bool_decide (head q = js !! 0%nat) && bool_decide (tail q = last js)
              && bool_decide (jobsN q = Z.of_nat (length js))
              && bool_decide (Z.of_nat (length js) ≤ INT_MAX)
              && bool_decide (NoDup js) && linkedb (heap w) NULL js
          | _ => false
          end
      | None => false
      end
  | _ => false
  end.

(** The queue of pool [tp], when [tp] is a pool whose queue is allocated. *)
Definition the_queue (w : world) (tp : positive) : option thpool_jobqueue :=
  match heap w !! tp with
  | Some (BPool p) =>
      match jobqueue p with
      | Some jq => match heap w !! jq with Some (BQueue q) => Some q | _ => None end
      | None => None
      end
  | _ => None
  end.

(** [chain h p n]: following [next] from [p] visits exactly [n] allocated
    jobs and then reaches [NULL]. *)
Inductive chain (h : gmap positive block) : ptr → nat → Prop :=
| chain_null : chain h NULL 0
| chain_job l j n :
    h !! l = Some (BJob j) → chain h (next j) n → chain h (Some l) (S n).

(** The invariant of the data model, in the words of the specification. *)
Definition queue_invariant (w : world) (tp : positive) : Prop :=
  ∃ q, the_queue w tp = Some q ∧
    0 ≤ jobsN q ∧
    chain (heap w) (head q) (Z.to_nat (jobsN q)) ∧
    ((head q = NULL ∧ tail q = NULL) ↔ jobsN q = 0) ∧
    ((∃ l, head q = Some l ∧ tail q = Some l) ↔ jobsN q = 1).

(** ** Sequences of queue operations *)

Inductive queue_op :=
| Enq (newjob : positive)   (* thpool_jobqueue_add *)
| Deq.                      (* thpool_jobqueue_peek, then thpool_jobqueue_removelast *)

(** Runs the operations in order and collects what the successful dequeues
    (those whose [thpool_jobqueue_removelast] returned 0) had peeked. *)
Fixpoint run_ops (tp_p : ptr) (ops : list queue_op) : M (list ptr) :=
  match ops with
  | [] => mret []
  | Enq newjob :: rest =>
      thpool_jobqueue_add tp_p (Some newjob);;
      run_ops tp_p rest
  | Deq :: rest =>
      job_p ← thpool_jobqueue_peek tp_p;
      r ← thpool_jobqueue_removelast tp_p;
      served ← run_ops tp_p rest;
      mret (if r =? 0 then job_p :: served else served)
  end.

Fixpoint enqueued (ops : list queue_op) : list positive :=
  match ops with
  | [] => []
  | Enq newjob :: rest => newjob :: enqueued rest
  | Deq :: rest => enqueued rest
  end.

(** No job is enqueued while it is still linked in the queue: [js] is the
    queue content, head first, before [ops]. *)
Fixpoint enq_fresh (js : list positive) (ops : list queue_op) : Prop :=
  match ops with
  | [] => True
  | Enq newjob :: rest => (newjob ∉ js) ∧ enq_fresh (newjob :: js) rest
  | Deq :: rest => enq_fresh (removelast js) rest
  end.

Definition is_job (h : gmap positive block) (l : positive) : Prop :=
  ∃ j, h !! l = Some (BJob j).

(** ** Interleaving the worker with other threads *)

(** What every other thread guarantees about [thpool_keepalive]: once 0 it
    stays 0 (the only assignment in [thpool.c] is [thpool_keepalive=0]). *)
Definition keepalive_rely (w w' : world) : Prop :=
  thpool_keepalive w = 0 → thpool_keepalive w' = 0.

(** Runs of one worker between steps of other threads; the trace lists the
    source lines the worker executed. *)
Inductive interleaved (tp_p : ptr) : (world * frame) → list line → (world * frame) → Prop :=
| interleaved_done c : interleaved tp_p c [] c
| interleaved_other w w1 s tr c :
    keepalive_rely w w1 →
    interleaved tp_p (w1, s) tr c →
    interleaved tp_p (w, s) tr c
| interleaved_own w w1 s s1 tr c :
    thpool_thread_do tp_p s w = Ret s1 w1 →
    interleaved tp_p (w1, s1) tr c →
    interleaved tp_p (w, s) (pc s :: tr) c.

(** ** Scripts of the C library *)

(** How many of the next [n] calls the script [e] makes fail. *)
Fixpoint failures (n : nat) (e : list bool) : nat :=
  match n, e with
  | S n', false :: e' => S (failures n' e')
  | S n', _ :: e' => failures n' e'
  | _, _ => O
  end.

(** The three allocations of [thpool_init], in order: the pool, the thread
    ids, the job queue. *)
Definition init_alloc_fails (w : world) : bool :=
  negb (failures 3 (malloc_env w) =? 0)%nat.

(** ** What the loop of [thpool_jobqueue_empty] relies on *)

Definition prev_linked (h : gmap positive block) (js : list positive) : Prop :=
  ∀ (i : nat) (l : positive), js !! i = Some l →
    ∃ j, h !! l = Some (BJob j) ∧
         prev j = match i with O => None | S i' => js !! i' end.

(** ** Names for parts of [thpool_init] *)

(** The body of the loop that starts the workers, as it stands in
    [thpool_init]. *)
Definition spawn_body (tp_p : ptr) : Z → M unit := λ t,
  r ← pthread_create tp_p t tp_p;
  if negb (r =? 0)
  then fprintf_stderr "created thread pool failed %s\n"
  else mret tt.

(** The pool structure as [thpool_init] leaves it for [N] threads. *)
Definition pool_ready (ths jq : positive) (N : Z) : thpool_t :=
  Pool (Some ths) N (Some jq) 1 N 0.

(** ** The keep-alive flag *)

(** A computation that returns leaves [thpool_keepalive] as it found it. *)
Definition keeps_flag {A} (m : M A) : Prop :=
  ∀ w a w', m w = Ret a w' → thpool_keepalive w' = thpool_keepalive w.

(** The lines a worker still executes once line 90 has read the flag as 0. *)
Definition after_wakeup (l : line) : list line :=
  match l with
  | L90 => [L90; L84; L110]
  | L84 => [L84; L110]
  | L110 => [L110]
  | _ => []
  end.

(** ** Decision procedures *)

#[global] Instance is_job_dec h l : Decision (is_job h l).
Proof.
  unfold is_job. destruct (h !! l) as [[j| | |]|].
  - left. by exists j.
  - right. intros [? ?]. congruence.
  - right. intros [? ?]. congruence.
  - right. intros [? ?]. congruence.
  - right. intros [? ?]. congruence.
Defined.

#[global] Instance enq_fresh_dec ops : ∀ js, Decision (enq_fresh js ops).
Proof. induction ops as [|[newjob|] ops IH]; intros js; simpl; apply _. Defined.

(** ** Example states *)

(** A process that has not called the library yet. *)
Definition w_boot : world := World ∅ 1 [] [] [] [] [] [] [].

(** The same, where the third [malloc] will fail. *)
Definition w_no_memory : world := World ∅ 1 [] [] [] [] [true; true; false] [] [].

(** The same, where the first [pthread_create] will fail. *)
Definition w_no_thread : world := World ∅ 1 [] [] [] [] [] [false] [].

(** A pool of two workers at address 1; its queue holds job 5 (newest) and
    job 4 (oldest); job 6 is allocated and not linked. *)
Definition w_two_jobs : world :=
  World
    (list_to_map
       [(1%positive, BPool (Pool (Some 2%positive) 2 (Some 3%positive) 1 0 2));
        (2%positive, BThreads [1; 2]);
        (3%positive, BQueue (JobQueue (Some 5%positive) (Some 4%positive) 2));
        (4%positive, BJob (Job 7 70 NULL (Some 5%positive)));
        (5%positive, BJob (Job 7 71 (Some 4%positive) NULL));
        (6%positive, BJob (Job 8 80 NULL NULL))])
    1 [] [(1, Some 1%positive); (2, Some 1%positive)] [] [] [] [] [].

(** The same pool with a free slot and an empty queue. *)
Definition w_idle : world :=
  World
    (list_to_map
       [(1%positive, BPool (Pool (Some 2%positive) 2 (Some 3%positive) 1 2 0));
        (2%positive, BThreads [1; 2]);
        (3%positive, BQueue (JobQueue NULL NULL 0))])
    1 [] [(1, Some 1%positive); (2, Some 1%positive)] [] [] [] [] [].

(** A worker of that pool at line 90 and at line 98. *)
Definition worker_at (l : line) : frame := Frame 1 l NULL 0 0.

(** ** The pool between two operations *)

(** The callable and the argument stored in the job at [l]. *)
Definition payload_of (h : gmap positive block) (l : positive) : option (Z * Z) :=
  match h !! l with
  | Some (BJob j) => Some (function j, arg j)
  | _ => None
  end.

(** [fas] lists the payloads of the jobs [js], in the same order. *)
Definition payloads (h : gmap positive block) (js : list positive) (fas : list (Z * Z)) : Prop :=
  payload_of h <$> js = Some <$> fas.

#[global] Instance payloads_dec h js fas : Decision (payloads h js fas).
Proof. unfold payloads. apply _. Defined.

(** A pool that no thread is operating on: the queue is well formed and
    holds the jobs [js] with payloads [fas], the lock is free, [nStored]
    counts the queued jobs and [c] slots are empty. *)
Definition pool_rep (w : world) (tp : positive) (js : list positive)
    (fas : list (Z * Z)) (c : Z) : Prop :=
  queue_rep w tp js ∧ payloads (heap w) js fas ∧
  ∃ p, heap w !! tp = Some (BPool p) ∧
       mutex p = 1 ∧ nEmpty p = c ∧ nStored p = Z.of_nat (length js) ∧
       0 ≤ c ∧ c + Z.of_nat (length js) ≤ INT_MAX.

Definition pool_repb (w : world) (tp : positive) (js : list positive)
    (fas : list (Z * Z)) (c : Z) : bool :=
  queue_repb w tp js && bool_decide (payloads (heap w) js fas) &&
  match heap w !! tp with
  | Some (BPool p) =>
      bool_decide (mutex p = 1) && bool_decide (nEmpty p = c)
      && bool_decide (nStored p = Z.of_nat (length js))
      && bool_decide (0 ≤ c) && bool_decide (c + Z.of_nat (length js) ≤ INT_MAX)
  | _ => false
  end.

(** No failure of [malloc] or [sem_wait] is scheduled. *)
Definition quiet (w : world) : Prop :=
  (false ∉ malloc_env w) ∧ (false ∉ semwait_env w).

#[global] Instance quiet_dec w : Decision (quiet w).
Proof. unfold quiet. apply _. Defined.

(** A computation that returns has changed nothing but links and queue
    fields: the world outside the heap, the set of allocated addresses, the
    payload of every job, and every pool and thread-handle block are as
    before. *)
Definition relinks {A} (m : M A) : Prop :=
  ∀ w a w', m w = Ret a w' →
    w' = with_heap (λ _, heap w') w ∧
    dom (heap w') = dom (heap w) ∧
    (∀ l fa, payload_of (heap w) l = Some fa → payload_of (heap w') l = Some fa) ∧
    (∀ l p, heap w !! l = Some (BPool p) → heap w' !! l = Some (BPool p)) ∧
    (∀ l ts, heap w !! l = Some (BThreads ts) → heap w' !! l = Some (BThreads ts)).

(** ** The waits of [thpool_add_work] *)

(** Lines 131 and 132: the two waits, whose results are not looked at.  An
    interrupted wait leaves its semaphore as it was. *)
Definition after_waits (e : list bool) (p : thpool_t) : thpool_t :=
  let p1 := if decide (e !! 0%nat = Some false) then p
            else sem_set NEmpty (nEmpty p - 1) p in
  if decide (e !! 1%nat = Some false) then p1 else sem_set Mutex (mutex p1 - 1) p1.

(** ** Submissions and worker turns, one after the other *)

Inductive pool_op :=
| Submit (function_p : Z) (arg_p : Z)   (* thpool_add_work *)
| Turn.                                 (* lines 84 to 107 of thpool_thread_do *)

(** One worker and one submitter taking turns: a [Turn] is the twelve steps
    of the worker from the loop test back to the loop test. *)
Fixpoint run_pool (tp_p : ptr) (s : frame) (ops : list pool_op) : M frame :=
  match ops with
  | [] => mret s
  | Submit function_p arg_p :: rest =>
      thpool_add_work tp_p function_p arg_p;;
      run_pool tp_p s rest
  | Turn :: rest =>
      s' ← thread_steps 12 tp_p s;
      run_pool tp_p s' rest
  end.

Fixpoint submitted (ops : list pool_op) : list (Z * Z) :=
  match ops with
  | [] => []
  | Submit function_p arg_p :: rest => (function_p, arg_p) :: submitted rest
  | Turn :: rest => submitted rest
  end.

(** With [c] empty slots and [n] jobs stored, no operation of [ops] has to
    wait. *)
Fixpoint never_waits (c n : Z) (ops : list pool_op) : Prop :=
  match ops with
  | [] => True
  | Submit _ _ :: rest => 0 < c ∧ never_waits (c - 1) (n + 1) rest
  | Turn :: rest => 0 < n ∧ never_waits (c + 1) (n - 1) rest
  end.

#[global] Instance never_waits_dec ops : ∀ c n, Decision (never_waits c n ops).
Proof. induction ops as [|[f a|] ops IH]; intros c n; simpl; apply _. Defined.

(** ** The two halves of [thpool_destroy] *)

(** Lines 146 to 153: clear the flag and post [nStored] once per thread. *)
Definition destroy_wake (tp_p : ptr) : M unit :=
  modify (with_keepalive 0);;
  n ← threadsN <$> load_pool tp_p;
  for_loop 0 (Z.to_nat n) (λ _,
    r ← sem_post tp_p NStored;
    if negb (r =? 0)
    then fprintf_stderr "thpool_destroy(): Could not bypass sem_wait()\n"
    else mret tt).

(** Lines 156 to 175: destroy the semaphores, join, drain and free. *)
Definition destroy_reap (tp_p : ptr) : M unit :=
  (r ← sem_destroy tp_p Mutex;
   if negb (r =? 0)
   then fprintf_stderr "thpool_destroy(): Could not destroy semaphore\n" else mret tt);;
  (r ← sem_destroy tp_p NEmpty;
   if negb (r =? 0)
   then fprintf_stderr "thpool_destroy(): Could not destroy semaphore\n" else mret tt);;
  (r ← sem_destroy tp_p NStored;
   if negb (r =? 0)
   then fprintf_stderr "thpool_destroy(): Could not destroy semaphore\n" else mret tt);;
  n' ← threadsN <$> load_pool tp_p;
  for_loop 0 (Z.to_nat n') (λ t,
    ths ← threads <$> load_pool tp_p;
    ts ← load_threads ths;
    match ts !! Z.to_nat t with
    | Some tid => pthread_join tid;; mret tt
    | None => fault
    end);;
  thpool_jobqueue_empty tp_p;;
  (ths ← threads <$> load_pool tp_p; free ths);;
  (jq ← queue_of tp_p; free jq);;
  free tp_p.

(** The idle workers [tids], each blocked at line 85, take in turn the four
    steps that a post lets them take.  It is run on [workers_of], the
    threads that were started on the pool and have not returned. *)
Fixpoint wake_all (tp_p : ptr) (tids : list Z) : M unit :=
  match tids with
  | [] => mret tt
  | tid :: rest =>
      thread_steps 4 tp_p (Frame tid L85 NULL 0 0);;
      wake_all tp_p rest
  end.

(** The pool of [w_two_jobs] once its two workers have returned. *)
Definition w_workers_gone : world := with_exited (λ _, [1; 2]) w_two_jobs.

(** The blocks of a pool: its handle array [ths], which holds the ids [ts]
    of its [threadsN] threads, and its queue [jq]. *)
Definition pool_parts (w : world) (tp ths jq : positive) (ts : list Z) : Prop :=
  ∃ p, heap w !! tp = Some (BPool p) ∧ threads p = Some ths ∧ jobqueue p = Some jq ∧
       heap w !! ths = Some (BThreads ts) ∧ threadsN p = Z.of_nat (length ts).

(** A computation that returns schedules no failure that was not scheduled
    before. *)
Definition stays_quiet {A} (m : M A) : Prop :=
  ∀ w a w', m w = Ret a w' → quiet w → quiet w'.

(** One submission for each payload of [fas], first to last. *)
Definition submit_all (fas : list (Z * Z)) : list pool_op :=
  (λ fa, Submit fa.1 fa.2) <$> fas.

(** The message of the first allocation of [thpool_init] that the script
    [e] makes fail: lines 41, 46 and 54. *)
Definition init_diagnostic (e : list bool) : string :=
  if decide (e !! 0%nat = Some false)
  then "thpool_init(): Could not allocate memory for thread pool\n"
  else if decide (e !! 1%nat = Some false)
  then "thpool_init(): Could not allocate memory for thread IDs\n"
  else "thpool_init(): Could not allocate memory for job queue\n".

(** ** Thread ids *)

(** The ids that [pthread_create] hands out to the next [n] threads when [k]
    threads have been started: [k + 1] to [k + n]. *)
Definition fresh_ids (k n : nat) : list Z := (λ i : nat, Z.of_nat i + 1) <$> seq k n.

(** The threads that were started on pool [tp] and have not returned. *)
Definition workers_of (w : world) (tp : positive) : list Z :=
  filter (λ tid, tid ∉ exited w) (filter (λ x, x.2 = Some tp) (spawned w)).*1.

(** No thread is running: every thread started so far has returned, and
    only ids that were handed out are recorded as returned. *)
Definition no_thread_running (w : world) : Prop :=
  Forall (λ x, x.1 ∈ exited w) (spawned w) ∧
  Forall (λ tid, tid ≤ Z.of_nat (length (spawned w))) (exited w).

#[global] Instance no_thread_running_dec w : Decision (no_thread_running w).
Proof. unfold no_thread_running. apply _. Defined.

(** The pool of [pool_rep] while another thread holds the lock, at a point
    where that thread has the queue well formed: before its first or after
    its last assignment to the queue. *)
Definition pool_locked (w : world) (tp : positive) (js : list positive)
    (fas : list (Z * Z)) (c : Z) : Prop :=
  queue_rep w tp js ∧ payloads (heap w) js fas ∧
  ∃ p, heap w !! tp = Some (BPool p) ∧
       mutex p = 0 ∧ nEmpty p = c ∧ nStored p = Z.of_nat (length js) ∧
       0 ≤ c ∧ c + Z.of_nat (length js) ≤ INT_MAX.

Definition pool_lockedb (w : world) (tp : positive) (js : list positive)
    (fas : list (Z * Z)) (c : Z) : bool :=
  queue_repb w tp js && bool_decide (payloads (heap w) js fas) &&
  match heap w !! tp with
  | Some (BPool p) =>
      bool_decide (mutex p = 0) && bool_decide (nEmpty p = c)
      && bool_decide (nStored p = Z.of_nat (length js))
      && bool_decide (0 ≤ c) && bool_decide (c + Z.of_nat (length js) ≤ INT_MAX)
  | _ => false
  end.

(** Lines 156 to 168 of [thpool_destroy]: destroy the semaphores and join
    the threads. *)
Definition destroy_join (tp_p : ptr) : M unit :=
  (r ← sem_destroy tp_p Mutex;
   if negb (r =? 0)
   then fprintf_stderr "thpool_destroy(): Could not destroy semaphore\n" else mret tt);;
  (r ← sem_destroy tp_p NEmpty;
   if negb (r =? 0)
   then fprintf_stderr "thpool_destroy(): Could not destroy semaphore\n" else mret tt);;
  (r ← sem_destroy tp_p NStored;
   if negb (r =? 0)
   then fprintf_stderr "thpool_destroy(): Could not destroy semaphore\n" else mret tt);;
  n' ← threadsN <$> load_pool tp_p;
  for_loop 0 (Z.to_nat n') (λ t,
    ths ← threads <$> load_pool tp_p;
    ts ← load_threads ths;
    match ts !! Z.to_nat t with
    | Some tid => pthread_join tid;; mret tt
    | None => fault
    end).

(** Lines 170 to 175: drain the queue and free the three blocks. *)
Definition destroy_free (tp_p : ptr) : M unit :=
  thpool_jobqueue_empty tp_p;;
  (ths ← threads <$> load_pool tp_p; free ths);;
  (jq ← queue_of tp_p; free jq);;
  free tp_p.

(** The pool of [w_idle] while a submitter that has taken a slot holds the
    lock. *)
Definition w_locked : world :=
  World
    (list_to_map
       [(1%positive, BPool (Pool (Some 2%positive) 2 (Some 3%positive) 0 1 0));
        (2%positive, BThreads [1; 2]);
        (3%positive, BQueue (JobQueue NULL NULL 0))])
    1 [] [(1, Some 1%positive); (2, Some 1%positive)] [] [] [] [] [true; false].

(** * Lemmas *)

(** ** Running monadic code *)

Lemma bind_ret {A B} (m : M A) (k : A → M B) w a w' :
  m w = Ret a w' → (m ≫= k) w = k a w'.
Proof. intros H. unfold mbind, M_bind. by rewrite H. Qed.

Lemma fmap_ret {A B} (f : A → B) (m : M A) w a w' :
  m w = Ret a w' → (f <$> m) w = Ret (f a) w'.
Proof. intros H. unfold fmap, M_fmap. by rewrite (bind_ret _ _ _ _ _ H). Qed.

Lemma load_job_ret w l j : heap w !! l = Some (BJob j) → load_job (Some l) w = Ret j w.
Proof. intros H. unfold load_job, load, mbind, M_bind. by rewrite H. Qed.
Lemma load_queue_ret w l q : heap w !! l = Some (BQueue q) → load_queue (Some l) w = Ret q w.
Proof. intros H. unfold load_queue, load, mbind, M_bind. by rewrite H. Qed.
Lemma load_pool_ret w l p : heap w !! l = Some (BPool p) → load_pool (Some l) w = Ret p w.
Proof. intros H. unfold load_pool, load, mbind, M_bind. by rewrite H. Qed.

Lemma modify_job_ret w l j f :
  heap w !! l = Some (BJob j) →
  modify_job (Some l) f w = Ret tt (with_heap (insert l (BJob (f j))) w).
Proof. intros H. unfold modify_job. rewrite (bind_ret _ _ _ _ _ (load_job_ret _ _ _ H)). unfold store. by rewrite H. Qed.

Lemma queue_get_ret w tp p jq q :
  heap w !! tp = Some (BPool p) → jobqueue p = Some jq → heap w !! jq = Some (BQueue q) →
  queue_get (Some tp) w = Ret q w.
Proof.
  intros Hp Hjq Hq. unfold queue_get, queue_of.
  rewrite (bind_ret _ _ w (jobqueue p) w).
  - rewrite Hjq. by apply load_queue_ret.
  - by rewrite (bind_ret _ _ _ _ _ (load_pool_ret _ _ _ Hp)).
Qed.

Lemma queue_set_ret w tp p jq q f :
  heap w !! tp = Some (BPool p) → jobqueue p = Some jq → heap w !! jq = Some (BQueue q) →
  queue_set (Some tp) f w = Ret tt (with_heap (insert jq (BQueue (f q))) w).
Proof.
  intros Hp Hjq Hq. unfold queue_set, queue_of.
  rewrite (bind_ret _ _ w (jobqueue p) w).
  - rewrite Hjq. unfold modify_queue. rewrite (bind_ret _ _ _ _ _ (load_queue_ret _ _ _ Hq)).
    unfold store. by rewrite Hq.
  - by rewrite (bind_ret _ _ _ _ _ (load_pool_ret _ _ _ Hp)).
Qed.

Lemma wrap_int_id z : INT_MIN ≤ z ≤ INT_MAX → wrap_int z = z.
Proof. unfold INT_MIN, INT_MAX, wrap_int. intros H. rewrite Z.mod_small; lia. Qed.

Lemma bind_assoc {A B C} (m : M A) (f : A → M B) (g : B → M C) w :
  ((m ≫= f) ≫= g) w = (m ≫= λ x, f x ≫= g) w.
Proof. unfold mbind, M_bind. by destruct (m w). Qed.

Lemma free_ret w l b :
  heap w !! l = Some b → free (Some l) w = Ret tt (with_heap (delete l) w).
Proof. intros H. unfold free. by rewrite H. Qed.

Lemma modify_pool_ret w l p f :
  heap w !! l = Some (BPool p) →
  modify_pool (Some l) f w = Ret tt (with_heap (insert l (BPool (f p))) w).
Proof.
  intros H. unfold modify_pool. rewrite (bind_ret _ _ _ _ _ (load_pool_ret _ _ _ H)).
  unfold store. by rewrite H.
Qed.

Lemma queue_of_ret w tp p :
  heap w !! tp = Some (BPool p) → queue_of (Some tp) w = Ret (jobqueue p) w.
Proof. intros H. unfold queue_of. by rewrite (bind_ret _ _ _ _ _ (load_pool_ret _ _ _ H)). Qed.

Lemma sem_init_ret w l p s v :
  heap w !! l = Some (BPool p) →
  sem_init (Some l) s v w = Ret 0 (with_heap (insert l (BPool (sem_set s v p))) w).
Proof. intros H. unfold sem_init. by rewrite (bind_ret _ _ _ _ _ (modify_pool_ret _ _ _ _ H)). Qed.

(** Stepping through a sequence of statements: [solve_lookup] reads an
    address through the updates made so far, [prim] runs one statement whose
    operands are allocated, [run1] takes the first statement off a sequence. *)
Ltac solve_lookup :=
  simpl;
  repeat first [ rewrite lookup_insert_ne by congruence
               | rewrite lookup_delete_ne by congruence ];
  first [ apply lookup_insert_eq | eassumption ].
Ltac prim :=
  first [ eapply modify_job_ret; solve_lookup
        | eapply modify_pool_ret; solve_lookup
        | eapply sem_init_ret; solve_lookup
        | eapply queue_of_ret; solve_lookup
        | eapply queue_set_ret; [solve_lookup | eassumption | solve_lookup]
        | eapply queue_get_ret; [solve_lookup | eassumption | solve_lookup]
        | eapply load_job_ret; solve_lookup
        | eapply load_pool_ret; solve_lookup
        | eapply free_ret; solve_lookup
        | eapply fmap_ret; prim ].
Ltac run1 := first [ rewrite bind_assoc | erewrite bind_ret; [| prim ] ].

(** ** The job queue keeps its shape *)

Lemma add_preserves w tp js nj :
  queue_rep w tp js → is_job (heap w) nj → nj ∉ js → Z.of_nat (length js) < INT_MAX →
  ∃ w', thpool_jobqueue_add (Some tp) (Some nj) w = Ret tt w' ∧ queue_rep w' tp (nj :: js) ∧
        (∀ l, is_job (heap w) l → is_job (heap w') l) ∧
        w' = with_heap (λ _, heap w') w.
Proof.
  intros (p & jq & q & Hp & Hjq & Hq & Hhd & Htl & Hn & Hmax & Hnd & Hlk) [j0 Hj0] Hfresh Hlt.
  assert (nj ≠ tp) by congruence. assert (nj ≠ jq) by congruence. assert (tp ≠ jq) by congruence.
  unfold thpool_jobqueue_add.
  run1. run1. run1. run1.
  simpl.
  destruct js as [|hd js'].
  - simpl in *. rewrite Hn. simpl.
    run1. run1. run1.
    erewrite queue_set_ret; [|solve_lookup|eassumption|solve_lookup].
    eexists; split; [reflexivity|]. split; [|split; [|reflexivity]]; cycle 1.
    { intros l [j Hj]. assert (l ≠ jq) by congruence. simpl.
      destruct (decide (l = nj)) as [->|]; eexists; solve_lookup. }
    eexists p, jq, _. simpl. rewrite lookup_insert_eq. rewrite !lookup_insert_ne by congruence.
    split_and!; try done.
    + simpl. rewrite Hn. reflexivity.
    + apply NoDup_singleton.
    + intros [|i] l Hl; simplify_eq/=. eexists; split; [solve_lookup|done].
  - destruct (Hlk 0%nat hd eq_refl) as (jh & Hjh & Hnx & Hpv). simpl in Hhd. rewrite Hhd.
    apply not_elem_of_cons in Hfresh as [Hne Hfresh].
    assert (hd ≠ jq) by congruence.
    rewrite Hn. destruct (Z.eqb_spec (Z.of_nat (length (hd :: js'))) 0) as [E|_]; [simpl in E; lia|].
    repeat run1.
    erewrite queue_set_ret; [|solve_lookup|eassumption|solve_lookup].
    eexists; split; [reflexivity|]. split; [|split; [|reflexivity]]; cycle 1.
    { intros l [j Hj]. assert (l ≠ jq) by congruence. simpl.
      destruct (decide (l = nj)) as [->|]; [eexists; solve_lookup|].
      destruct (decide (l = hd)) as [->|]; eexists; solve_lookup. }
    eexists p, jq, _. simpl. rewrite lookup_insert_eq. rewrite !lookup_insert_ne by congruence.
    split_and!; try done.
    + simpl. rewrite Hn, wrap_int_id; [simpl length; lia|]. unfold INT_MIN, INT_MAX in *. simpl length in *. lia.
    + simpl length in *. lia.
    + apply NoDup_cons. split; [|done]. by apply not_elem_of_cons.
    + intros [|[|i]] l Hl; simplify_eq/=.
      * eexists; split; [solve_lookup|done].
      * eexists; split; [solve_lookup|done].
      * destruct (Hlk (S i) l Hl) as (j & Hj & Hnj & Hpj).
        assert (l ≠ hd). { intros ->. apply NoDup_cons in Hnd as [Hnin _]. apply Hnin. eapply list_elem_of_lookup_2; eauto. }
        assert (l ≠ nj). { intros ->. apply Hfresh. eapply list_elem_of_lookup_2; eauto. }
        exists j; split; [solve_lookup|done].
Qed.

Lemma snoc_cases {A} (l : list A) : l = [] ∨ ∃ l' x, l = l' ++ [x].
Proof. induction l as [|x l' _] using rev_ind; [by left|right; eauto]. Qed.

Lemma peek_spec w tp js :
  queue_rep w tp js → thpool_jobqueue_peek (Some tp) w = Ret (last js) w.
Proof.
  intros (p & jq & q & Hp & Hjq & Hq & Hhd & Htl & _).
  unfold thpool_jobqueue_peek. rewrite <- Htl. apply fmap_ret. by eapply queue_get_ret.
Qed.

Lemma removelast_empty w tp :
  queue_rep w tp [] → thpool_jobqueue_removelast (Some tp) w = Ret (-1) w.
Proof.
  intros (p & jq & q & Hp & Hjq & Hq & Hhd & Htl & Hn & _).
  unfold thpool_jobqueue_removelast. repeat run1. by rewrite Hn.
Qed.

Lemma removelast_snoc w tp js t :
  queue_rep w tp (js ++ [t]) →
  ∃ w', thpool_jobqueue_removelast (Some tp) w = Ret 0 w' ∧ queue_rep w' tp js ∧
        heap w' !! t = heap w !! t ∧
        (∀ l, is_job (heap w) l → is_job (heap w') l) ∧
        w' = with_heap (λ _, heap w') w.
Proof.
  intros (p & jq & q & Hp & Hjq & Hq & Hhd & Htl & Hn & Hmax & Hnd & Hlk).
  assert (tp ≠ jq) by congruence.
  rewrite last_snoc in Htl. rewrite length_app in Hn, Hmax. simpl in Hn, Hmax.
  destruct (Hlk (length js) t) as (jt & Hjt & Hnt & Hpt).
  { rewrite lookup_app_r by lia. by rewrite Nat.sub_diag. }
  assert (t ≠ jq) by congruence.
  unfold thpool_jobqueue_removelast. repeat run1. rewrite Hn, Htl.
  destruct (Z.eqb_spec (Z.of_nat (length js + 1)) 0) as [E|_]; [lia|].
  destruct (snoc_cases js) as [->|(js' & a & ->)].
  - simpl. repeat run1. eexists; split; [reflexivity|]. simpl. split_and!.
    + eexists p, jq, _. split_and!; [solve_lookup|done|solve_lookup|done|done| |done|constructor|].
      * simpl. rewrite Hn. reflexivity.
      * intros i l Hl. by destruct i.
    + by rewrite !lookup_insert_ne by congruence.
    + intros l [j Hj]. exists j. assert (l ≠ jq) by congruence. solve_lookup.
    + reflexivity.
  - rewrite length_app in *. simpl length in *.
    destruct (Z.eqb_spec (Z.of_nat (length js' + 1 + 1)) 1) as [E|_]; [lia|].
    replace (length js' + 1)%nat with (S (length js')) in Hpt by lia.
    rewrite lookup_app_l in Hpt by (rewrite length_app; simpl; lia).
    rewrite lookup_app_r in Hpt by lia. rewrite Nat.sub_diag in Hpt. simpl in Hpt.
    destruct (Hlk (length js') a) as (ja & Hja & Hna & Hpa).
    { rewrite lookup_app_l by (rewrite length_app; simpl; lia).
      rewrite lookup_app_r by lia. by rewrite Nat.sub_diag. }
    assert (a ≠ jq) by congruence.
    assert (a ≠ t).
    { intros ->. apply NoDup_app in Hnd as (_ & Hd & _). apply (Hd t); [|by left].
      set_solver. }
    repeat run1. rewrite Hpt. repeat run1.
    eexists; split; [reflexivity|]. simpl. split_and!.
    + eexists p, jq, _. split_and!; [solve_lookup|done|solve_lookup| | | | | |].
      * simpl. rewrite Hhd. rewrite lookup_app_l; [done|]. rewrite length_app. simpl. lia.
      * simpl. by rewrite last_snoc.
      * simpl. rewrite Hn, wrap_int_id; unfold INT_MIN, INT_MAX in *; rewrite ?length_app; simpl; lia.
      * rewrite length_app. simpl. lia.
      * by apply NoDup_app in Hnd as (? & _).
      * intros i l Hl.
        assert (Hi : (i < length (js' ++ [a]))%nat) by (by eapply lookup_lt_Some).
        rewrite length_app in Hi; simpl in Hi.
        destruct (Hlk i l) as (j & Hj & Hnj & Hpj); [by rewrite lookup_app_l by (rewrite length_app; simpl; lia)|].
        assert (l ≠ jq) by congruence.
        destruct (decide (l = a)) as [->|Hne].
        -- assert (i = length js').
           { apply NoDup_app in Hnd as (Hnd & _). eapply NoDup_lookup; [done|done|].
             rewrite lookup_app_r by lia. by rewrite Nat.sub_diag. }
           subst i. eexists; split; [solve_lookup|]. simpl. split.
           ++ symmetry. apply lookup_ge_None. rewrite length_app. simpl. lia.
           ++ rewrite Hpa. destruct (length js') as [|n'] eqn:E; [done|].
              rewrite !lookup_app_l; [done| |]; rewrite ?length_app; simpl; lia.
        -- exists j; split; [solve_lookup|]. split.
           ++ assert (S i ≠ S (length js')).
              { intros [= ->]. apply Hne. rewrite lookup_app_r in Hl by lia.
                rewrite Nat.sub_diag in Hl. by injection Hl. }
              rewrite Hnj. rewrite lookup_app_l; [done|]. rewrite length_app. simpl. lia.
           ++ rewrite Hpj. destruct i as [|i']; [done|].
              rewrite lookup_app_l; [done|]. rewrite length_app. simpl. lia.
    + by rewrite !lookup_insert_ne by congruence.
    + intros l [j Hj]. assert (l ≠ jq) by congruence.
      destruct (decide (l = a)) as [->|]; eexists; solve_lookup.
    + reflexivity.
Qed.


(** ** Draining the queue *)

Lemma with_heap_id w : with_heap (λ _, heap w) w = w.
Proof. by destruct w. Qed.

Lemma empty_loop_spec tp p jq : ∀ js fuel w q,
  (length js < fuel)%nat →
  heap w !! tp = Some (BPool p) → jobqueue p = Some jq → heap w !! jq = Some (BQueue q) →
  jobsN q = Z.of_nat (length js) → Z.of_nat (length js) ≤ INT_MAX →
  NoDup js → prev_linked (heap w) js →
  ∃ w' q', empty_loop fuel (Some tp) (last js) w = Ret true w' ∧
     heap w' !! jq = Some (BQueue q') ∧ jobsN q' = 0 ∧ head q' = head q ∧
     (∀ l, l ∈ js → heap w' !! l = None) ∧
     (∀ l, l ∉ js → l ≠ jq → heap w' !! l = heap w !! l) ∧
     w' = with_heap (λ _, heap w') w.
Proof.
  induction js as [|t js IH] using rev_ind; intros fuel w q Hfuel Hp Hjq Hq Hn Hmax Hnd Hlk.
  - destruct fuel as [|fuel]; [simpl in Hfuel; lia|]. simpl. repeat run1. rewrite Hn. simpl.
    exists w, q. split_and!; try done.
    + intros l Hl. by apply elem_of_nil in Hl.
    + by rewrite with_heap_id.
  - destruct fuel as [|fuel]; [simpl in Hfuel; lia|].
    rewrite length_app in *. simpl length in *.
    assert (tp ≠ jq) by congruence.
    destruct (Hlk (length js) t) as (jt & Hjt & Hpt).
    { rewrite lookup_app_r by lia. by rewrite Nat.sub_diag. }
    assert (Hpt' : prev jt = last js).
    { rewrite Hpt, last_lookup. destruct (length js) as [|n'] eqn:E; simpl.
      - by destruct js.
      - rewrite lookup_app_l; [done|lia]. }
    assert (t ≠ jq) by congruence. assert (t ≠ tp) by congruence.
    apply NoDup_app in Hnd as (Hnd & Hdisj & _).
    assert (Htn : t ∉ js) by (intros Hin; apply (Hdisj t Hin); by left).
    simpl. rewrite last_snoc. repeat run1. rewrite Hn.
    destruct (Z.eqb_spec (Z.of_nat (length js + 1)) 0) as [E|_]; [lia|].
    repeat run1. simpl. rewrite Hpt'.
    match goal with |- ∃ _ _, empty_loop _ _ _ ?w1 = _ ∧ _ =>
      edestruct (IH fuel w1) as (w' & q' & Hrun & Hq' & Hn' & Hhd' & Hgone & Hsame & Hw')
    end.
    + lia.
    + solve_lookup.
    + done.
    + solve_lookup.
    + simpl. rewrite Hn, wrap_int_id; unfold INT_MIN, INT_MAX in *; lia.
    + lia.
    + done.
    + intros i l Hl. assert (Hi : (i < length js)%nat) by (by eapply lookup_lt_Some).
      destruct (Hlk i l) as (j & Hj & Hpj); [by rewrite lookup_app_l|].
      assert (l ≠ jq) by congruence.
      assert (l ≠ t) by (intros ->; apply Htn; by eapply list_elem_of_lookup_2).
      exists j; split; [solve_lookup|]. rewrite Hpj. destruct i; [done|].
      rewrite lookup_app_l; [done|lia].
    + exists w', q'. split_and!; try done.
      * intros l [Hl| ->%list_elem_of_singleton]%elem_of_app; [by apply Hgone|].
        rewrite Hsame by done. simpl. rewrite lookup_insert_ne by done.
        rewrite lookup_delete_eq. done.
      * intros l Hl Hne. apply not_elem_of_app in Hl as [Hl [Hlt _]%not_elem_of_cons].
        rewrite Hsame by done. simpl.
        rewrite lookup_insert_ne, lookup_delete_ne, lookup_insert_ne by naive_solver. done.
Qed.

Lemma linked_length_le (h : gmap positive block) (js : list positive) :
  NoDup js → (∀ l, l ∈ js → is_Some (h !! l)) → (length js ≤ size h)%nat.
Proof.
  intros Hnd Hin.
  rewrite <- (size_list_to_set (C:=gset positive) js) by done.
  rewrite <- size_dom. apply subseteq_size.
  intros l Hl. apply elem_of_list_to_set in Hl. apply elem_of_dom. by apply Hin.
Qed.

Lemma empty_spec w tp js :
  queue_rep w tp js →
  ∃ w' p jq, thpool_jobqueue_empty (Some tp) w = Ret tt w' ∧ queue_rep w' tp [] ∧
     heap w !! tp = Some (BPool p) ∧ jobqueue p = Some jq ∧
     heap w' !! jq = Some (BQueue (JobQueue NULL NULL 0)) ∧
     (∀ l, l ∈ js → heap w' !! l = None) ∧
     (∀ l, l ∉ js → l ≠ jq → heap w' !! l = heap w !! l) ∧
     w' = with_heap (λ _, heap w') w ∧
     (js = [] → w' = w).
Proof.
  intros (p & jq & q & Hp & Hjq & Hq & Hhd & Htl & Hn & Hmax & Hnd & Hlk).
  assert (tp ≠ jq) by congruence.
  destruct (empty_loop_spec tp p jq js (S (size (heap w))) w q)
    as (w1 & q1 & Hrun & Hq1 & Hn1 & Hhd1 & Hgone & Hsame & Hw1); try done.
  { apply Nat.lt_succ_r, linked_length_le; [done|].
    intros l [i Hi]%list_elem_of_lookup_1. destruct (Hlk i l Hi) as (j & -> & _). eauto. }
  { intros i l Hl. destruct (Hlk i l Hl) as (j & ? & ? & ?). eauto. }
  assert (Hp1 : heap w1 !! tp = Some (BPool p)).
  { rewrite Hsame; [done| |done]. intros [i Hi]%list_elem_of_lookup_1.
    destruct (Hlk i tp Hi) as (j & ? & _). congruence. }
  unfold thpool_jobqueue_empty. repeat run1. rewrite Htl.
  unfold gets. erewrite bind_ret by reflexivity. rewrite (bind_ret _ _ _ _ _ Hrun).
  repeat run1. erewrite queue_set_ret; [|solve_lookup|eassumption|solve_lookup].
  eexists _, p, jq. split; [reflexivity|]. simpl. split_and!.
  - eexists p, jq, _. split_and!; [solve_lookup|done|solve_lookup|done|done|done|done|constructor|].
    intros i l Hl. by destruct i.
  - done.
  - done.
  - rewrite lookup_insert_eq. unfold set_head, set_tail. simpl. by rewrite Hn1.
  - intros l Hl. assert (l ≠ jq).
    { intros ->. apply list_elem_of_lookup_1 in Hl as [i Hi].
      destruct (Hlk i jq Hi) as (j & ? & _). congruence. }
    rewrite !lookup_insert_ne by done. by apply Hgone.
  - intros l Hl Hne. rewrite !lookup_insert_ne by done. by apply Hsame.
  - rewrite Hw1. reflexivity.
  - intros ->. rewrite Hw1. etransitivity; [|apply with_heap_id].
    unfold with_heap; simpl; f_equal.
    rewrite insert_insert_eq.
    apply map_eq. intros l. destruct (decide (l = jq)) as [->|Hne].
    + rewrite lookup_insert_eq, Hq. destruct q, q1; simpl in *. by subst.
    + rewrite lookup_insert_ne by done. apply Hsame; [|done]. apply not_elem_of_nil.
Qed.

(** ** From the shape to the invariant of the data model *)

Lemma linked_chain h js :
  linked h js → ∀ (n k : nat), (length js - k = n)%nat → chain h (js !! k) n.
Proof.
  intros Hlk n. induction n as [|n IH]; intros k Hk.
  - rewrite lookup_ge_None_2 by lia. constructor.
  - destruct (lookup_lt_is_Some_2 js k) as [l Hl]; [lia|].
    destruct (Hlk k l Hl) as (j & Hj & Hnx & _). rewrite Hl.
    econstructor; [exact Hj|]. rewrite Hnx. apply IH. lia.
Qed.

Lemma the_queue_rep w tp p jq q :
  heap w !! tp = Some (BPool p) → jobqueue p = Some jq → heap w !! jq = Some (BQueue q) →
  the_queue w tp = Some q.
Proof. intros Hp Hjq Hq. unfold the_queue. by rewrite Hp, Hjq, Hq. Qed.

Lemma rep_invariant w tp js : queue_rep w tp js → queue_invariant w tp.
Proof.
  intros (p & jq & q & Hp & Hjq & Hq & Hhd & Htl & Hn & Hmax & Hnd & Hlk).
  exists q. split; [by eapply the_queue_rep|]. split_and!.
  - lia.
  - rewrite Hn, Nat2Z.id, Hhd. apply linked_chain; [done|lia].
  - rewrite Hhd, Htl, Hn. destruct js; simpl; [done|]. split; [intros [? _]; done|lia].
  - rewrite Hhd, Htl, Hn. split.
    + intros (l & H0 & Hl). rewrite last_lookup in Hl.
      pose proof (NoDup_lookup _ _ _ _ Hnd H0 Hl) as E.
      destruct js; [done|]. simpl in *. lia.
    + intros E. destruct js as [|l [|? ?]]; simpl in E; try lia. by exists l.
Qed.

(** ** Sequences of enqueues and dequeues *)

Lemma removelast_snoc_list {A} (l : list A) x : removelast (l ++ [x]) = l.
Proof. apply removelast_last. Qed.

Lemma run_ops_fifo tp : ∀ ops w js,
  queue_rep w tp js → enq_fresh js ops →
  (∀ l, l ∈ enqueued ops → is_job (heap w) l) →
  Z.of_nat (length js + length (enqueued ops)) ≤ INT_MAX →
  ∃ served w' js', run_ops (Some tp) ops w = Ret served w' ∧ queue_rep w' tp js' ∧
     Some <$> (rev js ++ enqueued ops) = served ++ (Some <$> rev js').
Proof.
  induction ops as [|[nj|] ops IH]; intros w js Hrep Hfresh Hjobs Hmax; simpl in *.
  - exists [], w, js. split_and!; [done|done|]. by rewrite app_nil_r.
  - destruct Hfresh as [Hnj Hfresh].
    destruct (add_preserves w tp js nj) as (w1 & Hadd & Hrep1 & Hjob1 & _);
      [done|apply Hjobs; by left|done|lia|].
    destruct (IH w1 (nj :: js)) as (served & w' & js' & Hrun & Hrep' & Hfifo);
      [done|done| |simpl; lia|].
    { intros l Hl. apply Hjob1, Hjobs. by right. }
    exists served, w', js'. split_and!; [|done|].
    + by rewrite (bind_ret _ _ _ _ _ Hadd).
    + rewrite <- Hfifo. simpl. by rewrite <- app_assoc.
  - rewrite (bind_ret _ _ _ _ _ (peek_spec _ _ _ Hrep)).
    destruct (snoc_cases js) as [->|(js0 & t & ->)].
    + rewrite (bind_ret _ _ _ _ _ (removelast_empty _ _ Hrep)).
      destruct (IH w []) as (served & w' & js' & Hrun & Hrep' & Hfifo); [done|done|done|done|].
      exists served, w', js'. split_and!; [|done|done].
      by rewrite (bind_ret _ _ _ _ _ Hrun).
    + destruct (removelast_snoc w tp js0 t Hrep) as (w1 & Hrm & Hrep1 & _ & Hjob1 & _).
      rewrite (bind_ret _ _ _ _ _ Hrm). rewrite removelast_snoc_list in Hfresh.
      destruct (IH w1 js0) as (served & w' & js' & Hrun & Hrep' & Hfifo); [done|done| | |].
      { intros l Hl. by apply Hjob1, Hjobs. }
      { rewrite length_app in Hmax. lia. }
      exists (Some t :: served), w', js'. split_and!; [|done|].
      * rewrite (bind_ret _ _ _ _ _ Hrun). rewrite last_snoc. done.
      * rewrite rev_app_distr. simpl. f_equal. exact Hfifo.
Qed.

(** ** What a returning computation did *)

Lemma bind_inv {A B} (m : M A) (k : A → M B) w r w' :
  (m ≫= k) w = Ret r w' → ∃ a w1, m w = Ret a w1 ∧ k a w1 = Ret r w'.
Proof. unfold mbind, M_bind. destruct (m w); try done. eauto. Qed.

Lemma fmap_inv {A B} (f : A → B) (m : M A) w r w' :
  (f <$> m) w = Ret r w' → ∃ a, m w = Ret a w' ∧ r = f a.
Proof.
  unfold fmap, M_fmap. intros (a & w1 & Hm & Hr)%bind_inv.
  injection Hr as <- <-. eauto.
Qed.

Lemma load_inv p w b w' :
  load p w = Ret b w' → w' = w ∧ ∃ l, p = Some l ∧ heap w !! l = Some b.
Proof.
  unfold load. destruct p as [l|]; [|done]. destruct (heap w !! l) eqn:E; [|done].
  intros [= <- <-]. eauto.
Qed.

Lemma load_job_inv p w j w' :
  load_job p w = Ret j w' → w' = w ∧ ∃ l, p = Some l ∧ heap w !! l = Some (BJob j).
Proof.
  unfold load_job. intros (b & w1 & [-> (l & -> & Hl)]%load_inv & Hr)%bind_inv.
  destruct b; try done. injection Hr as <- <-. eauto.
Qed.

Lemma load_queue_inv p w q w' :
  load_queue p w = Ret q w' → w' = w ∧ ∃ l, p = Some l ∧ heap w !! l = Some (BQueue q).
Proof.
  unfold load_queue. intros (b & w1 & [-> (l & -> & Hl)]%load_inv & Hr)%bind_inv.
  destruct b; try done. injection Hr as <- <-. eauto.
Qed.

Lemma load_pool_inv p w q w' :
  load_pool p w = Ret q w' → w' = w ∧ ∃ l, p = Some l ∧ heap w !! l = Some (BPool q).
Proof.
  unfold load_pool. intros (b & w1 & [-> (l & -> & Hl)]%load_inv & Hr)%bind_inv.
  destruct b; try done. injection Hr as <- <-. eauto.
Qed.

Lemma store_inv p b w w' :
  store p b w = Ret tt w' →
  ∃ l, p = Some l ∧ is_Some (heap w !! l) ∧ w' = with_heap (insert l b) w.
Proof.
  unfold store. destruct p as [l|]; [|done]. destruct (heap w !! l) eqn:E; [|done].
  intros [= <-]. eauto.
Qed.

Lemma free_inv l w w' :
  free (Some l) w = Ret tt w' → is_Some (heap w !! l) ∧ w' = with_heap (delete l) w.
Proof. unfold free. destruct (heap w !! l) eqn:E; [|done]. intros [= <-]. eauto. Qed.

Lemma queue_get_inv tp_p w q w' :
  queue_get tp_p w = Ret q w' →
  w' = w ∧ ∃ tp p jq, tp_p = Some tp ∧ heap w !! tp = Some (BPool p) ∧
                      jobqueue p = Some jq ∧ heap w !! jq = Some (BQueue q).
Proof.
  unfold queue_get, queue_of.
  intros (jq & w1 & (p & w2 & [-> (tp & -> & Hp)]%load_pool_inv & Hr)%bind_inv & Hq)%bind_inv.
  injection Hr as <- <-. apply load_queue_inv in Hq as [-> (l & Hjq & Hq)].
  split; [done|]. by exists tp, p, l.
Qed.

Lemma queue_set_inv tp_p f w w' :
  queue_set tp_p f w = Ret tt w' →
  ∃ tp p jq q, tp_p = Some tp ∧ heap w !! tp = Some (BPool p) ∧ jobqueue p = Some jq ∧
               heap w !! jq = Some (BQueue q) ∧ w' = with_heap (insert jq (BQueue (f q))) w.
Proof.
  unfold queue_set, queue_of, modify_queue.
  intros (jq & w1 & (p & w2 & [-> (tp & -> & Hp)]%load_pool_inv & Hr)%bind_inv & Hq)%bind_inv.
  injection Hr as <- <-.
  apply bind_inv in Hq as (q & w1 & [-> (l & Hjq & Hq)]%load_queue_inv & Hst).
  apply store_inv in Hst as (l' & Hl' & _ & ->). rewrite Hjq in Hl'. injection Hl' as <-.
  by exists tp, p, l, q.
Qed.

(** The loop of [thpool_jobqueue_empty] never runs out of fuel. *)
Lemma empty_loop_fuel : ∀ fuel tp_p curjob w w',
  (size (heap w) < fuel)%nat → empty_loop fuel tp_p curjob w ≠ Ret false w'.
Proof.
  induction fuel as [|fuel IH]; intros tp_p curjob w w' Hsize; [lia|].
  simpl. intros (n & w1 & (q & [-> _]%queue_get_inv & ->)%fmap_inv & Hrun)%bind_inv.
  destruct (jobsN q =? 0); [done|].
  apply bind_inv in Hrun as (before & w1 & (j & [-> (l & -> & Hl)]%load_job_inv & ->)%fmap_inv & Hrun).
  apply bind_inv in Hrun as ([] & w1 & (tp & p & jq & q1 & -> & Hp & Hjq & Hq & ->)%queue_set_inv & Hrun).
  apply bind_inv in Hrun as ([] & w2 & [Hin ->]%free_inv & Hrun).
  apply bind_inv in Hrun as (cur' & w3 & (q2 & [-> _]%queue_get_inv & ->)%fmap_inv & Hrun).
  apply bind_inv in Hrun as ([] & w3 & (tp' & p' & jq' & q3 & _ & _ & _ & Hq3 & ->)%queue_set_inv & Hrun).
  revert Hrun. apply IH. simpl in *.
  rewrite map_size_insert_Some by eauto.
  rewrite map_size_delete_Some by done.
  rewrite map_size_insert_Some by eauto.
  assert (size (heap w) ≠ 0)%nat; [|lia].
  intros E%map_size_empty_inv. rewrite E in Hl. by rewrite lookup_empty in Hl.
Qed.

(** On every state: [-1] is returned exactly when [jobsN] is 0, and the only
    other value returned is 0. *)
Lemma removelast_result tp_p w r w' :
  thpool_jobqueue_removelast tp_p w = Ret r w' →
  ∃ q, queue_get tp_p w = Ret q w ∧
       ((jobsN q = 0 ∧ r = -1 ∧ w' = w) ∨ (jobsN q ≠ 0 ∧ r = 0)).
Proof.
  unfold thpool_jobqueue_removelast.
  intros (q & w1 & Hget & Hrun)%bind_inv. pose proof Hget as [-> _]%queue_get_inv.
  exists q. split; [done|].
  apply bind_inv in Hrun as (n & w1 & (q' & Hget' & ->)%fmap_inv & Hrun).
  rewrite Hget in Hget'. injection Hget' as <- <-.
  destruct (Z.eqb_spec (jobsN q) 0) as [E|E].
  - left. injection Hrun as <- <-. done.
  - right. split; [done|].
    apply bind_inv in Hrun as (? & w1 & _ & Hrun).
    apply bind_inv in Hrun as (? & w2 & _ & Hrun). by injection Hrun as <- _.
Qed.

(** ** [thpool_init] *)

Lemma fresh_none (h : gmap positive block) : h !! fresh (dom h) = None.
Proof. apply not_elem_of_dom, is_fresh. Qed.

Lemma malloc_ok b w :
  malloc_env w !! 0%nat ≠ Some false →
  ∃ l, heap w !! l = None ∧
       malloc b w = Ret (Some l) (with_malloc_env (List.tl (malloc_env w)) (with_heap (insert l b) w)).
Proof.
  intros He. exists (fresh (dom (heap w))). split; [apply fresh_none|].
  unfold malloc. destruct (malloc_env w) as [|[] e]; try done.
Qed.

Lemma malloc_fail b w :
  malloc_env w !! 0%nat = Some false →
  malloc b w = Ret NULL (with_malloc_env (List.tl (malloc_env w)) w).
Proof. intros He. unfold malloc. destruct (malloc_env w) as [|[] e]; try done. Qed.

Lemma load_threads_ret w l ts :
  heap w !! l = Some (BThreads ts) → load_threads (Some l) w = Ret ts w.
Proof. intros H. unfold load_threads, load, mbind, M_bind. by rewrite H. Qed.

Lemma failures_nil n : failures n [] = O.
Proof. by destruct n. Qed.

Lemma failures_le : ∀ n e, (failures n e ≤ n)%nat.
Proof. induction n as [|n IH]; intros [|[] e]; simpl; try lia; specialize (IH e); lia. Qed.

Lemma pthread_create_ok w tp p ths ts t a :
  heap w !! tp = Some (BPool p) → threads p = Some ths →
  heap w !! ths = Some (BThreads ts) → 0 ≤ t < Z.of_nat (length ts) →
  create_env w !! 0%nat ≠ Some false →
  pthread_create (Some tp) t a w =
    Ret 0 (with_spawned (λ l, l ++ [(Z.of_nat (length (spawned w)) + 1, a)])
            (with_heap (insert ths (BThreads (<[Z.to_nat t := Z.of_nat (length (spawned w)) + 1]> ts)))
              (with_create_env (List.tl (create_env w)) w))).
Proof.
  intros Hp Hths Hts Ht He.
  unfold pthread_create, fmap, M_fmap, gets, modify, load_pool, load_threads, load, store,
    mbind, M_bind, mret, M_ret. rewrite Hp. simpl. rewrite Hths.
  destruct (create_env w) as [|[] e] eqn:E; try done; simpl; rewrite Hts;
    rewrite bool_decide_true by done; simpl; rewrite Hts; done.
Qed.

Lemma pthread_create_fail w tp p t a :
  heap w !! tp = Some (BPool p) →
  create_env w !! 0%nat = Some false →
  pthread_create (Some tp) t a w = Ret EAGAIN (with_create_env (List.tl (create_env w)) w).
Proof.
  intros Hp He.
  unfold pthread_create, fmap, M_fmap, gets, modify, load_pool, load_threads, load, store,
    mbind, M_bind, mret, M_ret. rewrite Hp. simpl.
  destruct (create_env w) as [|[] e] eqn:E; try done.
Qed.

Lemma for_loop_S t turns body :
  for_loop t (S turns) body = (body t;; for_loop (t + 1) turns body).
Proof. reflexivity. Qed.

Lemma spawn_body_ok w tp p ths ts t :
  heap w !! tp = Some (BPool p) → threads p = Some ths →
  heap w !! ths = Some (BThreads ts) → 0 ≤ t < Z.of_nat (length ts) →
  create_env w !! 0%nat ≠ Some false →
  spawn_body (Some tp) t w =
    Ret tt (with_spawned (λ l, l ++ [(Z.of_nat (length (spawned w)) + 1, Some tp)])
            (with_heap (insert ths (BThreads (<[Z.to_nat t := Z.of_nat (length (spawned w)) + 1]> ts)))
              (with_create_env (List.tl (create_env w)) w))).
Proof.
  intros Hp Hths Hts Ht He. unfold spawn_body.
  by rewrite (bind_ret _ _ _ _ _ (pthread_create_ok _ _ _ _ _ _ _ Hp Hths Hts Ht He)).
Qed.

Lemma spawn_body_fail w tp p t :
  heap w !! tp = Some (BPool p) →
  create_env w !! 0%nat = Some false →
  spawn_body (Some tp) t w =
    Ret tt (with_stderr (λ l, l ++ ["created thread pool failed %s\n"])
             (with_create_env (List.tl (create_env w)) w)).
Proof.
  intros Hp He. unfold spawn_body.
  by rewrite (bind_ret _ _ _ _ _ (pthread_create_fail _ _ _ _ _ Hp He)).
Qed.

Lemma spawn_loop_spec tp p ths : ∀ (turns : nat) t w ts,
  heap w !! tp = Some (BPool p) → threads p = Some ths →
  heap w !! ths = Some (BThreads ts) →
  0 ≤ t → t + Z.of_nat turns ≤ Z.of_nat (length ts) →
  ∃ w' ts', for_loop t turns (spawn_body (Some tp)) w = Ret tt w' ∧
    heap w' = <[ths := BThreads ts']> (heap w) ∧ length ts' = length ts ∧
    (length (spawned w') + failures turns (create_env w) = length (spawned w) + turns)%nat ∧
    thpool_keepalive w' = thpool_keepalive w ∧ executed w' = executed w.
Proof.
  induction turns as [|turns IH]; intros t w ts Hp Hths Hts Ht Hlen.
  - exists w, ts. simpl. split_and!; first [ done | by rewrite insert_id | lia ].
  - assert (tp ≠ ths) by congruence.
    rewrite for_loop_S.
    destruct (decide (create_env w !! 0%nat = Some false)) as [He|He].
    + rewrite (bind_ret _ _ _ _ _ (spawn_body_fail _ _ _ _ Hp He)).
      edestruct (IH (t + 1)) as (w' & ts' & Hrun & Hheap & Hlen' & Hsp & Hka & Hex);
        [| | | | |rewrite Hrun].
      * simpl. exact Hp.
      * done.
      * simpl. exact Hts.
      * lia.
      * lia.
      * exists w', ts'. split_and!; try done.
        simpl in Hsp. destruct (create_env w) as [|[] e]; try done. simpl in *. lia.
    + assert (Hin : 0 ≤ t < Z.of_nat (length ts)) by lia.
      rewrite (bind_ret _ _ _ _ _ (spawn_body_ok _ _ _ _ _ _ Hp Hths Hts Hin He)).
      edestruct (IH (t + 1)) as (w' & ts' & Hrun & Hheap & Hlen' & Hsp & Hka & Hex);
        [| | | | |rewrite Hrun].
      * simpl. rewrite lookup_insert_ne by done. exact Hp.
      * done.
      * simpl. apply lookup_insert_eq.
      * lia.
      * rewrite length_insert. lia.
      * exists w', ts'. split_and!; try done.
        -- rewrite Hheap. simpl. by rewrite insert_insert_eq.
        -- rewrite Hlen'. by rewrite length_insert.
        -- simpl in Hsp. rewrite length_app in Hsp. simpl in Hsp.
           destruct (create_env w) as [|[] e]; simpl in *;
             [rewrite failures_nil in Hsp; lia|lia|done].
Qed.

Lemma world_eq_heap h1 h2 k se sp ex xd me ce we :
  h1 = h2 →
  World h1 k se sp ex xd me ce we = World h2 k se sp ex xd me ce we.
Proof. by intros ->. Qed.

Lemma jobqueue_init_ok w tp p :
  heap w !! tp = Some (BPool p) → malloc_env w !! 0%nat ≠ Some false →
  ∃ jq, heap w !! jq = None ∧
    thpool_jobqueue_init (Some tp) w =
      Ret 0 (with_malloc_env (List.tl (malloc_env w))
              (with_heap (λ h, <[jq := BQueue (JobQueue NULL NULL 0)]>
                                 (<[tp := BPool (set_jobqueue (Some jq) p)]> h)) w)).
Proof.
  intros Hp He.
  destruct (malloc_ok (BQueue queue_indeterminate) w He) as (jq & Hjq & Hm).
  exists jq. split; [done|]. assert (tp ≠ jq) by congruence.
  unfold thpool_jobqueue_init. rewrite (bind_ret _ _ _ _ _ Hm).
  assert (Hjq' : jobqueue (set_jobqueue (Some jq) p) = Some jq) by done.
  run1. run1. rewrite Hjq'.
  repeat run1. unfold mret, M_ret. f_equal.
  unfold with_malloc_env, with_heap. simpl. apply world_eq_heap.
  rewrite !insert_insert_eq. rewrite (insert_insert_ne _ tp jq) by done.
  by rewrite insert_insert_eq.
Qed.

Lemma jobqueue_init_fail w tp p :
  heap w !! tp = Some (BPool p) → malloc_env w !! 0%nat = Some false →
  thpool_jobqueue_init (Some tp) w =
    Ret (-1) (with_malloc_env (List.tl (malloc_env w))
               (with_heap (insert tp (BPool (set_jobqueue NULL p))) w)).
Proof.
  intros Hp He. unfold thpool_jobqueue_init.
  rewrite (bind_ret _ _ _ _ _ (malloc_fail _ _ He)).
  run1. run1. done.
Qed.

Lemma clamp_max n : (if (n =? 0) || (n <? 1) then 1 else n) = Z.max n 1.
Proof. destruct (Z.eqb_spec n 0), (Z.ltb_spec n 1); simpl; lia. Qed.

Lemma failures_zero : ∀ n e (k : nat),
  failures n e = O → (k < n)%nat → e !! k ≠ Some false.
Proof.
  induction n as [|n IH]; intros e k Hf Hk; [lia|].
  destruct e as [|[] e]; simpl in Hf; try done.
  destruct k as [|k]; [done|]. simpl. apply IH; [done|lia].
Qed.

Lemma fprintf_ret s w : fprintf_stderr s w = Ret tt (with_stderr (λ l, l ++ [s]) w).
Proof. reflexivity. Qed.

Lemma thpool_init_success n w :
  failures 3 (malloc_env w) = O →
  ∃ tp ths jq ts w',
    thpool_init n w = Ret (Some tp) w' ∧
    heap w !! tp = None ∧ heap w !! ths = None ∧ heap w !! jq = None ∧
    tp ≠ ths ∧ tp ≠ jq ∧ ths ≠ jq ∧
    heap w' !! tp = Some (BPool (pool_ready ths jq (Z.max n 1))) ∧
    heap w' !! jq = Some (BQueue (JobQueue NULL NULL 0)) ∧
    heap w' !! ths = Some (BThreads ts) ∧
    Z.of_nat (length ts) = Z.max n 1 ∧
    (∀ l, l ≠ tp → l ≠ ths → l ≠ jq → heap w' !! l = heap w !! l) ∧
    (length (spawned w') + failures (Z.to_nat (Z.max n 1)) (create_env w)
       = length (spawned w) + Z.to_nat (Z.max n 1))%nat ∧
    thpool_keepalive w' = thpool_keepalive w ∧ executed w' = executed w.
Proof.
  intros Hf.
  pose proof (failures_zero 3 _ 0 Hf ltac:(lia)) as H0.
  pose proof (failures_zero 3 _ 1 Hf ltac:(lia)) as H1.
  pose proof (failures_zero 3 _ 2 Hf ltac:(lia)) as H2.
  unfold thpool_init. cbv zeta. rewrite clamp_max. set (N := Z.max n 1).
  destruct (malloc_ok (BPool pool_indeterminate) w H0) as (tp & Htp & Hm1).
  rewrite (bind_ret _ _ _ _ _ Hm1). rewrite bool_decide_false by done.
  match type of Hm1 with _ = Ret _ ?w1 =>
    destruct (malloc_ok (BThreads (replicate (Z.to_nat N) 0)) w1) as (ths & Hths & Hm2)
  end.
  { simpl. by rewrite lookup_tail. }
  simpl in Hths. apply lookup_insert_None in Hths as [Hths Hne1].
  rewrite (bind_ret _ _ _ _ _ Hm2).
  repeat run1. simpl threads. rewrite bool_decide_false by done.
  run1.
  match goal with |- ∃ _ _ _ _ _, (thpool_jobqueue_init _ ≫= _) ?w3 = _ ∧ _ =>
    edestruct (jobqueue_init_ok w3 tp) as (jq & Hjq & Hqi)
  end.
  { solve_lookup. }
  { simpl. by rewrite !lookup_tail. }
  simpl in Hjq. rewrite !lookup_insert_None in Hjq. destruct Hjq as ((((Hjq & ?) & ?) & ?) & ?).
  rewrite (bind_ret _ _ _ _ _ Hqi).
  change (0 =? -1) with false. cbv iota.
  assert (ths ≠ jq) by congruence. assert (tp ≠ jq) by congruence.
  repeat run1.
  match goal with |- context [for_loop 0 _ ?body] => change body with (spawn_body (Some tp)) end.
  match goal with |- ∃ _ _ _ _ _, (for_loop _ _ _ ≫= _) ?w4 = _ ∧ _ =>
    odestruct (spawn_loop_spec tp _ ths (Z.to_nat N) 0 w4)
      as (w' & ts & Hrun & Hheap & Hlen & Hsp & Hka & Hex)
  end.
  { solve_lookup. }
  { reflexivity. }
  { solve_lookup. }
  { lia. }
  { rewrite length_replicate. lia. }
  rewrite (bind_ret _ _ _ _ _ Hrun).
  exists tp, ths, jq, ts, w'. split; [reflexivity|]. simpl in Hheap, Hsp, Hka, Hex.
  split_and!; try done.
  - rewrite Hheap. solve_lookup.
  - rewrite Hheap. solve_lookup.
  - rewrite Hheap. solve_lookup.
  - rewrite Hlen, length_replicate. lia.
  - intros l ? ? ?. rewrite Hheap. by rewrite !lookup_insert_ne by done.
Qed.

Lemma failures_nonzero : ∀ n e,
  (∀ k : nat, (k < n)%nat → e !! k ≠ Some false) → failures n e = O.
Proof.
  induction n as [|n IH]; intros e He; [done|].
  destruct e as [|[] e]; simpl; [done| |].
  - apply IH. intros k Hk. apply (He (S k)). lia.
  - by destruct (He O ltac:(lia)).
Qed.

Lemma thpool_init_failure n w :
  failures 3 (malloc_env w) ≠ O →
  ∃ w' msg, thpool_init n w = Ret NULL w' ∧
    heap w' = heap w ∧ spawned w' = spawned w ∧ stderr w' = stderr w ++ [msg] ∧
    thpool_keepalive w' = thpool_keepalive w ∧ executed w' = executed w.
Proof.
  intros Hf. unfold thpool_init. cbv zeta. rewrite clamp_max. set (N := Z.max n 1).
  destruct (decide (malloc_env w !! 0%nat = Some false)) as [H0|H0].
  { rewrite (bind_ret _ _ _ _ _ (malloc_fail _ _ H0)). rewrite bool_decide_true by done.
    rewrite (bind_ret _ _ _ _ _ (fprintf_ret _ _)).
    eexists _, _. split; [reflexivity|]. done. }
  destruct (malloc_ok (BPool pool_indeterminate) w H0) as (tp & Htp & Hm1).
  rewrite (bind_ret _ _ _ _ _ Hm1). rewrite bool_decide_false by done.
  destruct (decide (malloc_env w !! 1%nat = Some false)) as [H1|H1].
  { erewrite bind_ret; [|apply malloc_fail; simpl; by rewrite lookup_tail].
    repeat run1. simpl threads. rewrite bool_decide_true by done.
    rewrite (bind_ret _ _ _ _ _ (fprintf_ret _ _)). run1.
    eexists _, _. split; [reflexivity|]. simpl. split_and!; try done.
    rewrite !delete_insert_eq. by apply delete_id. }
  match type of Hm1 with _ = Ret _ ?w1 =>
    destruct (malloc_ok (BThreads (replicate (Z.to_nat N) 0)) w1) as (ths & Hths & Hm2)
  end.
  { simpl. by rewrite lookup_tail. }
  simpl in Hths. apply lookup_insert_None in Hths as [Hths Hne1].
  rewrite (bind_ret _ _ _ _ _ Hm2).
  repeat run1. simpl threads. rewrite bool_decide_false by done.
  run1.
  destruct (decide (malloc_env w !! 2%nat = Some false)) as [H2|H2].
  - erewrite bind_ret; [|eapply jobqueue_init_fail; [solve_lookup|simpl; by rewrite !lookup_tail]].
    change (-1 =? -1) with true. cbv iota.
    rewrite (bind_ret _ _ _ _ _ (fprintf_ret _ _)).
    repeat run1. simpl threads. repeat run1.
    eexists _, _. split; [reflexivity|]. simpl. split_and!; try done.
    apply map_eq. intros l.
    destruct (decide (l = tp)) as [->|]; [by rewrite lookup_delete_eq|].
    rewrite lookup_delete_ne by done.
    destruct (decide (l = ths)) as [->|]; [by rewrite lookup_delete_eq|].
    rewrite lookup_delete_ne by done. by rewrite !lookup_insert_ne by done.
  - destruct Hf. apply failures_nonzero. intros [|[|[|k]]] Hk; try done. lia.
Qed.

(** ** [thpool_add_work] *)

Lemma bind_exit {A B} (m : M A) (k : A → M B) w s w' :
  m w = Exit s w' → (m ≫= k) w = Exit s w'.
Proof. intros H. unfold mbind, M_bind. by rewrite H. Qed.

Lemma add_work_result tp_p f a w r w' :
  thpool_add_work tp_p f a w = Ret r w' → r = 0.
Proof.
  unfold thpool_add_work. intros H.
  repeat (apply bind_inv in H as (? & ? & _ & H)).
  by injection H as <- _.
Qed.

Lemma add_work_malloc_fail tp_p f a w :
  malloc_env w !! 0%nat = Some false →
  thpool_add_work tp_p f a w =
    Exit 1 (with_stderr (λ l, l ++ ["thpool_add_work(): Could not allocate memory for new job\n"])
             (with_malloc_env (List.tl (malloc_env w)) w)).
Proof.
  intros He. unfold thpool_add_work.
  rewrite (bind_ret _ _ _ _ _ (malloc_fail _ _ He)).
  rewrite bool_decide_true by done. apply bind_exit.
  by rewrite (bind_ret _ _ _ _ _ (fprintf_ret _ _)).
Qed.

(** ** [thpool_keepalive] is only ever cleared *)

Lemma keeps_ret {A} (a : A) : keeps_flag (mret a).
Proof. intros w a' w' [= _ <-]. done. Qed.

Lemma keeps_bind {A B} (m : M A) (k : A → M B) :
  keeps_flag m → (∀ a, keeps_flag (k a)) → keeps_flag (m ≫= k).
Proof.
  intros Hm Hk w b w' (a & w1 & H1 & H2)%bind_inv.
  rewrite (Hk _ _ _ _ H2). by apply (Hm _ _ _ H1).
Qed.

Lemma keeps_fmap {A B} (f : A → B) (m : M A) : keeps_flag m → keeps_flag (f <$> m).
Proof. intros Hm. apply keeps_bind; [done|]. intros a. apply keeps_ret. Qed.

Lemma keeps_fault {A} : keeps_flag (@fault A).
Proof. intros w a w' H. done. Qed.

Lemma keeps_exit {A} s : keeps_flag (@exit A s).
Proof. intros w a w' H. done. Qed.

Lemma keeps_block {A} : keeps_flag (λ _ : world, @Block A).
Proof. intros w a w' H. done. Qed.

Lemma keeps_gets {A} (f : world → A) : keeps_flag (gets f).
Proof. intros w a w' [= _ <-]. done. Qed.

Lemma keeps_modify f :
  (∀ w, thpool_keepalive (f w) = thpool_keepalive w) → keeps_flag (modify f).
Proof. intros Hf w a w' [= _ <-]. apply Hf. Qed.

Lemma keeps_load p : keeps_flag (load p).
Proof. intros w a w' [-> _]%load_inv. done. Qed.

Lemma keeps_store p b : keeps_flag (store p b).
Proof. intros w [] w' (l & _ & _ & ->)%store_inv. done. Qed.

Lemma keeps_malloc b : keeps_flag (malloc b).
Proof. intros w a w'. unfold malloc. destruct (malloc_env w) as [|[] e]; intros [= _ <-]; done. Qed.

Lemma keeps_free p : keeps_flag (free p).
Proof.
  intros w [] w'. destruct p as [l|]; [intros [_ ->]%free_inv|intros [= <-]]; done.
Qed.

Lemma keeps_if {A} (b : bool) (m1 m2 : M A) :
  keeps_flag m1 → keeps_flag m2 → keeps_flag (if b then m1 else m2).
Proof. by destruct b. Qed.

Lemma keeps_for_loop body : (∀ t, keeps_flag (body t)) → ∀ turns t, keeps_flag (for_loop t turns body).
Proof.
  intros Hb. induction turns as [|turns IH]; intros t; simpl.
  - apply keeps_ret.
  - apply keeps_bind; [apply Hb|]. intros _. apply IH.
Qed.

Create HintDb keeps.
#[local] Hint Resolve keeps_ret keeps_fault keeps_exit keeps_block keeps_gets keeps_load
  keeps_store keeps_malloc keeps_free keeps_fmap keeps_if : keeps.
#[local] Hint Extern 2 (keeps_flag (_ ≫= _)) => apply keeps_bind; [|intros ?] : keeps.
#[local] Hint Extern 2 (keeps_flag (modify _)) => apply keeps_modify; intros ?; reflexivity : keeps.
#[local] Hint Extern 3 (keeps_flag (match ?x with _ => _ end)) => destruct x : keeps.
#[local] Hint Extern 2 (keeps_flag (for_loop _ _ _)) => apply keeps_for_loop; intros ? : keeps.

Ltac keeps := auto 50 with keeps.

Lemma keeps_load_job p : keeps_flag (load_job p).
Proof. unfold load_job. keeps. Qed.
Lemma keeps_load_queue p : keeps_flag (load_queue p).
Proof. unfold load_queue. keeps. Qed.
Lemma keeps_load_pool p : keeps_flag (load_pool p).
Proof. unfold load_pool. keeps. Qed.
Lemma keeps_load_threads p : keeps_flag (load_threads p).
Proof. unfold load_threads. keeps. Qed.
#[local] Hint Resolve keeps_load_job keeps_load_queue keeps_load_pool keeps_load_threads : keeps.

Lemma keeps_modify_job p f : keeps_flag (modify_job p f).
Proof. unfold modify_job. keeps. Qed.
Lemma keeps_modify_queue p f : keeps_flag (modify_queue p f).
Proof. unfold modify_queue. keeps. Qed.
Lemma keeps_modify_pool p f : keeps_flag (modify_pool p f).
Proof. unfold modify_pool. keeps. Qed.
#[local] Hint Resolve keeps_modify_job keeps_modify_queue keeps_modify_pool : keeps.

Lemma keeps_queue_of p : keeps_flag (queue_of p).
Proof. unfold queue_of. keeps. Qed.
#[local] Hint Resolve keeps_queue_of : keeps.
Lemma keeps_queue_get p : keeps_flag (queue_get p).
Proof. unfold queue_get. keeps. Qed.
Lemma keeps_queue_set p f : keeps_flag (queue_set p f).
Proof. unfold queue_set. keeps. Qed.
#[local] Hint Resolve keeps_queue_get keeps_queue_set : keeps.

Lemma keeps_sem_init p s v : keeps_flag (sem_init p s v).
Proof. unfold sem_init. keeps. Qed.
Lemma keeps_sem_wait p s : keeps_flag (sem_wait p s).
Proof. unfold sem_wait. keeps. Qed.
Lemma keeps_sem_post p s : keeps_flag (sem_post p s).
Proof. unfold sem_post. keeps. Qed.
Lemma keeps_sem_destroy p s : keeps_flag (sem_destroy p s).
Proof. unfold sem_destroy. keeps. Qed.
#[local] Hint Resolve keeps_sem_init keeps_sem_wait keeps_sem_post keeps_sem_destroy : keeps.

Lemma keeps_fprintf s : keeps_flag (fprintf_stderr s).
Proof. unfold fprintf_stderr. keeps. Qed.
#[local] Hint Resolve keeps_fprintf : keeps.

Lemma keeps_jobqueue_init p : keeps_flag (thpool_jobqueue_init p).
Proof. unfold thpool_jobqueue_init. keeps. Qed.
Lemma keeps_jobqueue_add p nj : keeps_flag (thpool_jobqueue_add p nj).
Proof. unfold thpool_jobqueue_add. keeps. Qed.
Lemma keeps_jobqueue_removelast p : keeps_flag (thpool_jobqueue_removelast p).
Proof. unfold thpool_jobqueue_removelast. keeps. Qed.
Lemma keeps_jobqueue_peek p : keeps_flag (thpool_jobqueue_peek p).
Proof. unfold thpool_jobqueue_peek. keeps. Qed.
Lemma keeps_empty_loop p : ∀ fuel cur, keeps_flag (empty_loop fuel p cur).
Proof. induction fuel as [|fuel IH]; intros cur; simpl; keeps. Qed.
#[local] Hint Resolve keeps_jobqueue_init keeps_jobqueue_add keeps_jobqueue_removelast
  keeps_jobqueue_peek keeps_empty_loop : keeps.
Lemma keeps_jobqueue_empty p : keeps_flag (thpool_jobqueue_empty p).
Proof. unfold thpool_jobqueue_empty. keeps. Qed.
#[local] Hint Resolve keeps_jobqueue_empty : keeps.

Lemma keeps_pthread_create p t a : keeps_flag (pthread_create p t a).
Proof. unfold pthread_create. keeps. Qed.
Lemma keeps_pthread_join t : keeps_flag (pthread_join t).
Proof. intros w a w'. unfold pthread_join. case_bool_decide; [intros [= _ <-]|]; done. Qed.
Lemma keeps_call f a : keeps_flag (call f a).
Proof. unfold call. keeps. Qed.
#[local] Hint Resolve keeps_pthread_create keeps_pthread_join keeps_call : keeps.

Lemma keeps_thpool_init n : keeps_flag (thpool_init n).
Proof. unfold thpool_init. keeps. Qed.
Lemma keeps_thpool_add_work p f a : keeps_flag (thpool_add_work p f a).
Proof. unfold thpool_add_work. keeps. Qed.
Lemma keeps_thpool_thread_do p s : keeps_flag (thpool_thread_do p s).
Proof. unfold thpool_thread_do. keeps. Qed.

Lemma thpool_destroy_clears p w w' :
  thpool_destroy p w = Ret tt w' → thpool_keepalive w' = 0.
Proof.
  unfold thpool_destroy. intros (u & w1 & Hm & Hrest)%bind_inv.
  injection Hm as _ <-.
  match type of Hrest with ?m _ = _ => assert (Hk : keeps_flag m) by keeps end.
  by rewrite (Hk _ _ _ Hrest).
Qed.

Lemma keeps_rely {A} (m : M A) w a w' :
  keeps_flag m → m w = Ret a w' → keepalive_rely w w'.
Proof. intros Hk Hm E. by rewrite (Hk _ _ _ Hm). Qed.

(** ** The worker after a forced wake-up *)

Lemma thread_do_L90_dead tp_p s w :
  pc s = L90 → thpool_keepalive w = 0 →
  thpool_thread_do tp_p s w = Ret (goto L84 s) w.
Proof.
  intros Hpc Hk. unfold thpool_thread_do. rewrite Hpc.
  unfold gets, mbind, M_bind, mret, M_ret. by rewrite Hk.
Qed.

Lemma thread_do_L84_dead tp_p s w :
  pc s = L84 → thpool_keepalive w = 0 →
  thpool_thread_do tp_p s w = Ret (goto L110 s) w.
Proof.
  intros Hpc Hk. unfold thpool_thread_do. rewrite Hpc.
  unfold gets, mbind, M_bind, mret, M_ret. by rewrite Hk.
Qed.

Lemma interleaved_dead tp_p c tr c' :
  interleaved tp_p c tr c' →
  thpool_keepalive c.1 = 0 → pc c.2 ∈ [L90; L84; L110; Returned] →
  tr `prefix_of` after_wakeup (pc c.2).
Proof.
  induction 1 as [c|w w1 s tr c Hrely _ IH|w w1 s s1 tr c Hstep _ IH]; simpl; intros Hk Hpc.
  - apply prefix_nil.
  - apply IH; [by apply Hrely|done].
  - assert (Hk1 : thpool_keepalive w1 = 0).
    { by rewrite (keeps_thpool_thread_do _ _ _ _ _ Hstep). }
    set_unfold in Hpc. destruct Hpc as [Hpc|[Hpc|[Hpc|[Hpc|[]]]]].
    + rewrite thread_do_L90_dead in Hstep by done. injection Hstep as <- <-.
      rewrite Hpc. apply prefix_cons. apply (IH Hk). simpl. set_solver.
    + rewrite thread_do_L84_dead in Hstep by done. injection Hstep as <- <-.
      rewrite Hpc. apply prefix_cons. apply (IH Hk). simpl. set_solver.
    + unfold thpool_thread_do in Hstep. rewrite Hpc in Hstep. injection Hstep as <- <-.
      rewrite Hpc. apply prefix_cons. apply (IH Hk1). simpl. set_solver.
    + unfold thpool_thread_do in Hstep. by rewrite Hpc in Hstep.
Qed.

(** ** The worker's critical section *)

Lemma thread_steps_S n tp_p s :
  thread_steps (S n) tp_p s = (s' ← thpool_thread_do tp_p s; thread_steps n tp_p s').
Proof. reflexivity. Qed.

Lemma critical_section_safe w tp js t s :
  queue_rep w tp (js ++ [t]) → pc s = L98 →
  ∃ j w', heap w !! t = Some (BJob j) ∧ queue_rep w' tp js ∧
    thread_steps 4 (Some tp) s w = Ret (Frame (self s) L103 (Some t) (function j) (arg j)) w'.
Proof.
  intros Hrep Hpc.
  destruct (removelast_snoc w tp js t Hrep) as (w' & Hrm & Hrep' & _).
  pose proof (peek_spec _ _ _ Hrep) as Hpeek. rewrite last_snoc in Hpeek.
  destruct Hrep as (p & jq & q & Hp & Hjq & Hq & Hhd & Htl & Hn & Hmax & Hnd & Hlk).
  destruct (Hlk (length js) t) as (j & Hj & _).
  { rewrite lookup_app_r by lia. by rewrite Nat.sub_diag. }
  exists j, w'. split; [done|]. split; [done|].
  rewrite thread_steps_S. unfold thpool_thread_do at 1. rewrite Hpc.
  rewrite bind_assoc, (bind_ret _ _ _ _ _ Hpeek).
  unfold mret at 1, M_ret at 1. erewrite bind_ret by reflexivity.
  rewrite thread_steps_S. unfold thpool_thread_do at 1. simpl pc. cbv iota.
  rewrite bind_assoc. simpl job_p. rewrite (bind_ret _ _ _ _ _ (load_job_ret _ _ _ Hj)).
  unfold mret at 1, M_ret at 1. erewrite bind_ret by reflexivity.
  rewrite thread_steps_S. unfold thpool_thread_do at 1. simpl pc. cbv iota.
  rewrite bind_assoc. simpl job_p. rewrite (bind_ret _ _ _ _ _ (load_job_ret _ _ _ Hj)).
  unfold mret at 1, M_ret at 1. erewrite bind_ret by reflexivity.
  rewrite thread_steps_S. unfold thpool_thread_do at 1. simpl pc. cbv iota.
  rewrite bind_assoc. rewrite (bind_ret _ _ _ _ _ Hrm).
  reflexivity.
Qed.

Lemma critical_section_fault w tp s :
  queue_rep w tp [] → pc s = L98 → thread_steps 2 (Some tp) s w = Fault.
Proof.
  intros Hrep Hpc. pose proof (peek_spec _ _ _ Hrep) as Hpeek. simpl in Hpeek.
  rewrite thread_steps_S. unfold thpool_thread_do at 1. rewrite Hpc.
  rewrite bind_assoc, (bind_ret _ _ _ _ _ Hpeek).
  unfold mret at 1, M_ret at 1. erewrite bind_ret by reflexivity.
  reflexivity.
Qed.

(** ** The executable check is sound *)

Lemma linkedb_sound h : ∀ js before,
  linkedb h before js = true →
  ∀ (i : nat) l, js !! i = Some l →
    ∃ j, h !! l = Some (BJob j) ∧ next j = js !! S i ∧
         prev j = match i with O => before | S i' => js !! i' end.
Proof.
  induction js as [|l0 rest IH]; intros before Hb i l Hl; [done|].
  simpl in Hb. destruct (h !! l0) as [[j0| | |]|] eqn:E0; try done.
  apply andb_prop in Hb as [[Hp%bool_decide_eq_true Hn%bool_decide_eq_true]%andb_prop Hrest].
  destruct i as [|i]; simpl in Hl.
  - injection Hl as <-. by exists j0.
  - destruct (IH _ Hrest i l Hl) as (j & Hj & Hnj & Hpj).
    exists j. split_and!; [done|done|]. rewrite Hpj. by destruct i.
Qed.

Lemma queue_repb_sound w tp js : queue_repb w tp js = true → queue_rep w tp js.
Proof.
  unfold queue_repb. intros H.
  destruct (heap w !! tp) as [[| |p|]|] eqn:Hp; try done.
  destruct (jobqueue p) as [jq|] eqn:Hjq; [|done].
  destruct (heap w !! jq) as [[|q| |]|] eqn:Hq; try done.
  repeat (apply andb_prop in H as [H ?]).
  exists p, jq, q. split_and!; try done; try by eapply bool_decide_eq_true.
  intros i l Hl. by eapply linkedb_sound.
Qed.


(** ** [thpool_jobqueue_init] needs a pool *)

Lemma malloc_inv b w a w1 :
  malloc b w = Ret a w1 →
  (a = NULL ∧ heap w1 = heap w) ∨
  (∃ l, a = Some l ∧ heap w !! l = None ∧ heap w1 = <[l := b]> (heap w)).
Proof.
  unfold malloc. destruct (malloc_env w) as [|[] e]; intros [= <- <-]; simpl.
  - right. eexists. split_and!; [done|apply fresh_none|done].
  - right. eexists. split_and!; [done|apply fresh_none|done].
  - by left.
Qed.

Lemma jobqueue_init_pool tp w r w' :
  thpool_jobqueue_init (Some tp) w = Ret r w' → ∃ p, heap w !! tp = Some (BPool p).
Proof.
  intros (jq0 & w1 & Hm & Hrest)%bind_inv.
  apply bind_inv in Hrest
    as ([] & w2 & (p & w3 & [-> (l & [= <-] & Hp)]%load_pool_inv & _)%bind_inv & _).
  apply malloc_inv in Hm as [[_ E]|(l & _ & Hl & E)]; rewrite E in Hp; [by exists p|].
  destruct (decide (l = tp)) as [->|Hne].
  - by rewrite lookup_insert_eq in Hp.
  - rewrite lookup_insert_ne in Hp by done. by exists p.
Qed.
(** ** A worker with nothing stored *)

Lemma idle_worker_step tp p s w s' w' :
  heap w !! tp = Some (BPool p) → nStored p = 0 →
  pc s = L84 ∨ pc s = L85 →
  thpool_thread_do (Some tp) s w = Ret s' w' →
  w' = w ∧ (pc s' = L85 ∨ pc s' = L110).
Proof.
  intros Hp Hn [Hpc|Hpc] Hrun; unfold thpool_thread_do in Hrun; rewrite Hpc in Hrun.
  - apply bind_inv in Hrun as (k & w1 & [= <- <-] & Hrun).
    injection Hrun as <- <-. split; [done|]. destruct (_ =? 0); simpl; auto.
  - apply bind_inv in Hrun as (r & w1 & Hwait & Hrun).
    unfold sem_wait in Hwait.
    apply bind_inv in Hwait as (e & w2 & [= <- <-] & Hwait).
    destruct (semwait_env w) as [|[] e'].
    + apply bind_inv in Hwait as ([] & w2 & [= <-] & Hwait).
      rewrite (bind_ret _ _ _ p _) in Hwait by (by apply load_pool_ret).
      simpl in Hwait. by rewrite Hn in Hwait.
    + apply bind_inv in Hwait as ([] & w2 & [= <-] & Hwait).
      rewrite (bind_ret _ _ _ p _) in Hwait by (by apply load_pool_ret).
      simpl in Hwait. by rewrite Hn in Hwait.
    + apply bind_inv in Hwait as ([] & w2 & _ & Hwait). injection Hwait as <- <-.
      simpl in Hrun. apply bind_inv in Hrun as ([] & w3 & _ & Hrun). done.
Qed.

(** * More lemmas *)

(** ** Links and payloads *)

Lemma modify_job_inv p f w w' :
  modify_job p f w = Ret tt w' →
  ∃ l j, p = Some l ∧ heap w !! l = Some (BJob j) ∧
         w' = with_heap (insert l (BJob (f j))) w.
Proof.
  unfold modify_job. intros (j & w1 & [-> (l & -> & Hl)]%load_job_inv & Hst)%bind_inv.
  apply store_inv in Hst as (l' & [= <-] & _ & ->). by exists l, j.
Qed.

Lemma relinks_ret {A} (a : A) : relinks (mret a).
Proof.
  intros w a' w' [= _ <-]. split_and!; [by rewrite with_heap_id|done|done|done|done].
Qed.

Lemma relinks_bind {A B} (m : M A) (k : A → M B) :
  relinks m → (∀ a, relinks (k a)) → relinks (m ≫= k).
Proof.
  intros Hm Hk w b w' (a & w1 & H1 & H2)%bind_inv.
  destruct (Hm _ _ _ H1) as (E1 & D1 & Hpay1 & Hpool1 & Hths1).
  destruct (Hk _ _ _ _ H2) as (E2 & D2 & Hpay2 & Hpool2 & Hths2).
  split_and!; [by rewrite E2, E1|by rewrite D2|eauto|eauto|eauto].
Qed.

Lemma relinks_fmap {A B} (f : A → B) (m : M A) : relinks m → relinks (f <$> m).
Proof. intros Hm. apply relinks_bind; [done|]. intros a. apply relinks_ret. Qed.

Lemma relinks_fault {A} : relinks (@fault A).
Proof. intros w a w' H. done. Qed.

Lemma relinks_reader {A} (m : M A) :
  (∀ w a w', m w = Ret a w' → w' = w) → relinks m.
Proof.
  intros Hm w a w' ->%Hm. split_and!; [by rewrite with_heap_id|done|done|done|done].
Qed.

Lemma relinks_load_job p : relinks (load_job p).
Proof. apply relinks_reader. by intros w a w' [-> _]%load_job_inv. Qed.

Lemma relinks_queue_get p : relinks (queue_get p).
Proof. apply relinks_reader. by intros w a w' [-> _]%queue_get_inv. Qed.

Lemma relinks_queue_set p f : relinks (queue_set p f).
Proof.
  intros w [] w' (tp & pl & jq & q & -> & Hp & Hjq & Hq & ->)%queue_set_inv. simpl.
  split_and!; [done|by apply dom_insert_lookup_L| | |].
  - intros l fa. unfold payload_of. destruct (decide (l = jq)) as [->|Hne].
    + by rewrite Hq.
    + by rewrite lookup_insert_ne.
  - intros l p' Hl. rewrite lookup_insert_ne; [done|congruence].
  - intros l ts Hl. rewrite lookup_insert_ne; [done|congruence].
Qed.

Lemma relinks_modify_job p f :
  (∀ j, function (f j) = function j ∧ arg (f j) = arg j) → relinks (modify_job p f).
Proof.
  intros Hf w [] w' (l0 & j0 & -> & Hl0 & ->)%modify_job_inv. simpl.
  split_and!; [done|by apply dom_insert_lookup_L| | |].
  - intros l fa. unfold payload_of. destruct (decide (l = l0)) as [->|Hne].
    + rewrite Hl0, lookup_insert_eq. destruct (Hf j0) as [-> ->]. done.
    + by rewrite lookup_insert_ne.
  - intros l p' Hl. rewrite lookup_insert_ne; [done|congruence].
  - intros l ts Hl. rewrite lookup_insert_ne; [done|congruence].
Qed.

Lemma relinks_if {A} (b : bool) (m1 m2 : M A) :
  relinks m1 → relinks m2 → relinks (if b then m1 else m2).
Proof. by destruct b. Qed.

Create HintDb relinks.
#[local] Hint Resolve relinks_ret relinks_fault relinks_load_job relinks_queue_get
  relinks_queue_set relinks_fmap relinks_if : relinks.
#[local] Hint Extern 2 (relinks (_ ≫= _)) => apply relinks_bind; [|intros ?] : relinks.
#[local] Hint Extern 2 (relinks (modify_job _ _)) =>
  apply relinks_modify_job; intros ?; split; reflexivity : relinks.

Lemma relinks_jobqueue_add p nj : relinks (thpool_jobqueue_add p nj).
Proof. unfold thpool_jobqueue_add. auto 30 with relinks. Qed.

Lemma relinks_jobqueue_removelast p : relinks (thpool_jobqueue_removelast p).
Proof. unfold thpool_jobqueue_removelast. auto 30 with relinks. Qed.

Lemma payloads_cons h l js fa fas :
  payloads h (l :: js) (fa :: fas) ↔ payload_of h l = Some fa ∧ payloads h js fas.
Proof.
  unfold payloads. rewrite !fmap_cons. split.
  - intros [= -> ->]. done.
  - intros [-> ->]. done.
Qed.

Lemma payloads_length h js fas : payloads h js fas → length js = length fas.
Proof.
  unfold payloads. intros H. apply (f_equal length) in H. by rewrite !length_fmap in H.
Qed.

Lemma payloads_snoc h js t fas fa :
  payloads h (js ++ [t]) (fas ++ [fa]) ↔ payloads h js fas ∧ payload_of h t = Some fa.
Proof.
  unfold payloads. rewrite !fmap_app. simpl. split.
  - intros H. apply app_inj_2 in H as [-> [= ->]]; done.
  - intros [-> ->]. done.
Qed.

Lemma payloads_snoc_inv h js t fas :
  payloads h (js ++ [t]) fas →
  ∃ fas' fa, fas = fas' ++ [fa] ∧ payloads h js fas' ∧ payload_of h t = Some fa.
Proof.
  intros H. pose proof (payloads_length _ _ _ H) as Hlen.
  rewrite length_app in Hlen. simpl in Hlen.
  destruct (snoc_cases fas) as [->|(fas' & fa & ->)]; [simpl in Hlen; lia|].
  exists fas', fa. split; [done|]. by apply payloads_snoc.
Qed.

Lemma payloads_ext h h' js fas :
  payloads h js fas →
  (∀ l fa, l ∈ js → payload_of h l = Some fa → payload_of h' l = Some fa) →
  payloads h' js fas.
Proof.
  revert fas. induction js as [|l js IH]; intros [|fa fas] H Hext; try done.
  apply payloads_cons in H as [Hl Hrest]. apply payloads_cons. split.
  - apply Hext; [by left|done].
  - apply IH; [done|]. intros l' fa' Hin. apply Hext. by right.
Qed.

(** ** The shape of the queue depends on the queue and its jobs only *)

Lemma queue_rep_agree w w' tp js p p' :
  queue_rep w tp js →
  heap w !! tp = Some (BPool p) → heap w' !! tp = Some (BPool p') →
  jobqueue p' = jobqueue p →
  (∀ l, l ≠ tp → is_Some (heap w !! l) → l ∈ js ∨ ¬ is_job (heap w) l →
        heap w' !! l = heap w !! l) →
  queue_rep w' tp js.
Proof.
  intros (p0 & jq & q & Hp0 & Hjq & Hq & Hhd & Htl & Hn & Hmax & Hnd & Hlk) Hp Hp' Hjq' Hag.
  rewrite Hp in Hp0. injection Hp0 as <-.
  assert (jq ≠ tp) by congruence.
  exists p', jq, q. split_and!; try done; [congruence| |].
  - rewrite Hag; [done|done|eauto|]. right. intros [j Hj]. congruence.
  - intros i l Hl. destruct (Hlk i l Hl) as (j & Hj & Hrest). exists j. split; [|done].
    rewrite Hag; [done|congruence|eauto|]. left. by eapply list_elem_of_lookup_2.
Qed.

Lemma tl_no_false (e : list bool) : false ∉ e → false ∉ List.tl e.
Proof. destruct e as [|b e]; [done|]. simpl. intros H Hin. apply H. by right. Qed.

Lemma no_false_head (e : list bool) : false ∉ e → e !! 0%nat ≠ Some false.
Proof. destruct e as [|b e]; [done|]. simpl. intros H [= ->]. apply H. by left. Qed.

(** ** Semaphores *)

Lemma sem_wait_ret w tp p s :
  heap w !! tp = Some (BPool p) → semwait_env w !! 0%nat ≠ Some false →
  0 < sem_get s p →
  sem_wait (Some tp) s w =
    Ret 0 (with_heap (insert tp (BPool (sem_set s (sem_get s p - 1) p)))
            (with_semwait_env (List.tl (semwait_env w)) w)).
Proof.
  intros Hp He Hpos. unfold sem_wait, gets, modify, load_pool, load, store, mbind, M_bind, mret, M_ret.
  destruct (semwait_env w) as [|[] e] eqn:E; try done; simpl; rewrite Hp;
    destruct (Z.ltb_spec 0 (sem_get s p)); try lia; simpl; by rewrite Hp.
Qed.

Lemma sem_wait_block w tp p s :
  heap w !! tp = Some (BPool p) → semwait_env w !! 0%nat ≠ Some false →
  sem_get s p ≤ 0 →
  sem_wait (Some tp) s w = Block.
Proof.
  intros Hp He Hpos. unfold sem_wait, gets, modify, load_pool, load, store, mbind, M_bind, mret, M_ret.
  destruct (semwait_env w) as [|[] e] eqn:E; try done; simpl; rewrite Hp;
    destruct (Z.ltb_spec 0 (sem_get s p)); try lia; done.
Qed.

Lemma sem_wait_fail w tp_p s :
  semwait_env w !! 0%nat = Some false →
  sem_wait tp_p s w = Ret (-1) (with_semwait_env (List.tl (semwait_env w)) w).
Proof.
  intros He. unfold sem_wait, gets, modify, mbind, M_bind, mret, M_ret.
  destruct (semwait_env w) as [|[] e] eqn:E; done.
Qed.

Lemma sem_post_ret w tp p s :
  heap w !! tp = Some (BPool p) → sem_get s p < SEM_VALUE_MAX →
  sem_post (Some tp) s w =
    Ret 0 (with_heap (insert tp (BPool (sem_set s (sem_get s p + 1) p))) w).
Proof.
  intros Hp Hlt. unfold sem_post, load_pool, load, store, mbind, M_bind, mret, M_ret.
  rewrite Hp. destruct (Z.ltb_spec (sem_get s p) SEM_VALUE_MAX); [|lia]. by rewrite Hp.
Qed.

Lemma bind_ext {A B} (m : M A) (k1 k2 : A → M B) w :
  (∀ a w1, k1 a w1 = k2 a w1) → (m ≫= k1) w = (m ≫= k2) w.
Proof. intros H. unfold mbind, M_bind. destruct (m w); auto. Qed.

Lemma thread_steps_add n m tp_p s w :
  thread_steps (n + m) tp_p s w = (s' ← thread_steps n tp_p s; thread_steps m tp_p s') w.
Proof.
  revert s w. induction n as [|n IH]; intros s w.
  - done.
  - change (S n + m)%nat with (S (n + m)). rewrite !thread_steps_S, bind_assoc.
    apply bind_ext. intros s1 w1. apply IH.
Qed.

Lemma bind_mret {A B} (a : A) (k : A → M B) w : (mret a ≫= k) w = k a w.
Proof. reflexivity. Qed.

Lemma bind_gets {A B} (f : world → A) (k : A → M B) w : (gets f ≫= k) w = k (f w) w.
Proof. reflexivity. Qed.

(** ** [thpool_add_work] on a pool with a free slot *)

Lemma queue_rep_jobs w tp js l : queue_rep w tp js → l ∈ js → is_job (heap w) l.
Proof.
  intros (p & jq & q & _ & _ & _ & _ & _ & _ & _ & _ & Hlk) [i Hi]%list_elem_of_lookup_1.
  destruct (Hlk i l Hi) as (j & Hj & _). by exists j.
Qed.

Lemma add_work_waits w tp p :
  heap w !! tp = Some (BPool p) →
  (semwait_env w !! 0%nat = Some false ∨ 0 < nEmpty p) →
  (semwait_env w !! 1%nat = Some false ∨ 0 < mutex p) →
  (sem_wait (Some tp) NEmpty;; sem_wait (Some tp) Mutex) w =
    Ret (if decide (semwait_env w !! 1%nat = Some false) then -1 else 0)
        (with_heap (insert tp (BPool (after_waits (semwait_env w) p)))
           (with_semwait_env (List.tl (List.tl (semwait_env w))) w)).
Proof.
  intros Hp H0 H1. unfold after_waits.
  assert (Hid : ∀ (w0 : world) h, h = heap w0 → with_heap (λ _, h) w0 = w0).
  { intros w0 h ->. apply with_heap_id. }
  destruct (decide (semwait_env w !! 0%nat = Some false)) as [E0|E0].
  - rewrite (bind_ret _ _ _ _ _ (sem_wait_fail _ _ _ E0)).
    destruct (decide (semwait_env w !! 1%nat = Some false)) as [E1|E1].
    + rewrite sem_wait_fail by (simpl; by rewrite lookup_tail). simpl. f_equal.
      unfold with_heap, with_semwait_env. simpl. apply world_eq_heap.
      by rewrite insert_id.
    + destruct H1 as [?|H1]; [done|].
      erewrite sem_wait_ret; [|exact Hp|simpl; by rewrite lookup_tail|done]. done.
  - destruct H0 as [?|H0]; [done|].
    erewrite bind_ret; [|by eapply sem_wait_ret].
    destruct (decide (semwait_env w !! 1%nat = Some false)) as [E1|E1].
    + rewrite sem_wait_fail by (simpl; by rewrite lookup_tail). simpl. done.
    + destruct H1 as [?|H1]; [done|].
      erewrite sem_wait_ret; [|simpl; apply lookup_insert_eq|simpl; by rewrite lookup_tail|done].
      f_equal. unfold with_heap, with_semwait_env. simpl. apply world_eq_heap.
      by rewrite insert_insert_eq.
Qed.

(** Lines 134 to 138, from a state where the queue is well formed. *)
Lemma add_work_tail w tp js l p :
  queue_rep w tp js → heap w !! tp = Some (BPool p) →
  is_job (heap w) l → l ∉ js → Z.of_nat (length js) < INT_MAX →
  mutex p < SEM_VALUE_MAX → nStored p < SEM_VALUE_MAX →
  ∃ w', (thpool_jobqueue_add (Some tp) (Some l);;
         sem_post (Some tp) Mutex;; sem_post (Some tp) NStored;; mret 0) w = Ret 0 w' ∧
    queue_rep w' tp (l :: js) ∧
    heap w' !! tp = Some (BPool (sem_set NStored (nStored p + 1)
                                   (sem_set Mutex (mutex p + 1) p))) ∧
    (∀ l' fa, l' ≠ tp → payload_of (heap w) l' = Some fa → payload_of (heap w') l' = Some fa) ∧
    dom (heap w') = dom (heap w) ∧
    w' = with_heap (λ _, heap w') w ∧
    (∀ l' ts, heap w !! l' = Some (BThreads ts) → heap w' !! l' = Some (BThreads ts)).
Proof.
  intros Hrep Hp Hl Hlin Hlen Hmx Hns.
  destruct (add_preserves w tp js l Hrep Hl Hlin Hlen) as (w6 & Hadd & Hrep6 & _ & _).
  destruct (relinks_jobqueue_add _ _ _ _ _ Hadd) as (Hw6 & Hd6 & Hpay6 & Hpool6 & Hths6).
  rewrite (bind_ret _ _ _ _ _ Hadd).
  assert (Hp6 := Hpool6 _ _ Hp).
  erewrite bind_ret; [|eapply sem_post_ret; [exact Hp6|done]].
  erewrite bind_ret; [|eapply sem_post_ret; [solve_lookup|done]].
  eexists. split; [reflexivity|]. simpl. split_and!.
  - eapply (queue_rep_agree w6); [done|done|simpl; solve_lookup|done|].
    intros l' Hl' _ _. simpl. by rewrite !lookup_insert_ne by done.
  - rewrite insert_insert_eq. apply lookup_insert_eq.
  - intros l' fa Hne Hfa. unfold payload_of at 1. simpl.
    rewrite !lookup_insert_ne by done. by apply Hpay6.
  - rewrite !dom_insert_lookup_L by (rewrite ?lookup_insert_eq; eauto). done.
  - by rewrite Hw6.
  - intros l' ts Hl'. assert (l' ≠ tp) by congruence.
    rewrite !lookup_insert_ne by done. by apply Hths6.
Qed.

(** All of [thpool_add_work] when [malloc] succeeds and neither wait blocks:
    the waits may be interrupted or not, and the lock may be free ([m] is 1)
    or held by another thread ([m] is 0). *)
Lemma add_work_run_gen w tp js fas c m p f a :
  queue_rep w tp js → payloads (heap w) js fas →
  heap w !! tp = Some (BPool p) →
  mutex p = m → 0 ≤ m ≤ 1 → nEmpty p = c → nStored p = Z.of_nat (length js) →
  0 ≤ c → c + Z.of_nat (length js) ≤ INT_MAX →
  malloc_env w !! 0%nat ≠ Some false →
  (semwait_env w !! 0%nat = Some false ∨ 0 < c) →
  (semwait_env w !! 1%nat = Some false ∨ 0 < m) →
  Z.of_nat (length js) < INT_MAX →
  ∃ l w' p', heap w !! l = None ∧
    thpool_add_work (Some tp) f a w = Ret 0 w' ∧
    queue_rep w' tp (l :: js) ∧ payloads (heap w') (l :: js) ((f, a) :: fas) ∧
    heap w' !! tp = Some (BPool p') ∧
    nEmpty p' = (if decide (semwait_env w !! 0%nat = Some false) then c else c - 1) ∧
    mutex p' = (if decide (semwait_env w !! 1%nat = Some false) then m + 1 else m) ∧
    nStored p' = Z.of_nat (length js) + 1 ∧
    dom (heap w') = {[l]} ∪ dom (heap w) ∧
    executed w' = executed w ∧ stderr w' = stderr w ∧
    thpool_keepalive w' = thpool_keepalive w ∧
    malloc_env w' = List.tl (malloc_env w) ∧
    semwait_env w' = List.tl (List.tl (semwait_env w)) ∧
    (∀ ths jq ts, pool_parts w tp ths jq ts → pool_parts w' tp ths jq ts) ∧
    spawned w' = spawned w ∧ exited w' = exited w.
Proof.
  intros Hrep Hpay Hp Hmx Hm01 Hne Hns Hc0 Hbound Hm Hs0 Hs1 Hlen.
  destruct (malloc_ok (BJob job_indeterminate) w Hm) as (l & Hl & Hmalloc).
  exists l. assert (l ≠ tp) by congruence.
  assert (Hlin : l ∉ js).
  { intros Hin. destruct (queue_rep_jobs _ _ _ _ Hrep Hin) as [j Hj]. congruence. }
  unfold thpool_add_work. rewrite (bind_ret _ _ _ _ _ Hmalloc).
  rewrite bool_decide_false by done. cbv iota. rewrite bind_mret.
  run1. run1.
  match goal with |- context [(sem_wait _ NEmpty ≫= _) ?wx] => set (w3 := wx) end.
  assert (Hp3 : heap w3 !! tp = Some (BPool p)) by (subst w3; solve_lookup).
  assert (Hag3 : ∀ l', l' ≠ l → heap w3 !! l' = heap w !! l').
  { intros l' Hl'. subst w3. simpl. by rewrite !lookup_insert_ne. }
  assert (Hl3 : heap w3 !! l = Some (BJob (Job f a NULL NULL))).
  { subst w3. simpl. apply lookup_insert_eq. }
  assert (Hd3 : dom (heap w3) = {[l]} ∪ dom (heap w)).
  { subst w3. simpl. rewrite !dom_insert_lookup_L by (rewrite ?lookup_insert_eq; eauto).
    by rewrite dom_insert_L. }
  assert (He3 : semwait_env w3 = semwait_env w) by done.
  pose proof (add_work_waits w3 tp p Hp3) as Hw. rewrite He3 in Hw.
  rewrite <- (bind_assoc (sem_wait (Some tp) NEmpty) (λ _, sem_wait (Some tp) Mutex)).
  rewrite (bind_ret _ _ _ _ _ (Hw ltac:(rewrite Hne; tauto) ltac:(rewrite Hmx; tauto))).
  clear Hw.
  match goal with |- context [(thpool_jobqueue_add _ _ ≫= _) ?wx] => set (w5 := wx) end.
  set (p5 := after_waits (semwait_env w) p) in *.
  assert (Hp5 : heap w5 !! tp = Some (BPool p5)) by (subst w5; simpl; apply lookup_insert_eq).
  assert (Hag5 : ∀ l', l' ≠ tp → heap w5 !! l' = heap w3 !! l').
  { intros l' Hl'. subst w5. simpl. by rewrite lookup_insert_ne. }
  assert (Hd5 : dom (heap w5) = dom (heap w3)).
  { subst w5. simpl. apply dom_insert_lookup_L. eauto. }
  assert (Hw5 : w5 = with_heap (λ _, heap w5)
                       (with_semwait_env (List.tl (List.tl (semwait_env w))) w3)) by done.
  assert (Hf5 : threads p5 = threads p ∧ threadsN p5 = threadsN p ∧ jobqueue p5 = jobqueue p ∧
                nStored p5 = nStored p ∧
                nEmpty p5 = (if decide (semwait_env w !! 0%nat = Some false) then c else c - 1) ∧
                mutex p5 = (if decide (semwait_env w !! 1%nat = Some false) then m else m - 1)).
  { subst p5. unfold after_waits.
    destruct (decide (semwait_env w !! 0%nat = Some false)),
             (decide (semwait_env w !! 1%nat = Some false)); simpl; split_and!; try done; lia. }
  destruct Hf5 as (Hths5 & Hn5 & Hjq5 & Hns5 & Hne5 & Hmx5).
  assert (Hrep5 : queue_rep w5 tp js).
  { eapply (queue_rep_agree w w5); [done|done|done|done|].
    intros l' Hl' Hsome _. rewrite Hag5 by done.
    apply Hag3. intros ->. destruct Hsome. congruence. }
  assert (Hw3 : w3 = with_malloc_env (List.tl (malloc_env w)) (with_heap (λ _, heap w3) w))
    by done.
  clearbody w5 w3.
  destruct (add_work_tail w5 tp js l p5 Hrep5 Hp5)
    as (w' & Hrun & Hrep' & Hp' & Hpay' & Hd' & Hw' & Hths'); try done.
  { eexists. rewrite Hag5 by done. exact Hl3. }
  { rewrite Hmx5. unfold SEM_VALUE_MAX. case_decide; lia. }
  { rewrite Hns5, Hns. unfold SEM_VALUE_MAX, INT_MAX in *. lia. }
  exists w'. eexists. split; [done|]. split; [exact Hrun|].
  split_and!; try done.
  - apply payloads_cons. split.
    + apply Hpay'; [done|]. unfold payload_of. by rewrite Hag5, Hl3.
    + eapply payloads_ext; [exact Hpay|]. intros l' fa Hin Hfa.
      assert (l' ≠ l) by (by intros ->).
      assert (l' ≠ tp).
      { intros ->. unfold payload_of in Hfa. by rewrite Hp in Hfa. }
      apply Hpay'; [done|]. unfold payload_of. by rewrite Hag5, Hag3.
  - simpl. rewrite Hmx5. case_decide; lia.
  - simpl. rewrite Hns5, Hns. done.
  - by rewrite Hd', Hd5.
  - by rewrite Hw', Hw5, Hw3.
  - by rewrite Hw', Hw5, Hw3.
  - by rewrite Hw', Hw5, Hw3.
  - by rewrite Hw', Hw5, Hw3.
  - by rewrite Hw', Hw5, Hw3.
  - intros ths jq ts (p0 & Hp0 & Hths0 & Hjq0 & Hts0 & Hn0).
    assert (p0 = p) as -> by congruence.
    assert (ths ≠ tp) by congruence. assert (ths ≠ l) by congruence.
    eexists. split; [exact Hp'|]. simpl. split_and!; try congruence.
    apply Hths'. by rewrite Hag5, Hag3.
  - by rewrite Hw', Hw5, Hw3.
  - by rewrite Hw', Hw5, Hw3.
Qed.

Lemma add_work_run w tp js fas c f a :
  pool_rep w tp js fas c →
  malloc_env w !! 0%nat ≠ Some false →
  (semwait_env w !! 0%nat = Some false ∨ 0 < c) →
  Z.of_nat (length js) < INT_MAX →
  ∃ l w' p', heap w !! l = None ∧
    thpool_add_work (Some tp) f a w = Ret 0 w' ∧
    queue_rep w' tp (l :: js) ∧ payloads (heap w') (l :: js) ((f, a) :: fas) ∧
    heap w' !! tp = Some (BPool p') ∧
    nEmpty p' = (if decide (semwait_env w !! 0%nat = Some false) then c else c - 1) ∧
    mutex p' = (if decide (semwait_env w !! 1%nat = Some false) then 2 else 1) ∧
    nStored p' = Z.of_nat (length js) + 1 ∧
    dom (heap w') = {[l]} ∪ dom (heap w) ∧
    executed w' = executed w ∧ stderr w' = stderr w ∧
    thpool_keepalive w' = thpool_keepalive w ∧
    malloc_env w' = List.tl (malloc_env w) ∧
    semwait_env w' = List.tl (List.tl (semwait_env w)) ∧
    (∀ ths jq ts, pool_parts w tp ths jq ts → pool_parts w' tp ths jq ts).
Proof.
  intros (Hrep & Hpay & p & Hp & Hmx & Hne & Hns & Hc0 & Hbound) Hm Hs0 Hlen.
  assert (H01 : 0 ≤ 1 ≤ 1) by lia.
  assert (Hfree : semwait_env w !! 1%nat = Some false ∨ 0 < 1) by (right; lia).
  destruct (add_work_run_gen w tp js fas c 1 p f a Hrep Hpay Hp Hmx H01 Hne Hns Hc0 Hbound
              Hm Hs0 Hfree Hlen) as (l & w' & p' & H).
  exists l, w', p'.
  destruct H as (? & ? & ? & ? & ? & ? & ? & ? & ? & ? & ? & ? & ? & ? & ? & _).
  split_and!; done.
Qed.

Lemma pool_lockedb_sound w tp js fas c :
  pool_lockedb w tp js fas c = true → pool_locked w tp js fas c.
Proof.
  unfold pool_lockedb. intros [[Hq Hpay%bool_decide_eq_true_1]%andb_prop Hp]%andb_prop.
  split_and!; [by apply queue_repb_sound|done|].
  destruct (heap w !! tp) as [[| |p|]|]; try done.
  apply andb_prop in Hp as [[[[H1 H2]%andb_prop H3]%andb_prop H4]%andb_prop H5].
  exists p. split_and!; [done|by eapply bool_decide_eq_true_1..].
Qed.

Lemma add_work_spec w tp js fas c f a :
  pool_rep w tp js fas c → 0 < c →
  malloc_env w !! 0%nat ≠ Some false →
  semwait_env w !! 0%nat ≠ Some false → semwait_env w !! 1%nat ≠ Some false →
  ∃ l w', heap w !! l = None ∧
    thpool_add_work (Some tp) f a w = Ret 0 w' ∧
    pool_rep w' tp (l :: js) ((f, a) :: fas) (c - 1) ∧
    dom (heap w') = {[l]} ∪ dom (heap w) ∧
    executed w' = executed w ∧ stderr w' = stderr w ∧
    thpool_keepalive w' = thpool_keepalive w ∧
    malloc_env w' = List.tl (malloc_env w) ∧
    semwait_env w' = List.tl (List.tl (semwait_env w)) ∧
    (∀ ths jq ts, pool_parts w tp ths jq ts → pool_parts w' tp ths jq ts).
Proof.
  intros Hpool Hc Hm Hs0 Hs1.
  pose proof Hpool as (_ & _ & p & _ & _ & _ & _ & Hc0 & Hbound).
  destruct (add_work_run w tp js fas c f a Hpool Hm)
    as (l & w' & p' & Hl & Hrun & Hrep' & Hpay' & Hp' & Hne' & Hmx' & Hns' & Hrest);
    [by right|lia|].
  rewrite decide_False in Hne' by done. rewrite decide_False in Hmx' by done.
  exists l, w'. split_and!; try done; try apply Hrest.
  split_and!; [done|done|].
  exists p'. split_and!; try done; simpl length; lia.
Qed.

Lemma add_work_threads w tp js fas c f a r w' :
  pool_rep w tp js fas c → 0 < c →
  malloc_env w !! 0%nat ≠ Some false →
  thpool_add_work (Some tp) f a w = Ret r w' →
  spawned w' = spawned w ∧ exited w' = exited w.
Proof.
  intros (Hrep & Hpay & p & Hp & Hmx & Hne & Hns & Hc0 & Hbound) Hc Hm Hrun.
  assert (H01 : 0 ≤ 1 ≤ 1) by lia.
  assert (Hfree : semwait_env w !! 1%nat = Some false ∨ 0 < 1) by (right; lia).
  assert (Hlen : Z.of_nat (length js) < INT_MAX) by lia.
  destruct (add_work_run_gen w tp js fas c 1 p f a Hrep Hpay Hp Hmx H01 Hne Hns Hc0 Hbound
              Hm (or_intror Hc) Hfree Hlen)
    as (l & w2 & p' & _ & Hrun2 & _ & _ & _ & _ & _ & _ & _ & _ & _ & _ & _ & _ & _ & Hsp & Hex).
  rewrite Hrun2 in Hrun. injection Hrun as _ <-. done.
Qed.

(** ** One turn of the worker *)

Lemma relinks_jobqueue_peek p : relinks (thpool_jobqueue_peek p).
Proof. unfold thpool_jobqueue_peek. auto with relinks. Qed.

Lemma critical_section_unfold tp_p s w :
  pc s = L98 →
  thread_steps 4 tp_p s w =
    (jp ← thpool_jobqueue_peek tp_p;
     j1 ← load_job jp;
     j2 ← load_job jp;
     thpool_jobqueue_removelast tp_p;;
     mret (Frame (self s) L103 jp (function j1) (arg j2))) w.
Proof.
  intros Hpc. rewrite thread_steps_S. unfold thpool_thread_do at 1. rewrite Hpc.
  rewrite bind_assoc. apply bind_ext. intros jp w1. rewrite bind_mret.
  rewrite thread_steps_S. unfold thpool_thread_do at 1. simpl pc. cbv iota.
  rewrite bind_assoc. apply bind_ext. intros j1 w2. rewrite bind_mret.
  rewrite thread_steps_S. unfold thpool_thread_do at 1. simpl pc. cbv iota.
  rewrite bind_assoc. apply bind_ext. intros j2 w3. rewrite bind_mret.
  rewrite thread_steps_S. unfold thpool_thread_do at 1. simpl pc. cbv iota.
  rewrite bind_assoc. apply bind_ext. intros r w4. rewrite bind_mret.
  reflexivity.
Qed.

Lemma critical_section_relinks tp_p s :
  pc s = L98 → relinks (thread_steps 4 tp_p s).
Proof.
  intros Hpc w a w' H. rewrite critical_section_unfold in H by done.
  revert w a w' H.
  pose proof relinks_jobqueue_peek. pose proof relinks_jobqueue_removelast.
  change (relinks (jp ← thpool_jobqueue_peek tp_p;
     j1 ← load_job jp;
     j2 ← load_job jp;
     thpool_jobqueue_removelast tp_p;;
     mret (Frame (self s) L103 jp (function j1) (arg j2)))).
  auto 30 with relinks.
Qed.

Lemma call_ret f a w :
  f ≠ 0 → call f a w = Ret tt (with_executed (λ l, l ++ [(f, a)]) w).
Proof. intros Hf. unfold call. by destruct (Z.eqb_spec f 0). Qed.

Lemma worker_turn_prefix w tp js t fas f a c s :
  pool_rep w tp (js ++ [t]) (fas ++ [(f, a)]) c → pc s = L84 →
  thpool_keepalive w ≠ 0 →
  semwait_env w !! 0%nat ≠ Some false → semwait_env w !! 1%nat ≠ Some false →
  ∃ w', thread_steps 10 (Some tp) s w = Ret (Frame (self s) L106 (Some t) f a) w' ∧
    pool_rep w' tp js fas (c + 1) ∧
    is_job (heap w') t ∧ (t ∉ js) ∧ t ≠ tp ∧ dom (heap w') = dom (heap w) ∧
    executed w' = executed w ∧ stderr w' = stderr w ∧
    thpool_keepalive w' = thpool_keepalive w ∧
    malloc_env w' = malloc_env w ∧
    semwait_env w' = List.tl (List.tl (semwait_env w)).
Proof.
  intros (Hrep & Hpay & p & Hp & Hmx & Hne & Hns & Hc0 & Hbound) Hpc Hk Hs0 Hs1.
  rewrite length_app in Hns, Hbound. simpl in Hns, Hbound.
  apply payloads_snoc in Hpay as [Hpay Hpt].
  assert (Htjob : is_job (heap w) t) by (eapply queue_rep_jobs; [done|set_solver]).
  assert (Htn : t ∉ js).
  { destruct Hrep as (? & ? & ? & _ & _ & _ & _ & _ & _ & _ & Hnd & _).
    apply NoDup_app in Hnd as (_ & Hd & _). intros Hin. apply (Hd t Hin). by left. }
  assert (t ≠ tp) by (destruct Htjob; congruence).
  change 10%nat with (4 + (4 + 2))%nat. rewrite thread_steps_add.
  (* lines 84, 85, 90, 96 *)
  set (w4 := with_heap (insert tp (BPool (sem_set Mutex 0 (sem_set NStored (Z.of_nat (length js)) p))))
               (with_semwait_env (List.tl (List.tl (semwait_env w))) w)).
  assert (H4 : thread_steps 4 (Some tp) s w = Ret (goto L98 s) w4).
  { rewrite thread_steps_S. unfold thpool_thread_do at 1. rewrite Hpc.
    rewrite bind_assoc, bind_gets.
    destruct (Z.eqb_spec (thpool_keepalive w) 0) as [|_]; [done|].
    rewrite bind_mret.
    rewrite thread_steps_S. unfold thpool_thread_do at 1. simpl pc. cbv iota.
    rewrite bind_assoc.
    erewrite bind_ret; [|eapply sem_wait_ret; [exact Hp|done|simpl; lia]].
    change (negb (0 =? 0)) with false. cbv iota. rewrite bind_mret.
    rewrite thread_steps_S. unfold thpool_thread_do at 1. simpl pc. cbv iota.
    rewrite bind_assoc, bind_gets. simpl thpool_keepalive.
    destruct (Z.eqb_spec (thpool_keepalive w) 0) as [|_]; [done|].
    rewrite bind_mret.
    rewrite thread_steps_S. unfold thpool_thread_do at 1. simpl pc. cbv iota.
    rewrite bind_assoc.
    erewrite bind_ret;
      [|eapply sem_wait_ret; [solve_lookup|simpl; by rewrite lookup_tail|simpl; lia]].
    rewrite bind_mret.
    simpl. unfold mret, M_ret. f_equal. subst w4. unfold with_heap, with_semwait_env. simpl.
    apply world_eq_heap. rewrite insert_insert_eq. rewrite Hns, Hmx.
    do 3 f_equal. lia. }
  rewrite (bind_ret _ _ _ _ _ H4). rewrite thread_steps_add.
  (* lines 98 to 101 *)
  assert (Hp4 : heap w4 !! tp
                = Some (BPool (sem_set Mutex 0 (sem_set NStored (Z.of_nat (length js)) p)))).
  { subst w4. simpl. apply lookup_insert_eq. }
  assert (Hag4 : ∀ l, l ≠ tp → heap w4 !! l = heap w !! l).
  { intros l Hl. subst w4. simpl. by rewrite lookup_insert_ne. }
  assert (Hrep4 : queue_rep w4 tp (js ++ [t])).
  { eapply (queue_rep_agree w w4); [done|done|done|done|]. intros l Hl _ _. by apply Hag4. }
  destruct (critical_section_safe w4 tp js t (goto L98 s) Hrep4 eq_refl)
    as (j & w8 & Hj & Hrep8 & H8).
  destruct (critical_section_relinks (Some tp) (goto L98 s) eq_refl w4 _ w8 H8)
    as (Hw8 & Hd8 & Hpay8 & Hpool8 & _).
  rewrite (bind_ret _ _ _ _ _ H8).
  assert (Hfa : function j = f ∧ arg j = a).
  { rewrite Hag4 in Hj by done. unfold payload_of in Hpt. rewrite Hj in Hpt.
    by injection Hpt as -> ->. }
  destruct Hfa as [-> ->].
  assert (Hp8 := Hpool8 _ _ Hp4).
  assert (Ht8 : is_job (heap w8) t).
  { specialize (Hpay8 t (function j, arg j)). unfold payload_of in Hpay8.
    rewrite Hj in Hpay8. specialize (Hpay8 eq_refl).
    destruct (heap w8 !! t) as [[j'| | |]|] eqn:E; try done. by exists j'. }
  destruct Ht8 as [j8 Hj8].
  (* lines 103, 104, 106, 107 *)
  rewrite thread_steps_S. unfold thpool_thread_do at 1. simpl pc. cbv iota.
  rewrite bind_assoc.
  erewrite bind_ret; [|eapply sem_post_ret; [exact Hp8|simpl; unfold SEM_VALUE_MAX; lia]].
  rewrite bind_mret.
  rewrite thread_steps_S. unfold thpool_thread_do at 1. simpl pc. cbv iota.
  rewrite bind_assoc.
  erewrite bind_ret;
    [|eapply sem_post_ret; [solve_lookup|simpl; unfold SEM_VALUE_MAX, INT_MAX in *; lia]].
  rewrite bind_mret.
  eexists. split; [reflexivity|]. simpl. split_and!; try done.
  - split_and!.
    + eapply (queue_rep_agree w8); [done|done|simpl; solve_lookup|done|].
      intros l Hl _ _; simpl. by rewrite !lookup_insert_ne by done.
    + eapply payloads_ext; [exact Hpay|]. intros l fa Hin Hl.
      assert (l ≠ tp).
      { intros ->. unfold payload_of in Hl. by rewrite Hp in Hl. }
      unfold payload_of at 1. simpl.
      rewrite !lookup_insert_ne by done.
      apply Hpay8. unfold payload_of. rewrite Hag4 by done. exact Hl.
    + eexists. split; [simpl; solve_lookup|]. simpl.
      split_and!; try done; lia.
  - exists j8. simpl. by rewrite !lookup_insert_ne by done.
  - rewrite !dom_insert_lookup_L by (rewrite ?lookup_insert_eq; eauto).
    rewrite Hd8. subst w4. simpl. rewrite dom_insert_lookup_L by eauto. done.
  - by rewrite Hw8.
  - by rewrite Hw8.
  - by rewrite Hw8.
  - by rewrite Hw8.
  - by rewrite Hw8.
Qed.

Lemma pool_rep_free w tp js fas c t :
  pool_rep w tp js fas c → is_job (heap w) t → t ∉ js →
  ∀ w', heap w' = delete t (heap w) → pool_rep w' tp js fas c.
Proof.
  intros (Hrep & Hpay & p & Hp & Hrest) [j Hj] Htn w' Hh.
  assert (t ≠ tp) by congruence.
  split_and!.
  - eapply (queue_rep_agree w); [done|done| |done|].
    + by rewrite Hh, lookup_delete_ne.
    + intros l Hl _ [Hin|Hnj].
      * assert (l ≠ t) by (by intros ->). by rewrite Hh, lookup_delete_ne.
      * assert (l ≠ t) by (intros ->; apply Hnj; by exists j).
        by rewrite Hh, lookup_delete_ne.
  - eapply payloads_ext; [exact Hpay|]. intros l fa Hin Hl.
    assert (l ≠ t) by (by intros ->).
    unfold payload_of. rewrite Hh, lookup_delete_ne by done. exact Hl.
  - exists p. split; [|done]. by rewrite Hh, lookup_delete_ne.
Qed.

Lemma worker_turn_spec w tp js t fas f a c s :
  pool_rep w tp (js ++ [t]) (fas ++ [(f, a)]) c → f ≠ 0 → pc s = L84 →
  thpool_keepalive w ≠ 0 →
  semwait_env w !! 0%nat ≠ Some false → semwait_env w !! 1%nat ≠ Some false →
  ∃ w', thread_steps 12 (Some tp) s w = Ret (Frame (self s) L84 (Some t) f a) w' ∧
    pool_rep w' tp js fas (c + 1) ∧
    heap w' !! t = None ∧ dom (heap w') = dom (heap w) ∖ {[t]} ∧
    executed w' = executed w ++ [(f, a)] ∧ stderr w' = stderr w ∧
    thpool_keepalive w' = thpool_keepalive w ∧
    malloc_env w' = malloc_env w ∧
    semwait_env w' = List.tl (List.tl (semwait_env w)).
Proof.
  intros Hpool Hf Hpc Hk Hs0 Hs1.
  destruct (worker_turn_prefix w tp js t fas f a c s Hpool Hpc Hk Hs0 Hs1)
    as (w10 & H10 & Hpool10 & Ht10 & Htn & Http & Hd10 & Hex & Herr & Hk10 & Hm10 & Hs10).
  change 12%nat with (10 + 2)%nat. rewrite thread_steps_add.
  rewrite (bind_ret _ _ _ _ _ H10).
  rewrite thread_steps_S. unfold thpool_thread_do at 1. simpl pc. cbv iota.
  rewrite bind_assoc. simpl func_buff. simpl arg_buff.
  rewrite (bind_ret _ _ _ _ _ (call_ret _ _ _ Hf)).
  rewrite bind_mret.
  rewrite thread_steps_S. unfold thpool_thread_do at 1. simpl pc. cbv iota.
  rewrite bind_assoc. simpl job_p.
  destruct Ht10 as [j10 Hj10].
  erewrite bind_ret; [|eapply free_ret; simpl; exact Hj10].
  rewrite bind_mret.
  eexists. split; [reflexivity|]. simpl. split_and!; try done.
  - eapply (pool_rep_free w10); [done|by exists j10|done|done].
  - apply lookup_delete_eq.
  - by rewrite dom_delete_L, Hd10.
  - by rewrite Hex.
Qed.

(** ** Sets of addresses *)

Lemma difference_add_both (D J : gset positive) l :
  l ∉ D → ({[l]} ∪ D) ∖ ({[l]} ∪ J) = D ∖ J.
Proof.
  intros Hl. apply set_eq. intros x.
  rewrite !elem_of_difference, !elem_of_union, !elem_of_singleton.
  split.
  - intros [[->|Hx] Hn]; [exfalso; apply Hn; by left|].
    split; [done|]. intros ?. apply Hn. by right.
  - intros [Hx Hn]. split; [by right|]. intros [->|?]; done.
Qed.

Lemma difference_remove_both (D J : gset positive) t :
  (D ∖ {[t]}) ∖ J = D ∖ (J ∪ {[t]}).
Proof.
  apply set_eq. intros x.
  rewrite !elem_of_difference, !elem_of_union, !elem_of_singleton. tauto.
Qed.

(** ** Back-pressure *)

Lemma add_work_blocks w tp js fas f a :
  pool_rep w tp js fas 0 →
  malloc_env w !! 0%nat ≠ Some false → semwait_env w !! 0%nat ≠ Some false →
  thpool_add_work (Some tp) f a w = Block.
Proof.
  intros (Hrep & Hpay & p & Hp & Hmx & Hne & Hns & Hc0 & Hbound) Hm Hs0.
  destruct (malloc_ok (BJob job_indeterminate) w Hm) as (l & Hl & Hmalloc).
  assert (l ≠ tp) by congruence.
  unfold thpool_add_work. rewrite (bind_ret _ _ _ _ _ Hmalloc).
  rewrite bool_decide_false by done. cbv iota. rewrite bind_mret.
  run1. run1.
  unfold mbind at 1, M_bind at 1.
  erewrite sem_wait_block; [done|solve_lookup|done|simpl; lia].
Qed.

(** ** [thpool_destroy] *)

Lemma destroy_split tp_p w :
  thpool_destroy tp_p w = (destroy_wake tp_p;; destroy_reap tp_p) w.
Proof.
  unfold thpool_destroy, destroy_wake, destroy_reap.
  rewrite bind_assoc. apply bind_ext. intros _ w1.
  rewrite bind_assoc. apply bind_ext. intros n w2.
  reflexivity.
Qed.

Lemma sem_set_nStored_id p : sem_set NStored (nStored p) p = p.
Proof. by destruct p. Qed.

Lemma wake_loop_spec tp : ∀ (turns : nat) t w p,
  heap w !! tp = Some (BPool p) →
  nStored p + Z.of_nat turns ≤ SEM_VALUE_MAX →
  for_loop t turns (λ _,
    r ← sem_post (Some tp) NStored;
    if negb (r =? 0)
    then fprintf_stderr "thpool_destroy(): Could not bypass sem_wait()\n"
    else mret tt) w
  = Ret tt (with_heap (insert tp (BPool (sem_set NStored (nStored p + Z.of_nat turns) p))) w).
Proof.
  induction turns as [|turns IH]; intros t w p Hp Hle.
  - cbn [for_loop Z.of_nat]. unfold mret, M_ret. f_equal.
    rewrite Z.add_0_r, sem_set_nStored_id.
    destruct w; unfold with_heap; simpl in *. f_equal. by rewrite insert_id.
  - rewrite for_loop_S. rewrite bind_assoc.
    erewrite bind_ret; [|eapply sem_post_ret; [exact Hp|simpl; lia]].
    change (negb (0 =? 0)) with false. cbv iota. rewrite bind_mret.
    erewrite IH; [|simpl; apply lookup_insert_eq|simpl; lia].
    f_equal. destruct w; unfold with_heap; simpl. f_equal.
    rewrite insert_insert_eq. do 2 f_equal. destruct p; simpl. f_equal. lia.
Qed.

Lemma destroy_wake_spec w tp p :
  heap w !! tp = Some (BPool p) → 0 ≤ threadsN p →
  nStored p + threadsN p ≤ SEM_VALUE_MAX →
  destroy_wake (Some tp) w =
    Ret tt (with_heap (insert tp (BPool (sem_set NStored (nStored p + threadsN p) p)))
              (with_keepalive 0 w)).
Proof.
  intros Hp H0 Hle. unfold destroy_wake.
  change ((modify (with_keepalive 0) ≫= ?k) w) with (k tt (with_keepalive 0 w)).
  cbv beta.
  erewrite bind_ret; [|eapply fmap_ret, load_pool_ret; exact Hp].
  erewrite wake_loop_spec; [|exact Hp|lia].
  by rewrite Z2Nat.id.
Qed.

Lemma pthread_join_ret tid w : tid ∈ exited w → pthread_join tid w = Ret 0 w.
Proof. intros H. unfold pthread_join. by rewrite bool_decide_true. Qed.

Lemma pthread_join_block tid w : tid ∉ exited w → pthread_join tid w = Block.
Proof. intros H. unfold pthread_join. by rewrite bool_decide_false. Qed.

Lemma join_step w tp p ths ts (t : nat) (k : unit → M unit) :
  heap w !! tp = Some (BPool p) → threads p = Some ths →
  heap w !! ths = Some (BThreads ts) →
  ((ths ← threads <$> load_pool (Some tp);
    ts ← load_threads ths;
    match ts !! Z.to_nat (Z.of_nat t) with
    | Some tid => pthread_join tid;; mret tt
    | None => fault
    end) ≫= k) w
  = match ts !! t with
    | Some tid => if bool_decide (tid ∈ exited w) then k tt w else Block
    | None => Fault
    end.
Proof.
  intros Hp Hths Hts. rewrite bind_assoc.
  erewrite bind_ret; [|eapply fmap_ret, load_pool_ret; exact Hp].
  rewrite Hths. rewrite bind_assoc.
  erewrite bind_ret; [|eapply load_threads_ret; exact Hts].
  rewrite Nat2Z.id. destruct (ts !! t) as [tid|]; [|done].
  rewrite bind_assoc. case_bool_decide as Hin.
  - rewrite (bind_ret _ _ _ _ _ (pthread_join_ret _ _ Hin)). by rewrite bind_mret.
  - unfold mbind at 1, M_bind at 1. by rewrite pthread_join_block.
Qed.

Lemma join_loop_ret w tp p ths ts :
  heap w !! tp = Some (BPool p) → threads p = Some ths →
  heap w !! ths = Some (BThreads ts) → Forall (λ tid, tid ∈ exited w) ts →
  ∀ (turns t : nat), (t + turns ≤ length ts)%nat →
  for_loop (Z.of_nat t) turns (λ t,
    ths ← threads <$> load_pool (Some tp);
    ts ← load_threads ths;
    match ts !! Z.to_nat t with
    | Some tid => pthread_join tid;; mret tt
    | None => fault
    end) w = Ret tt w.
Proof.
  intros Hp Hths Hts Hex. induction turns as [|turns IH]; intros t Hle; [done|].
  rewrite for_loop_S. rewrite (join_step w tp p ths ts) by done.
  destruct (lookup_lt_is_Some_2 ts t) as [tid Htid]; [lia|]. rewrite Htid.
  rewrite bool_decide_true by exact (proj1 (Forall_lookup _ ts) Hex t tid Htid).
  replace (Z.of_nat t + 1) with (Z.of_nat (S t)) by lia. apply IH. lia.
Qed.

Lemma join_loop_block w tp p ths ts :
  heap w !! tp = Some (BPool p) → threads p = Some ths →
  heap w !! ths = Some (BThreads ts) →
  ∀ (turns t : nat), (t + turns ≤ length ts)%nat →
  (∃ i tid, (t ≤ i < t + turns)%nat ∧ ts !! i = Some tid ∧ tid ∉ exited w) →
  for_loop (Z.of_nat t) turns (λ t,
    ths ← threads <$> load_pool (Some tp);
    ts ← load_threads ths;
    match ts !! Z.to_nat t with
    | Some tid => pthread_join tid;; mret tt
    | None => fault
    end) w = Block.
Proof.
  intros Hp Hths Hts. induction turns as [|turns IH]; intros t Hle (i & tid & Hi & Htid & Hno);
    [lia|].
  rewrite for_loop_S. rewrite (join_step w tp p ths ts) by done.
  destruct (lookup_lt_is_Some_2 ts t) as [tid' Htid']; [lia|]. rewrite Htid'.
  case_bool_decide as Hin; [|done].
  replace (Z.of_nat t + 1) with (Z.of_nat (S t)) by lia. apply IH; [lia|].
  exists i, tid. split_and!; try done; try lia.
  destruct (decide (i = t)) as [->|]; [congruence|lia].
Qed.

Lemma sem_destroy_ret w tp p s :
  heap w !! tp = Some (BPool p) → sem_destroy (Some tp) s w = Ret 0 w.
Proof.
  intros Hp. unfold sem_destroy. by erewrite bind_ret; [|apply load_pool_ret; exact Hp].
Qed.

Lemma destroy_reap_spec w tp ths jq ts js :
  queue_rep w tp js → pool_parts w tp ths jq ts →
  Forall (λ tid, tid ∈ exited w) ts →
  ∃ w', destroy_reap (Some tp) w = Ret tt w' ∧
    (∀ l, heap w' !! l
          = if decide (l ∈ tp :: ths :: jq :: js) then None else heap w !! l) ∧
    w' = with_heap (λ _, heap w') w.
Proof.
  intros Hrep (p & Hp & Hths & Hjq & Hts & Hn) Hex.
  assert (tp ≠ ths) by congruence.
  destruct (empty_spec w tp js Hrep)
    as (w1 & p0 & jq0 & Hrun & Hrep1 & Hp0 & Hjq0 & Hq1 & Hgone & Hsame & Hw1 & _).
  assert (p0 = p) as -> by congruence. assert (jq0 = jq) as -> by congruence.
  assert (Hq : is_Some (heap w !! jq)).
  { destruct Hrep as (p' & jq' & q' & Hp' & Hjq' & Hq' & _).
    assert (p' = p) as -> by congruence. assert (jq' = jq) as -> by congruence. eauto. }
  assert (tp ≠ jq).
  { intros ->. destruct Hrep as (p' & jq' & q' & Hp' & Hjq' & Hq' & _).
    assert (p' = p) as -> by congruence. congruence. }
  assert (ths ≠ jq).
  { intros ->. destruct Hrep as (p' & jq' & q' & Hp' & Hjq' & Hq' & _).
    assert (p' = p) as -> by congruence. congruence. }
  assert (Htpn : tp ∉ js).
  { intros Hin. destruct (queue_rep_jobs _ _ _ _ Hrep Hin) as [j Hj]. congruence. }
  assert (Hthsn : ths ∉ js).
  { intros Hin. destruct (queue_rep_jobs _ _ _ _ Hrep Hin) as [j Hj]. congruence. }
  assert (Hp1 : heap w1 !! tp = Some (BPool p)) by (by rewrite Hsame).
  assert (Hts1 : heap w1 !! ths = Some (BThreads ts)) by (by rewrite Hsame).
  unfold destroy_reap.
  do 3 (rewrite bind_assoc; rewrite (bind_ret _ _ _ _ _ (sem_destroy_ret _ _ _ _ Hp));
        change (negb (0 =? 0)) with false; cbv iota; rewrite bind_mret).
  erewrite bind_ret; [|eapply fmap_ret, load_pool_ret; exact Hp].
  rewrite Hn, Nat2Z.id.
  erewrite bind_ret;
    [|apply (join_loop_ret w tp p ths ts Hp Hths Hts Hex (length ts) 0%nat); lia].
  rewrite (bind_ret _ _ _ _ _ Hrun).
  rewrite bind_assoc.
  erewrite bind_ret; [|eapply fmap_ret, load_pool_ret; exact Hp1].
  rewrite Hths.
  erewrite bind_ret; [|eapply free_ret; exact Hts1].
  rewrite bind_assoc.
  erewrite bind_ret; [|eapply queue_of_ret; simpl; rewrite lookup_delete_ne by done; exact Hp1].
  rewrite Hjq.
  erewrite bind_ret;
    [|eapply free_ret; simpl; rewrite lookup_delete_ne by done; exact Hq1].
  erewrite free_ret; [|simpl; rewrite !lookup_delete_ne by done; exact Hp1].
  eexists. split; [reflexivity|]. split.
  - intros l. simpl.
    destruct (decide (l = tp)) as [->|Hltp].
    { rewrite lookup_delete_eq, decide_True by set_solver. done. }
    rewrite lookup_delete_ne by done.
    destruct (decide (l = jq)) as [->|Hljq].
    { rewrite lookup_delete_eq, decide_True by set_solver. done. }
    rewrite lookup_delete_ne by done.
    destruct (decide (l = ths)) as [->|Hlths].
    { rewrite lookup_delete_eq, decide_True by set_solver. done. }
    rewrite lookup_delete_ne by done.
    destruct (decide (l ∈ js)) as [Hin|Hin].
    { rewrite Hgone, decide_True by set_solver. done. }
    rewrite Hsame by done. rewrite decide_False; [done|].
    rewrite !elem_of_cons. intros [?|[?|[?|?]]]; done.
  - rewrite Hw1 at 1. by destruct w.
Qed.

Lemma bind_block {A B} (m : M A) (k : A → M B) w : m w = Block → (m ≫= k) w = Block.
Proof. intros H. unfold mbind, M_bind. by rewrite H. Qed.

(** The pool after the posts of lines 149 to 153. *)
Lemma pool_after_posts w w1 tp ths jq ts js p v :
  queue_rep w tp js → pool_parts w tp ths jq ts →
  heap w !! tp = Some (BPool p) →
  heap w1 = <[tp := BPool (sem_set NStored v p)]> (heap w) →
  queue_rep w1 tp js ∧ pool_parts w1 tp ths jq ts.
Proof.
  intros Hrep (p' & Hp' & Hths & Hjq & Hts & Hn) Hp Hh.
  assert (p' = p) as -> by congruence.
  assert (tp ≠ ths) by congruence.
  split.
  - eapply (queue_rep_agree w w1 tp js p (sem_set NStored v p)); [done|exact Hp| |by destruct p|].
    + rewrite Hh. apply lookup_insert_eq.
    + intros l Hl _ _. by rewrite Hh, lookup_insert_ne.
  - exists (sem_set NStored v p). split_and!.
    + rewrite Hh. apply lookup_insert_eq.
    + by destruct p.
    + by destruct p.
    + by rewrite Hh, lookup_insert_ne.
    + by destruct p.
Qed.

(** ** Shutting down *)

Lemma worker_wakes_and_returns w tp p s :
  heap w !! tp = Some (BPool p) → thpool_keepalive w = 0 → pc s = L85 →
  0 < nStored p → semwait_env w !! 0%nat ≠ Some false →
  thread_steps 4 (Some tp) s w =
    Ret (goto Returned s)
        (with_exited (λ l, l ++ [self s])
           (with_heap (insert tp (BPool (sem_set NStored (nStored p - 1) p)))
              (with_semwait_env (List.tl (semwait_env w)) w))).
Proof.
  intros Hp Hk Hpc Hn Hs.
  rewrite thread_steps_S. unfold thpool_thread_do at 1. rewrite Hpc.
  rewrite bind_assoc.
  erewrite bind_ret; [|eapply sem_wait_ret; [exact Hp|done|simpl; lia]].
  change (negb (0 =? 0)) with false. cbv iota. rewrite bind_mret.
  rewrite thread_steps_S. unfold thpool_thread_do at 1. simpl pc. cbv iota.
  rewrite bind_assoc, bind_gets. simpl thpool_keepalive. rewrite Hk.
  change (0 =? 0) with true. cbv iota. rewrite bind_mret.
  rewrite thread_steps_S. unfold thpool_thread_do at 1. simpl pc. cbv iota.
  rewrite bind_assoc, bind_gets. simpl thpool_keepalive. rewrite Hk.
  change (0 =? 0) with true. cbv iota. rewrite bind_mret.
  rewrite thread_steps_S. unfold thpool_thread_do at 1. simpl pc. cbv iota.
  reflexivity.
Qed.

Lemma wake_all_spec tp : ∀ ts w p,
  heap w !! tp = Some (BPool p) → thpool_keepalive w = 0 →
  Z.of_nat (length ts) ≤ nStored p → false ∉ semwait_env w →
  ∃ w', wake_all (Some tp) ts w = Ret tt w' ∧
    heap w' = <[tp := BPool (sem_set NStored (nStored p - Z.of_nat (length ts)) p)]> (heap w) ∧
    exited w' = exited w ++ ts ∧ thpool_keepalive w' = 0 ∧
    executed w' = executed w ∧ stderr w' = stderr w.
Proof.
  induction ts as [|tid ts IH]; intros w p Hp Hk Hle Hs.
  - exists w. cbn [wake_all length Z.of_nat].
    rewrite Z.sub_0_r, sem_set_nStored_id, app_nil_r, insert_id by done. done.
  - simpl length in Hle. cbn [wake_all].
    erewrite bind_ret;
      [|apply (worker_wakes_and_returns w tp p); [done|done|done|lia|by apply no_false_head]].
    set (w1 := with_exited _ _).
    destruct (IH w1 (sem_set NStored (nStored p - 1) p)) as (w' & Hrun & Hh & Hex & Hk' & Hexe & Herr).
    { subst w1. simpl. apply lookup_insert_eq. }
    { done. }
    { destruct p; simpl in *. lia. }
    { subst w1. simpl. by apply tl_no_false. }
    exists w'. split_and!; try done.
    + rewrite Hh. subst w1. simpl. rewrite insert_insert_eq. do 2 f_equal.
      destruct p; simpl. f_equal. lia.
    + rewrite Hex. subst w1. simpl. by rewrite <- app_assoc.
Qed.

Lemma shutdown_spec w tp ths jq ts js fas c :
  pool_rep w tp js fas c → pool_parts w tp ths jq ts →
  workers_of w tp = ts →
  Z.of_nat (length js) + Z.of_nat (length ts) ≤ SEM_VALUE_MAX →
  false ∉ semwait_env w →
  ∃ w', (destroy_wake (Some tp);; wake_all (Some tp) (workers_of w tp);;
         destroy_reap (Some tp)) w = Ret tt w' ∧
    (∀ l, heap w' !! l
          = if decide (l ∈ tp :: ths :: jq :: js) then None else heap w !! l) ∧
    exited w' = exited w ++ ts ∧ executed w' = executed w ∧ stderr w' = stderr w ∧
    thpool_keepalive w' = 0.
Proof.
  intros (Hrep & Hpay & p & Hp & Hmx & Hne & Hns & Hc0 & Hbound) Hparts Hworkers Hle Hs.
  rewrite Hworkers.
  pose proof Hparts as (p' & Hp' & _ & _ & _ & Hn).
  assert (p' = p) as -> by congruence.
  erewrite bind_ret; [|apply (destroy_wake_spec w tp p Hp); lia].
  set (w1 := with_heap _ _).
  destruct (pool_after_posts w w1 tp ths jq ts js p _ Hrep Hparts Hp eq_refl)
    as [Hrep1 Hparts1].
  destruct (wake_all_spec tp ts w1 (sem_set NStored (nStored p + threadsN p) p))
    as (w2 & Hrun2 & Hh2 & Hex2 & Hk2 & Hexe2 & Herr2).
  { subst w1. simpl. apply lookup_insert_eq. }
  { done. }
  { destruct p; simpl in *. lia. }
  { done. }
  rewrite (bind_ret _ _ _ _ _ Hrun2).
  assert (Hp1 : heap w1 !! tp = Some (BPool (sem_set NStored (nStored p + threadsN p) p))).
  { subst w1. simpl. apply lookup_insert_eq. }
  destruct (pool_after_posts w1 w2 tp ths jq ts js _ _ Hrep1 Hparts1 Hp1 Hh2)
    as [Hrep2 Hparts2].
  destruct (destroy_reap_spec w2 tp ths jq ts js Hrep2 Hparts2) as (w' & Hrun & Hh & Hw').
  { rewrite Hex2. apply Forall_forall. intros tid Hin. apply elem_of_app. by right. }
  exists w'. split_and!; try done.
  - intros l. rewrite Hh. case_decide as Hin; [done|].
    assert (l ≠ tp) by (intros ->; apply Hin; by left).
    rewrite Hh2, lookup_insert_ne by done. subst w1. simpl. by rewrite lookup_insert_ne.
  - by rewrite Hw'.
  - by rewrite Hw'.
  - by rewrite Hw'.
  - by rewrite Hw'.
Qed.

(** ** No failure appears that was not scheduled *)

Lemma quiet_ret {A} (a : A) : stays_quiet (mret a).
Proof. intros w a' w' [= _ <-]. done. Qed.

Lemma quiet_bind {A B} (m : M A) (k : A → M B) :
  stays_quiet m → (∀ a, stays_quiet (k a)) → stays_quiet (m ≫= k).
Proof.
  intros Hm Hk w b w' (a & w1 & H1 & H2)%bind_inv Hq.
  apply (Hk _ _ _ _ H2). by apply (Hm _ _ _ H1).
Qed.

Lemma quiet_fmap {A B} (f : A → B) (m : M A) : stays_quiet m → stays_quiet (f <$> m).
Proof. intros Hm. apply quiet_bind; [done|]. intros a. apply quiet_ret. Qed.

Lemma quiet_fault {A} : stays_quiet (@fault A).
Proof. intros w a w' H. done. Qed.

Lemma quiet_gets {A} (f : world → A) : stays_quiet (gets f).
Proof. intros w a w' [= _ <-]. done. Qed.

Lemma quiet_modify f :
  (∀ w, malloc_env (f w) = malloc_env w ∧ semwait_env (f w) = semwait_env w) →
  stays_quiet (modify f).
Proof.
  intros Hf w a w' H [Hm Hs]. injection H as _ <-. destruct (Hf w) as [Em Es].
  split; [by rewrite Em|by rewrite Es].
Qed.

Lemma quiet_load p : stays_quiet (load p).
Proof. intros w a w' [-> _]%load_inv. done. Qed.

Lemma quiet_store p b : stays_quiet (store p b).
Proof. intros w [] w' (l & _ & _ & ->)%store_inv. done. Qed.

Lemma quiet_malloc b : stays_quiet (malloc b).
Proof.
  intros w a w' H [Hm Hs]. unfold malloc in H.
  destruct (malloc_env w) as [|[] e] eqn:E; injection H as _ <-; split; simpl; try done.
  - intros Hin. apply Hm. by right.
  - intros Hin. apply Hm. by right.
Qed.

Lemma quiet_free p : stays_quiet (free p).
Proof.
  intros w [] w'. destruct p as [l|]; [intros [_ ->]%free_inv|intros [= <-]]; done.
Qed.

Lemma quiet_if {A} (b : bool) (m1 m2 : M A) :
  stays_quiet m1 → stays_quiet m2 → stays_quiet (if b then m1 else m2).
Proof. by destruct b. Qed.

Lemma quiet_for_loop body :
  (∀ t, stays_quiet (body t)) → ∀ turns t, stays_quiet (for_loop t turns body).
Proof.
  intros Hb. induction turns as [|turns IH]; intros t; simpl.
  - apply quiet_ret.
  - apply quiet_bind; [apply Hb|]. intros _. apply IH.
Qed.

Create HintDb quiet.
#[local] Hint Resolve quiet_ret quiet_fault quiet_gets quiet_load
  quiet_store quiet_malloc quiet_free quiet_fmap quiet_if : quiet.
#[local] Hint Extern 2 (stays_quiet (_ ≫= _)) => apply quiet_bind; [|intros ?] : quiet.
#[local] Hint Extern 2 (stays_quiet (modify _)) =>
  apply quiet_modify; intros ?; split; reflexivity : quiet.
#[local] Hint Extern 3 (stays_quiet (match ?x with _ => _ end)) => destruct x : quiet.
#[local] Hint Extern 2 (stays_quiet (for_loop _ _ _)) => apply quiet_for_loop; intros ? : quiet.

Lemma quiet_load_pool p : stays_quiet (load_pool p).
Proof. unfold load_pool. auto 50 with quiet. Qed.
Lemma quiet_load_queue p : stays_quiet (load_queue p).
Proof. unfold load_queue. auto 50 with quiet. Qed.
Lemma quiet_load_threads p : stays_quiet (load_threads p).
Proof. unfold load_threads. auto 50 with quiet. Qed.
#[local] Hint Resolve quiet_load_pool quiet_load_queue quiet_load_threads : quiet.

Lemma quiet_modify_pool p f : stays_quiet (modify_pool p f).
Proof. unfold modify_pool. auto 50 with quiet. Qed.
Lemma quiet_modify_queue p f : stays_quiet (modify_queue p f).
Proof. unfold modify_queue. auto 50 with quiet. Qed.
#[local] Hint Resolve quiet_modify_pool quiet_modify_queue : quiet.

Lemma quiet_queue_of p : stays_quiet (queue_of p).
Proof. unfold queue_of. auto 50 with quiet. Qed.
#[local] Hint Resolve quiet_queue_of : quiet.
Lemma quiet_queue_set p f : stays_quiet (queue_set p f).
Proof. unfold queue_set. auto 50 with quiet. Qed.
Lemma quiet_sem_init p s v : stays_quiet (sem_init p s v).
Proof. unfold sem_init. auto 50 with quiet. Qed.
Lemma quiet_fprintf s : stays_quiet (fprintf_stderr s).
Proof. unfold fprintf_stderr. auto 50 with quiet. Qed.
#[local] Hint Resolve quiet_queue_set quiet_sem_init quiet_fprintf : quiet.

Lemma quiet_jobqueue_init p : stays_quiet (thpool_jobqueue_init p).
Proof. unfold thpool_jobqueue_init. auto 50 with quiet. Qed.
Lemma quiet_pthread_create p t a : stays_quiet (pthread_create p t a).
Proof. unfold pthread_create. auto 50 with quiet. Qed.
#[local] Hint Resolve quiet_jobqueue_init quiet_pthread_create : quiet.

Lemma quiet_thpool_init n : stays_quiet (thpool_init n).
Proof. unfold thpool_init. auto 50 with quiet. Qed.

(** ** A pool from [thpool_init] *)

Lemma failures_quiet n e : false ∉ e → failures n e = O.
Proof.
  intros He. apply failures_nonzero. intros k _ Hk.
  apply He. by eapply list_elem_of_lookup_2.
Qed.

Lemma thpool_init_ready n w :
  failures 3 (malloc_env w) = O → n ≤ INT_MAX →
  ∃ tp ths jq ts w', thpool_init n w = Ret (Some tp) w' ∧
    pool_rep w' tp [] [] (Z.max n 1) ∧ pool_parts w' tp ths jq ts ∧
    Z.of_nat (length ts) = Z.max n 1 ∧
    heap w !! tp = None ∧ heap w !! ths = None ∧ heap w !! jq = None ∧
    (∀ l, l ∉ [tp; ths; jq] → heap w' !! l = heap w !! l) ∧
    (quiet w → quiet w') ∧
    thpool_keepalive w' = thpool_keepalive w ∧ executed w' = executed w.
Proof.
  intros Hf Hn.
  destruct (thpool_init_success n w Hf)
    as (tp & ths & jq & ts & w' & Hrun & Htp & Hths & Hjq & Hne1 & Hne2 & Hne3
        & Hp' & Hq' & Hts' & Hlen & Hsame & _ & Hk & Hex).
  exists tp, ths, jq, ts, w'. split_and!; try done.
  - split_and!.
    + exists (pool_ready ths jq (Z.max n 1)), jq, (JobQueue NULL NULL 0).
      split_and!; try done. apply NoDup_nil_2.
    + done.
    + exists (pool_ready ths jq (Z.max n 1)). simpl.
      split_and!; try done; unfold INT_MAX in *; lia.
  - exists (pool_ready ths jq (Z.max n 1)). simpl. split_and!; try done.
  - intros l Hl. apply Hsame; intros ->; apply Hl; set_solver.
  - exact (quiet_thpool_init n w (Some tp) w' Hrun).
Qed.

(** ** The capacity of the queue *)

Lemma submit_all_spec tp s : ∀ fas w js0 fas0 c,
  pool_rep w tp js0 fas0 c → quiet w → Z.of_nat (length fas) ≤ c →
  ∃ w' js, run_pool (Some tp) s (submit_all fas) w = Ret s w' ∧
    pool_rep w' tp (js ++ js0) (rev fas ++ fas0) (c - Z.of_nat (length fas)) ∧
    quiet w' ∧ executed w' = executed w ∧ thpool_keepalive w' = thpool_keepalive w ∧
    dom (heap w') = list_to_set js ∪ dom (heap w) ∧
    (∀ l, l ∈ js → heap w !! l = None) ∧
    (∀ ths jq ts, pool_parts w tp ths jq ts → pool_parts w' tp ths jq ts) ∧
    spawned w' = spawned w ∧ exited w' = exited w.
Proof.
  induction fas as [|[f a] fas IH]; intros w js0 fas0 c Hrep [Hqm Hqs] Hle.
  - exists w, []. simpl. rewrite Z.sub_0_r. split_and!; try done.
    + by rewrite (left_id_L ∅ (∪)).
    + by intros l ?%elem_of_nil.
  - simpl length in Hle.
    destruct (add_work_spec w tp js0 fas0 c f a Hrep)
      as (l & w1 & Hl & Hrun & Hrep1 & Hd1 & Hex1 & _ & Hk1 & Hm1 & Hs1 & Hparts1).
    { lia. }
    { by apply no_false_head. }
    { by apply no_false_head. }
    { rewrite <- lookup_tail. by apply no_false_head, tl_no_false. }
    destruct (add_work_threads w tp js0 fas0 c f a 0 w1 Hrep) as [Hsp1 Hxt1];
      [lia|by apply no_false_head|done|].
    destruct (IH w1 (l :: js0) ((f, a) :: fas0) (c - 1) Hrep1)
      as (w' & js & Hrun' & Hrep' & Hq' & Hex' & Hk' & Hd' & Hfresh' & Hparts' & Hsp' & Hxt').
    { split; [rewrite Hm1|rewrite Hs1]; auto using tl_no_false. }
    { lia. }
    exists w', (js ++ [l]). split_and!; try done.
    + unfold submit_all. cbn [fmap list_fmap run_pool fst snd].
      by rewrite (bind_ret _ _ _ _ _ Hrun).
    + simpl rev. simpl length. rewrite <- !app_assoc. simpl.
      replace (c - Z.of_nat (S (length fas))) with (c - 1 - Z.of_nat (length fas)) by lia.
      done.
    + by rewrite Hex', Hex1.
    + by rewrite Hk', Hk1.
    + rewrite Hd', Hd1, list_to_set_app_L. simpl.
      rewrite (right_id_L ∅ (∪)). by rewrite (assoc_L (∪)).
    + intros x [Hx| ->%list_elem_of_singleton]%elem_of_app; [|done].
      apply not_elem_of_dom. intros Hin. specialize (Hfresh' x Hx).
      apply not_elem_of_dom in Hfresh'. apply Hfresh'. rewrite Hd1.
      apply elem_of_union. by right.
    + intros ths jq ts Hparts. by apply Hparts', Hparts1.
    + by rewrite Hsp', Hsp1.
    + by rewrite Hxt', Hxt1.
Qed.

(** ** The executable check of a pool is sound *)

Lemma pool_repb_sound w tp js fas c :
  pool_repb w tp js fas c = true → pool_rep w tp js fas c.
Proof.
  unfold pool_repb. intros [[Hq Hpay%bool_decide_eq_true_1]%andb_prop Hp]%andb_prop.
  split_and!; [by apply queue_repb_sound|done|].
  destruct (heap w !! tp) as [[| |p|]|]; try done.
  apply andb_prop in Hp as [[[[H1 H2]%andb_prop H3]%andb_prop H4]%andb_prop H5].
  exists p. split_and!; [done|by eapply bool_decide_eq_true_1..].
Qed.

(** ** The parts of the example pool *)

Lemma w_two_jobs_parts (e : list Z) :
  pool_parts (with_exited (λ _, e) w_two_jobs) 1%positive 2%positive 3%positive [1; 2].
Proof.
  exists (Pool (Some 2%positive) 2 (Some 3%positive) 1 0 2).
  split_and!; reflexivity.
Qed.

(** ** The threads that [thpool_init] starts *)

Lemma fresh_ids_S k n : fresh_ids k (S n) = (Z.of_nat k + 1) :: fresh_ids (S k) n.
Proof. reflexivity. Qed.

Lemma spawn_loop_full tp p ths : ∀ (turns t : nat) w ts,
  heap w !! tp = Some (BPool p) → threads p = Some ths →
  heap w !! ths = Some (BThreads ts) → (t + turns ≤ length ts)%nat →
  ∃ w' ts', for_loop (Z.of_nat t) turns (spawn_body (Some tp)) w = Ret tt w' ∧
    heap w' = <[ths := BThreads ts']> (heap w) ∧ length ts' = length ts ∧
    create_env w' = drop turns (create_env w) ∧
    stderr w' = stderr w ++ replicate (failures turns (create_env w))
                              "created thread pool failed %s\n" ∧
    exited w' = exited w ∧ malloc_env w' = malloc_env w ∧
    semwait_env w' = semwait_env w ∧
    (failures turns (create_env w) = O →
       spawned w' = spawned w
                    ++ ((λ tid, (tid, Some tp)) <$> fresh_ids (length (spawned w)) turns) ∧
       ts' = take t ts ++ fresh_ids (length (spawned w)) turns ++ drop (t + turns) ts).
Proof.
  induction turns as [|turns IH]; intros t w ts Hp Hths Hts Hlen.
  - exists w, ts. cbn [for_loop failures replicate drop].
    split_and!; try done.
    + by rewrite insert_id.
    + by rewrite app_nil_r.
    + intros _. cbn. rewrite app_nil_r, Nat.add_0_r, take_drop. done.
  - assert (tp ≠ ths) by congruence.
    rewrite for_loop_S. replace (Z.of_nat t + 1) with (Z.of_nat (S t)) by lia.
    destruct (decide (create_env w !! 0%nat = Some false)) as [He|He].
    + rewrite (bind_ret _ _ _ _ _ (spawn_body_fail _ _ _ _ Hp He)).
      destruct (create_env w) as [|[] e] eqn:E; try done.
      edestruct (IH (S t)) as (w' & ts' & Hrun & Hheap & Hlen' & Hce & Herr & Hex & Hm & Hs & _);
        [| | | |rewrite Hrun].
      * simpl. exact Hp.
      * done.
      * simpl. exact Hts.
      * lia.
      * exists w', ts'. simpl in Hce, Herr, Hex, Hm, Hs.
        split_and!; try done.
        rewrite Herr. simpl. by rewrite <- app_assoc.
    + assert (Hin : 0 ≤ Z.of_nat t < Z.of_nat (length ts)) by lia.
      rewrite (bind_ret _ _ _ _ _ (spawn_body_ok _ _ _ _ _ _ Hp Hths Hts Hin He)).
      rewrite Nat2Z.id.
      set (id0 := Z.of_nat (length (spawned w)) + 1).
      edestruct (IH (S t)) as (w' & ts' & Hrun & Hheap & Hlen' & Hce & Herr & Hex & Hm & Hs & Hok);
        [| | | |rewrite Hrun].
      * simpl. rewrite lookup_insert_ne by done. exact Hp.
      * done.
      * simpl. apply lookup_insert_eq.
      * rewrite length_insert. lia.
      * exists w', ts'. simpl in Hce, Herr, Hex, Hm, Hs, Hok.
        assert (Hf : failures (S turns) (create_env w) = failures turns (List.tl (create_env w))).
        { destruct (create_env w) as [|[] e]; simpl; try done. by rewrite failures_nil. }
        assert (Hd : drop turns (List.tl (create_env w)) = drop (S turns) (create_env w)).
        { destruct (create_env w) as [|b e]; simpl; [by rewrite drop_nil|done]. }
        split_and!; try done.
        -- rewrite Hheap. simpl. by rewrite insert_insert_eq.
        -- rewrite Hlen'. by rewrite length_insert.
        -- by rewrite Hce.
        -- by rewrite Herr, Hf.
        -- rewrite Hf. intros H0. destruct (Hok H0) as [Hsp Hts'].
           rewrite length_app in Hsp, Hts'. simpl in Hsp, Hts'.
           rewrite Nat.add_1_r in Hsp, Hts'.
           rewrite fresh_ids_S. split.
           ++ rewrite Hsp. rewrite <- app_assoc. done.
           ++ rewrite Hts'.
              rewrite (take_S_r _ _ id0) by (apply list_lookup_insert_eq; lia).
              rewrite take_insert_ge by lia. rewrite drop_insert_lt by lia.
              rewrite <- app_assoc. simpl.
              replace (t + S turns)%nat with (S (t + turns)) by lia. done.
Qed.

Lemma thpool_init_full n w :
  failures 3 (malloc_env w) = O →
  ∃ tp ths jq ts w',
    thpool_init n w = Ret (Some tp) w' ∧
    heap w' !! tp = Some (BPool (pool_ready ths jq (Z.max n 1))) ∧
    heap w' !! ths = Some (BThreads ts) ∧
    create_env w' = drop (Z.to_nat (Z.max n 1)) (create_env w) ∧
    stderr w' = stderr w ++ replicate (failures (Z.to_nat (Z.max n 1)) (create_env w))
                              "created thread pool failed %s\n" ∧
    exited w' = exited w ∧
    (failures (Z.to_nat (Z.max n 1)) (create_env w) = O →
       spawned w' = spawned w ++ ((λ tid, (tid, Some tp)) <$> ts) ∧
       ts = fresh_ids (length (spawned w)) (Z.to_nat (Z.max n 1))).
Proof.
  intros Hf.
  pose proof (failures_zero 3 _ 0 Hf ltac:(lia)) as H0.
  pose proof (failures_zero 3 _ 1 Hf ltac:(lia)) as H1.
  pose proof (failures_zero 3 _ 2 Hf ltac:(lia)) as H2.
  unfold thpool_init. cbv zeta. rewrite clamp_max. set (N := Z.max n 1).
  destruct (malloc_ok (BPool pool_indeterminate) w H0) as (tp & Htp & Hm1).
  rewrite (bind_ret _ _ _ _ _ Hm1). rewrite bool_decide_false by done.
  match type of Hm1 with _ = Ret _ ?w1 =>
    destruct (malloc_ok (BThreads (replicate (Z.to_nat N) 0)) w1) as (ths & Hths & Hm2)
  end.
  { simpl. by rewrite lookup_tail. }
  simpl in Hths. apply lookup_insert_None in Hths as [Hths Hne1].
  rewrite (bind_ret _ _ _ _ _ Hm2).
  repeat run1. simpl threads. rewrite bool_decide_false by done.
  run1.
  match goal with |- ∃ _ _ _ _ _, (thpool_jobqueue_init _ ≫= _) ?w3 = _ ∧ _ =>
    edestruct (jobqueue_init_ok w3 tp) as (jq & Hjq & Hqi)
  end.
  { solve_lookup. }
  { simpl. by rewrite !lookup_tail. }
  simpl in Hjq. rewrite !lookup_insert_None in Hjq. destruct Hjq as ((((Hjq & ?) & ?) & ?) & ?).
  rewrite (bind_ret _ _ _ _ _ Hqi).
  change (0 =? -1) with false. cbv iota.
  assert (ths ≠ jq) by congruence. assert (tp ≠ jq) by congruence.
  repeat run1.
  match goal with |- context [for_loop 0 _ ?body] => change body with (spawn_body (Some tp)) end.
  change 0 with (Z.of_nat 0).
  match goal with |- ∃ _ _ _ _ _, (for_loop _ _ _ ≫= _) ?w4 = _ ∧ _ =>
    odestruct (spawn_loop_full tp _ ths (Z.to_nat N) 0%nat w4)
      as (w' & ts & Hrun & Hheap & Hlen & Hce & Herr & Hex & _ & _ & Hok)
  end.
  { solve_lookup. }
  { reflexivity. }
  { solve_lookup. }
  { rewrite length_replicate. lia. }
  rewrite (bind_ret _ _ _ _ _ Hrun).
  exists tp, ths, jq, ts, w'. split; [reflexivity|].
  simpl in Hheap, Hce, Herr, Hex, Hok.
  split_and!; try done.
  - rewrite Hheap. solve_lookup.
  - rewrite Hheap. solve_lookup.
  - intros Hz. destruct (Hok Hz) as [Hsp Hts].
    rewrite drop_ge, app_nil_r in Hts by (rewrite length_replicate; lia).
    by rewrite Hts.
Qed.

(** ** The parts of [thpool_destroy] *)

Lemma destroy_reap_split tp_p w :
  destroy_reap tp_p w = (destroy_join tp_p;; destroy_free tp_p) w.
Proof.
  unfold destroy_reap, destroy_join, destroy_free. symmetry.
  rewrite bind_assoc. apply bind_ext. intros _ w1.
  rewrite bind_assoc. apply bind_ext. intros _ w2.
  rewrite bind_assoc. apply bind_ext. intros _ w3.
  rewrite bind_assoc. apply bind_ext. intros n w4.
  reflexivity.
Qed.

Lemma destroy_parts tp_p w :
  thpool_destroy tp_p w
  = (destroy_wake tp_p;; destroy_join tp_p;; destroy_free tp_p) w.
Proof.
  rewrite destroy_split. apply bind_ext. intros _ w1. apply destroy_reap_split.
Qed.

Lemma destroy_join_blocks w tp ths jq ts tid :
  pool_parts w tp ths jq ts → tid ∈ ts → tid ∉ exited w →
  destroy_join (Some tp) w = Block.
Proof.
  intros (p & Hp & Hths & Hjq & Hts & Hn) [i Hi]%list_elem_of_lookup_1 Hno.
  unfold destroy_join.
  do 3 (rewrite bind_assoc; rewrite (bind_ret _ _ _ _ _ (sem_destroy_ret _ _ _ _ Hp));
        change (negb (0 =? 0)) with false; cbv iota; rewrite bind_mret).
  erewrite bind_ret; [|eapply fmap_ret, load_pool_ret; exact Hp].
  rewrite Hn, Nat2Z.id.
  apply (join_loop_block w tp p ths ts Hp Hths Hts (length ts) 0%nat); [lia|].
  exists i, tid. split_and!; try done; [lia|]. by apply lookup_lt_Some in Hi.
Qed.

(** ** The workers of a pool *)

Lemma filter_exited_nil (E : list Z) (P : Z * option positive → Prop)
    `{!∀ x, Decision (P x)} (sp : list (Z * option positive)) :
  Forall (λ x, x.1 ∈ E) sp → filter (λ tid, tid ∉ E) (filter P sp).*1 = [].
Proof.
  induction 1 as [|x sp Hx _ IH]; [done|].
  rewrite filter_cons. case_decide; [|done].
  rewrite fmap_cons, filter_cons_False by (intros Hn; by apply Hn). done.
Qed.

Lemma filter_started tp (ts : list Z) :
  filter (λ x : Z * option positive, x.2 = Some tp) ((λ tid, (tid, Some tp)) <$> ts)
  = (λ tid, (tid, Some tp)) <$> ts.
Proof.
  induction ts as [|t ts IH]; [done|].
  rewrite fmap_cons, filter_cons_True by done. by rewrite IH.
Qed.

Lemma fst_started (tp : positive) (ts : list Z) :
  ((λ tid, (tid, Some tp)) <$> ts).*1 = ts.
Proof. induction ts as [|t ts IH]; [done|]. rewrite !fmap_cons. by rewrite IH. Qed.

Lemma filter_alive (E ts : list Z) :
  Forall (λ tid, tid ∉ E) ts → filter (λ tid, tid ∉ E) ts = ts.
Proof.
  induction 1 as [|t ts Ht _ IH]; [done|]. rewrite filter_cons_True by done. by rewrite IH.
Qed.

Lemma workers_of_started w tp sp ts :
  spawned w = sp ++ ((λ tid, (tid, Some tp)) <$> ts) →
  Forall (λ x, x.1 ∈ exited w) sp → Forall (λ tid, tid ∉ exited w) ts →
  workers_of w tp = ts.
Proof.
  intros Hsp Hold Hnew. unfold workers_of.
  rewrite Hsp, filter_app, fmap_app, filter_app.
  rewrite filter_exited_nil by done. rewrite filter_started, fst_started.
  by apply filter_alive.
Qed.

Lemma fresh_ids_alive w n :
  Forall (λ tid, tid ≤ Z.of_nat (length (spawned w))) (exited w) →
  Forall (λ tid, tid ∉ exited w) (fresh_ids (length (spawned w)) n).
Proof.
  intros Hex. apply Forall_forall. intros tid Hin Hx.
  unfold fresh_ids in Hin. apply list_elem_of_fmap in Hin as (i & -> & Hi).
  apply elem_of_seq in Hi.
  pose proof (proj1 (Forall_forall _ _) Hex _ Hx) as Hle. simpl in Hle. lia.
Qed.

(** * Properties of the specification *)

(** C1: the job queue is strict FIFO.  [thpool_jobqueue_add] links the new
    job at the head, [thpool_jobqueue_peek] followed by
    [thpool_jobqueue_removelast] serves the tail; for every sequence of
    enqueues and dequeues run on a well-formed queue, the dequeues that succeed
    return, in order, the jobs that were in the queue (oldest first) followed
    by the jobs enqueued: the k-th successful dequeue returns the k-th job
    submitted, and what was submitted and not served is still queued, in
    order. *)
Theorem jobqueue_fifo w tp js ops :
  queue_rep w tp js →
  enq_fresh js ops →
  Forall (is_job (heap w)) (enqueued ops) →
  Z.of_nat (length js + length (enqueued ops)) ≤ INT_MAX →
  ∃ served w' js',
    run_ops (Some tp) ops w = Ret served w' ∧
    queue_rep w' tp js' ∧
    Some <$> (rev js ++ enqueued ops) = served ++ (Some <$> rev js') ∧
    ∀ (k : nat) job_p, served !! k = Some job_p →
      (Some <$> (rev js ++ enqueued ops)) !! k = Some job_p.
Proof.
  intros Hrep Hfresh Hjobs Hmax.
  destruct (run_ops_fifo tp ops w js Hrep Hfresh) as (served & w' & js' & Hrun & Hrep' & Hfifo).
  { intros l Hl. by eapply Forall_forall in Hjobs. }
  { done. }
  exists served, w', js'. split_and!; try done.
  intros k job_p Hk. rewrite Hfifo. by apply lookup_app_l_Some.
Qed.

Lemma jobqueue_fifo_witness :
  ∃ served w' js',
    run_ops (Some 1%positive) [Enq 6%positive; Deq; Deq; Deq; Deq] w_two_jobs
      = Ret served w' ∧
    queue_rep w' 1%positive js' ∧
    Some <$> (rev [5%positive; 4%positive] ++ [6%positive])
      = served ++ (Some <$> rev js') ∧
    ∀ (k : nat) job_p, served !! k = Some job_p →
      (Some <$> (rev [5%positive; 4%positive] ++ [6%positive])) !! k = Some job_p.
Proof.
  apply (jobqueue_fifo w_two_jobs 1%positive [5%positive; 4%positive]
           [Enq 6%positive; Deq; Deq; Deq; Deq]).
  - apply queue_repb_sound. vm_compute. reflexivity.
  - apply (bool_decide_unpack _). vm_compute. reflexivity.
  - apply (bool_decide_unpack _). vm_compute. reflexivity.
  - vm_compute. discriminate.
Defined.

(** The run of the witness, evaluated: jobs 4, 5 and 6 are served in the order
    they were submitted, and the fourth dequeue finds the queue empty. *)
Example jobqueue_fifo_run :
  ∃ w', run_ops (Some 1%positive) [Enq 6%positive; Deq; Deq; Deq; Deq] w_two_jobs
        = Ret [Some 4%positive; Some 5%positive; Some 6%positive] w'.
Proof. eexists. vm_compute. reflexivity. Qed.

(** C2: the queue invariant.  [thpool_jobqueue_init] establishes the shape
    [queue_rep] of an empty queue; on every state of that shape the invariant
    of the data model holds ([jobsN] is not negative and counts the jobs
    linked from the head, both ends are null iff [jobsN] is 0, both ends are
    the same job iff [jobsN] is 1), and [thpool_jobqueue_add] (of an allocated
    job that is not linked, below [INT_MAX] jobs), [thpool_jobqueue_removelast]
    and [thpool_jobqueue_empty] return in a state of that shape again. *)
Theorem queue_invariant_preserved :
  (∀ w tp w', thpool_jobqueue_init (Some tp) w = Ret 0 w' →
     queue_rep w' tp [] ∧ queue_invariant w' tp) ∧
  (∀ w tp js, queue_rep w tp js →
     queue_invariant w tp ∧
     (∀ newjob, is_job (heap w) newjob → newjob ∉ js → Z.of_nat (length js) < INT_MAX →
        ∃ w', thpool_jobqueue_add (Some tp) (Some newjob) w = Ret tt w' ∧
              queue_rep w' tp (newjob :: js) ∧ queue_invariant w' tp) ∧
     (∃ r w', thpool_jobqueue_removelast (Some tp) w = Ret r w' ∧
              queue_rep w' tp (removelast js) ∧ queue_invariant w' tp) ∧
     (∃ w', thpool_jobqueue_empty (Some tp) w = Ret tt w' ∧
            queue_rep w' tp [] ∧ queue_invariant w' tp)).
Proof.
  split.
  - intros w tp w' Hinit.
    assert (Hrep : queue_rep w' tp []); [|split; [done|by eapply rep_invariant]].
    destruct (jobqueue_init_pool _ _ _ _ Hinit) as [p Hp].
    destruct (decide (malloc_env w !! 0%nat = Some false)) as [He|He].
    + rewrite (jobqueue_init_fail _ _ _ Hp He) in Hinit. done.
    + destruct (jobqueue_init_ok _ _ _ Hp He) as (jq & Hjq & Hrun).
      rewrite Hrun in Hinit. injection Hinit as <-.
      assert (tp ≠ jq) by congruence.
      eexists _, jq, _. simpl.
      split_and!; [solve_lookup|done|solve_lookup|done|done|done|done|constructor|].
      intros i l' Hl'. by destruct i.
  - intros w tp js Hrep. split_and!.
    + by eapply rep_invariant.
    + intros newjob Hjob Hfresh Hlt.
      destruct (add_preserves w tp js newjob Hrep Hjob Hfresh Hlt) as (w' & Hrun & Hrep' & _).
      exists w'. split_and!; [done|done|by eapply rep_invariant].
    + destruct (snoc_cases js) as [->|(js' & t & ->)].
      * exists (-1), w. split_and!; [by apply removelast_empty|done|by eapply rep_invariant].
      * destruct (removelast_snoc w tp js' t Hrep) as (w' & Hrun & Hrep' & _).
        exists 0, w'. rewrite removelast_snoc_list.
        split_and!; [done|done|by eapply rep_invariant].
    + destruct (empty_spec w tp js Hrep) as (w' & p & jq & Hrun & Hrep' & _).
      exists w'. split_and!; [done|done|by eapply rep_invariant].
Qed.

Lemma queue_invariant_preserved_witness :
  (∃ w', thpool_jobqueue_init (Some 1%positive) w_idle = Ret 0 w' ∧
         queue_invariant w' 1%positive) ∧
  queue_invariant w_two_jobs 1%positive ∧
  (∃ w', thpool_jobqueue_add (Some 1%positive) (Some 6%positive) w_two_jobs = Ret tt w' ∧
         queue_rep w' 1%positive [6%positive; 5%positive; 4%positive] ∧
         queue_invariant w' 1%positive).
Proof.
  destruct queue_invariant_preserved as [Hinit Hops].
  assert (Hrep : queue_rep w_two_jobs 1%positive [5%positive; 4%positive]).
  { apply queue_repb_sound. vm_compute. reflexivity. }
  destruct (Hops _ _ _ Hrep) as (Hinv & Hadd & _).
  split_and!.
  - assert (∃ w', thpool_jobqueue_init (Some 1%positive) w_idle = Ret 0 w') as [w' Hrun]
      by (eexists; vm_compute; reflexivity).
    exists w'. split; [exact Hrun|]. exact (proj2 (Hinit _ _ _ Hrun)).
  - exact Hinv.
  - apply Hadd.
    + apply (bool_decide_unpack _). vm_compute. reflexivity.
    + apply (bool_decide_unpack _). vm_compute. reflexivity.
    + vm_compute. reflexivity.
Defined.

(** C3: on every well-formed queue [thpool_jobqueue_empty] returns, having
    freed exactly the jobs that were queued, executed none, and left the
    queue with both ends null and [jobsN] 0.  On an empty queue it changes
    nothing, and running it once more changes nothing either. *)
Theorem jobqueue_empty_drains w tp js :
  queue_rep w tp js →
  ∃ w' p jq,
    thpool_jobqueue_empty (Some tp) w = Ret tt w' ∧
    heap w !! tp = Some (BPool p) ∧ jobqueue p = Some jq ∧
    (∀ l, l ∈ js → heap w' !! l = None) ∧
    (∀ l, l ∉ js → l ≠ jq → heap w' !! l = heap w !! l) ∧
    heap w' !! jq = Some (BQueue (JobQueue NULL NULL 0)) ∧
    executed w' = executed w ∧
    (js = [] → w' = w) ∧
    thpool_jobqueue_empty (Some tp) w' = Ret tt w'.
Proof.
  intros Hrep.
  destruct (empty_spec w tp js Hrep)
    as (w' & p & jq & Hrun & Hrep' & Hp & Hjq & Hq' & Hgone & Hsame & Hw' & Hnil).
  exists w', p, jq. split_and!; try done.
  - by rewrite Hw'.
  - destruct (empty_spec w' tp [] Hrep')
      as (w2 & _ & _ & Hrun' & _ & _ & _ & _ & _ & _ & _ & Hid).
    by rewrite Hrun', Hid.
Qed.

Lemma jobqueue_empty_drains_witness :
  ∃ w' p jq,
    thpool_jobqueue_empty (Some 1%positive) w_two_jobs = Ret tt w' ∧
    heap w_two_jobs !! 1%positive = Some (BPool p) ∧ jobqueue p = Some jq ∧
    (∀ l, l ∈ [5%positive; 4%positive] → heap w' !! l = None) ∧
    (∀ l, l ∉ [5%positive; 4%positive] → l ≠ jq → heap w' !! l = heap w_two_jobs !! l) ∧
    heap w' !! jq = Some (BQueue (JobQueue NULL NULL 0)) ∧
    executed w' = executed w_two_jobs ∧
    ([5%positive; 4%positive] = [] → w' = w_two_jobs) ∧
    thpool_jobqueue_empty (Some 1%positive) w' = Ret tt w'.
Proof.
  apply (jobqueue_empty_drains w_two_jobs 1%positive [5%positive; 4%positive]).
  apply queue_repb_sound. vm_compute. reflexivity.
Defined.

(** C4: [thpool_jobqueue_removelast] returns -1 exactly when [jobsN] is 0, and
    then changes nothing.  On a well-formed queue of one job or more it
    returns 0, unlinks the tail job (the oldest) without freeing it, leaves
    the other jobs linked in order with the ends set for the new size, and
    [jobsN] one less. *)
Theorem removelast_result_and_relink :
  (∀ tp_p w r w', thpool_jobqueue_removelast tp_p w = Ret r w' →
     ∃ q, queue_get tp_p w = Ret q w ∧ (r = -1 ↔ jobsN q = 0) ∧ (r = -1 → w' = w)) ∧
  (∀ w tp js, queue_rep w tp js →
     (js = [] → thpool_jobqueue_removelast (Some tp) w = Ret (-1) w) ∧
     (∀ js' t, js = js' ++ [t] →
        ∃ w' q q', thpool_jobqueue_removelast (Some tp) w = Ret 0 w' ∧
          queue_rep w' tp js' ∧
          heap w' !! t = heap w !! t ∧
          the_queue w tp = Some q ∧ the_queue w' tp = Some q' ∧
          tail q = Some t ∧ jobsN q' = jobsN q - 1 ∧
          head q' = js' !! 0%nat ∧ tail q' = last js')).
Proof.
  split.
  - intros tp_p w r w' Hrun.
    destruct (removelast_result _ _ _ _ Hrun) as (q & Hget & [(Hn & -> & ->)|(Hn & ->)]).
    + exists q. split_and!; done.
    + exists q. split_and!; [done|split; [done|by intros ?]|done].
  - intros w tp js Hrep. split.
    + intros ->. by apply removelast_empty.
    + intros js' t ->.
      destruct (removelast_snoc w tp js' t Hrep) as (w' & Hrun & Hrep' & Ht & _).
      destruct Hrep as (p & jq & q & Hp & Hjq & Hq & Hhd & Htl & Hn & _).
      pose proof Hrep' as (p' & jq' & q' & Hp' & Hjq' & Hq' & Hhd' & Htl' & Hn' & Hrest).
      exists w', q, q'. split_and!; try done.
      * by eapply the_queue_rep.
      * by eapply the_queue_rep.
      * by rewrite Htl, last_snoc.
      * rewrite Hn, Hn', length_app. simpl. lia.
Qed.

Lemma removelast_result_and_relink_witness :
  (∃ q, queue_get (Some 1%positive) w_idle = Ret q w_idle ∧ (-1 = -1 ↔ jobsN q = 0)) ∧
  thpool_jobqueue_removelast (Some 1%positive) w_idle = Ret (-1) w_idle ∧
  (∃ w', thpool_jobqueue_removelast (Some 1%positive) w_two_jobs = Ret 0 w' ∧
         queue_rep w' 1%positive [5%positive]).
Proof.
  destruct removelast_result_and_relink as [Hres Hwf].
  assert (Hidle : queue_rep w_idle 1%positive []).
  { apply queue_repb_sound. vm_compute. reflexivity. }
  assert (Htwo : queue_rep w_two_jobs 1%positive ([5%positive] ++ [4%positive])).
  { apply queue_repb_sound. vm_compute. reflexivity. }
  split_and!.
  - destruct (Hres (Some 1%positive) w_idle (-1) w_idle) as (q & Hq & Hiff & _).
    + vm_compute. reflexivity.
    + by exists q.
  - by apply (Hwf _ _ _ Hidle).
  - destruct (proj2 (Hwf _ _ _ Htwo) [5%positive] 4%positive eq_refl)
      as (w' & q & q' & Hrun & Hrep & _).
    by exists w'.
Defined.

(** C5, as amended: [thpool_init] clamps the thread count to a minimum of 1.
    A count of 0 or less behaves as a count of 1; when a pool is returned,
    the stored thread count, the length of the thread-handle array and the
    initial value of [nEmpty] all equal [max threadsN 1], [pthread_create] is
    attempted that many times, and the number of workers started is that
    number less the attempts that failed (so it equals [max threadsN 1] when
    no [pthread_create] fails).  The attempts are counted by what each one
    leaves behind: every call of [pthread_create] takes one entry of the
    script [create_env], and every call that fails prints one message. *)
Theorem thpool_init_clamps n w :
  (n ≤ 0 → thpool_init n w = thpool_init 1 w) ∧
  (∀ tp w', thpool_init n w = Ret (Some tp) w' →
     ∃ p ths ts,
       heap w' !! tp = Some (BPool p) ∧
       threadsN p = Z.max n 1 ∧
       threads p = Some ths ∧ heap w' !! ths = Some (BThreads ts) ∧
       Z.of_nat (length ts) = Z.max n 1 ∧
       nEmpty p = Z.max n 1 ∧
       Z.of_nat (length (spawned w') - length (spawned w))
         = Z.max n 1 - Z.of_nat (failures (Z.to_nat (Z.max n 1)) (create_env w)) ∧
       (failures (Z.to_nat (Z.max n 1)) (create_env w) = O →
        Z.of_nat (length (spawned w') - length (spawned w)) = Z.max n 1) ∧
       create_env w' = drop (Z.to_nat (Z.max n 1)) (create_env w) ∧
       stderr w' = stderr w ++ replicate (failures (Z.to_nat (Z.max n 1)) (create_env w))
                                 "created thread pool failed %s\n").
Proof.
  split.
  - intros Hn. unfold thpool_init. cbv zeta. rewrite !clamp_max.
    by replace (Z.max n 1) with (Z.max 1 1) by lia.
  - intros tp w' Hrun.
    destruct (decide (failures 3 (malloc_env w) = O)) as [Hf|Hf].
    + destruct (thpool_init_success n w Hf)
        as (tp0 & ths & jq & ts & w0 & Hrun0 & _ & _ & _ & _ & _ & _ &
            Hp & _ & Hths & Hlen & _ & Hsp & _).
      destruct (thpool_init_full n w Hf)
        as (tp1 & _ & _ & _ & w1 & Hrun1 & _ & _ & Hce & Herr & _).
      rewrite Hrun0 in Hrun1. injection Hrun1 as <- <-.
      rewrite Hrun0 in Hrun. injection Hrun as <- <-.
      pose proof (failures_le (Z.to_nat (Z.max n 1)) (create_env w)) as Hle.
      exists (pool_ready ths jq (Z.max n 1)), ths, ts.
      split_and!; try done; lia.
    + destruct (thpool_init_failure n w Hf) as (w0 & msg & Hrun0 & _).
      rewrite Hrun0 in Hrun. done.
Qed.

Lemma thpool_init_clamps_witness :
  thpool_init (-3) w_boot = thpool_init 1 w_boot ∧
  (∃ tp w' p, thpool_init (-3) w_boot = Ret (Some tp) w' ∧
     heap w' !! tp = Some (BPool p) ∧ threadsN p = 1 ∧ nEmpty p = 1 ∧
     Z.of_nat (length (spawned w') - length (spawned w_boot)) = 1) ∧
  (∃ tp w', thpool_init 2 w_no_thread = Ret (Some tp) w' ∧
     Z.of_nat (length (spawned w') - length (spawned w_no_thread)) = 1 ∧
     create_env w' = [] ∧
     stderr w' = ["created thread pool failed %s\n"]).
Proof.
  destruct (thpool_init_clamps (-3) w_boot) as [Hclamp Hpool].
  split; [apply Hclamp; lia|]. split.
  - assert (∃ tp w', thpool_init (-3) w_boot = Ret (Some tp) w') as (tp & w' & Hrun)
      by (eexists _, _; vm_compute; reflexivity).
    destruct (Hpool tp w' Hrun) as (p & ths & ts & Hp & Hn & _ & _ & _ & Hne & _ & Hsp & _).
    exists tp, w', p. split_and!; [done|done|done|done|].
    apply Hsp. vm_compute. reflexivity.
  - assert (∃ tp w', thpool_init 2 w_no_thread = Ret (Some tp) w') as (tp & w' & Hrun)
      by (eexists _, _; vm_compute; reflexivity).
    destruct (proj2 (thpool_init_clamps 2 w_no_thread) tp w' Hrun)
      as (p & ths & ts & _ & _ & _ & _ & _ & _ & Hsp & _ & Hce & Herr).
    exists tp, w'. split_and!; [done|exact Hsp|exact Hce|exact Herr].
Defined.

(** C5 as stated fails: when the first [pthread_create] of [thpool_init 2]
    fails, a pool is returned whose stored thread count is 2 but only one
    worker has been started. *)
Lemma thpool_init_spawned_counterexample :
  ∃ tp w' p,
    thpool_init 2 w_no_thread = Ret (Some tp) w' ∧
    heap w' !! tp = Some (BPool p) ∧
    threadsN p = Z.max 2 1 ∧
    Z.of_nat (length (spawned w') - length (spawned w_no_thread)) ≠ Z.max 2 1.
Proof.
  eexists _, _, _. split; [vm_compute; reflexivity|].
  split; [vm_compute; reflexivity|]. split; [reflexivity|]. vm_compute. discriminate.
Qed.

(** C6: when one of the three allocations of [thpool_init] fails (the pool,
    the thread-handle array or the job queue), [thpool_init] returns [NULL]
    with the heap as it was before the call: what had been allocated has been
    freed, no pool is left and no worker has been started.  One diagnostic has
    been printed.  A pool is returned only when none of the three fails. *)
Theorem thpool_init_alloc_failure n w :
  (init_alloc_fails w = true →
   ∃ w' msg, thpool_init n w = Ret NULL w' ∧
     heap w' = heap w ∧ spawned w' = spawned w ∧ stderr w' = stderr w ++ [msg]) ∧
  (∀ tp w', thpool_init n w = Ret (Some tp) w' → init_alloc_fails w = false).
Proof.
  unfold init_alloc_fails. split.
  - intros Hf. destruct (thpool_init_failure n w) as (w' & msg & Hrun & Hh & Hs & He & _).
    + intros E. by rewrite E in Hf.
    + by exists w', msg.
  - intros tp w' Hrun. destruct (decide (failures 3 (malloc_env w) = O)) as [Hf|Hf].
    + by rewrite Hf.
    + destruct (thpool_init_failure n w Hf) as (w0 & msg & Hrun0 & _).
      rewrite Hrun0 in Hrun. done.
Qed.

Lemma thpool_init_alloc_failure_witness :
  (∃ w' msg, thpool_init 4 w_no_memory = Ret NULL w' ∧
     heap w' = heap w_no_memory ∧ spawned w' = spawned w_no_memory ∧
     stderr w' = stderr w_no_memory ++ [msg]) ∧
  init_alloc_fails w_boot = false.
Proof.
  split.
  - apply (proj1 (thpool_init_alloc_failure 4 w_no_memory)). vm_compute. reflexivity.
  - assert (∃ tp w', thpool_init 4 w_boot = Ret (Some tp) w') as (tp & w' & Hrun)
      by (eexists _, _; vm_compute; reflexivity).
    exact (proj2 (thpool_init_alloc_failure 4 w_boot) tp w' Hrun).
Defined.

(** The diagnostics of the three failure paths, evaluated. *)
Example thpool_init_no_queue :
  ∃ w', thpool_init 4 w_no_memory = Ret NULL w' ∧
        stderr w' = ["thpool_init(): Could not allocate memory for job queue\n"].
Proof. eexists. split; vm_compute; reflexivity. Qed.

(** C7: a worker that has been woken from its wait on [nStored] and reads
    [thpool_keepalive] as 0 at line 90 goes back to the loop test with the
    world untouched; whatever other threads do in between (they never set the
    flag again), the loop test at line 84 then sends it to the [return].  In
    every interleaving from that point the worker executes at most lines 90,
    84 and 110: it takes no lock, does not peek or remove, and runs no job.
    The assumption on the other threads is met by the code: every function
    of [thpool.c] leaves the flag alone, and [thpool_destroy] clears it. *)
Theorem worker_exits_after_wakeup tp_p w s :
  pc s = L90 → thpool_keepalive w = 0 →
  thpool_thread_do tp_p s w = Ret (goto L84 s) w ∧
  (∀ w1, keepalive_rely w w1 →
     thpool_thread_do tp_p (goto L84 s) w1 = Ret (goto L110 s) w1) ∧
  (∀ tr c', interleaved tp_p (w, s) tr c' → tr `prefix_of` [L90; L84; L110]) ∧
  (∀ p f a w0 r w1, thpool_add_work p f a w0 = Ret r w1 → keepalive_rely w0 w1) ∧
  (∀ p s0 w0 s1 w1, thpool_thread_do p s0 w0 = Ret s1 w1 → keepalive_rely w0 w1) ∧
  (∀ n w0 r w1, thpool_init n w0 = Ret r w1 → keepalive_rely w0 w1) ∧
  (∀ p w0 w1, thpool_destroy p w0 = Ret tt w1 → keepalive_rely w0 w1).
Proof.
  intros Hpc Hk. split_and!.
  - by apply thread_do_L90_dead.
  - intros w1 Hrely.
    by rewrite (thread_do_L84_dead tp_p (goto L84 s) w1 eq_refl (Hrely Hk)).
  - intros tr c' Hrun.
    pose proof (interleaved_dead _ _ _ _ Hrun) as Hpre. simpl in Hpre.
    rewrite Hpc in Hpre. apply Hpre; [done|set_solver].
  - intros p f a w0 r w1 Hrun. eapply keeps_rely; [apply keeps_thpool_add_work|done].
  - intros p s0 w0 s1 w1 Hrun. eapply keeps_rely; [apply keeps_thpool_thread_do|done].
  - intros n w0 r w1 Hrun. eapply keeps_rely; [apply keeps_thpool_init|done].
  - intros p w0 w1 Hrun _. by eapply thpool_destroy_clears.
Qed.

Lemma worker_exits_after_wakeup_witness :
  thpool_thread_do (Some 1%positive) (worker_at L90) (with_keepalive 0 w_two_jobs)
    = Ret (worker_at L84) (with_keepalive 0 w_two_jobs) ∧
  thpool_thread_do (Some 1%positive) (worker_at L84) (with_keepalive 0 w_two_jobs)
    = Ret (worker_at L110) (with_keepalive 0 w_two_jobs) ∧
  [L90; L84; L110] `prefix_of` [L90; L84; L110].
Proof.
  destruct (worker_exits_after_wakeup (Some 1%positive) (with_keepalive 0 w_two_jobs)
              (worker_at L90)) as (H90 & H84 & Hrun & _).
  - reflexivity.
  - reflexivity.
  - split_and!.
    + exact H90.
    + apply H84. intros _. reflexivity.
    + apply (Hrun [L90; L84; L110]
               (with_exited (λ l, l ++ [1]) (with_keepalive 0 w_two_jobs), worker_at Returned)).
      eapply (interleaved_own _ _ _ (worker_at L90)); [reflexivity|].
      eapply (interleaved_other _ _ (with_keepalive 0 w_two_jobs)); [intros _; reflexivity|].
      eapply (interleaved_own _ _ _ (worker_at L84)); [reflexivity|].
      eapply (interleaved_own _ _ _ (worker_at L110)); [reflexivity|].
      apply interleaved_done.
Defined.

(** C8: whenever [thpool_add_work] returns, it returns 0.  When the
    allocation of the job fails it does not return: it prints its diagnostic
    on stderr and ends the process with exit status 1, having changed nothing
    in the heap. *)
Theorem thpool_add_work_result tp_p function_p arg_p w :
  (∀ r w', thpool_add_work tp_p function_p arg_p w = Ret r w' → r = 0) ∧
  (malloc_env w !! 0%nat = Some false →
   ∃ w', thpool_add_work tp_p function_p arg_p w = Exit 1 w' ∧ 1 ≠ 0 ∧
     stderr w' =
       stderr w ++ ["thpool_add_work(): Could not allocate memory for new job\n"] ∧
     heap w' = heap w).
Proof.
  split.
  - intros r w' Hrun. by eapply add_work_result.
  - intros He. eexists. split; [by apply add_work_malloc_fail|]. done.
Qed.

Lemma thpool_add_work_result_witness :
  (∃ r w', thpool_add_work (Some 1%positive) 9 90 w_idle = Ret r w' ∧ r = 0) ∧
  (∃ w', thpool_add_work (Some 1%positive) 9 90 (with_malloc_env [false] w_idle) = Exit 1 w').
Proof.
  split.
  - assert (∃ r w', thpool_add_work (Some 1%positive) 9 90 w_idle = Ret r w')
      as (r & w' & Hrun) by (eexists _, _; vm_compute; reflexivity).
    exists r, w'. split; [exact Hrun|].
    exact (proj1 (thpool_add_work_result _ _ _ _) r w' Hrun).
  - destruct (proj2 (thpool_add_work_result (Some 1%positive) 9 90
                       (with_malloc_env [false] w_idle))) as (w' & Hrun & _).
    + reflexivity.
    + by exists w'.
Defined.

(** C9: in the pool that [thpool_init] returns, [mutex] is 1, [nEmpty] is the
    clamped thread count and [nStored] is 0.  The workers it has started do
    not disturb these values: in that state a worker at the loop test or at
    its wait on [nStored] changes nothing. *)
Theorem thpool_init_semaphores n w tp w' :
  thpool_init n w = Ret (Some tp) w' →
  ∃ p, heap w' !! tp = Some (BPool p) ∧
       mutex p = 1 ∧ nEmpty p = Z.max n 1 ∧ nStored p = 0 ∧
       ∀ s s1 w1, pc s = L84 ∨ pc s = L85 →
         thpool_thread_do (Some tp) s w' = Ret s1 w1 →
         w1 = w' ∧ (pc s1 = L85 ∨ pc s1 = L110).
Proof.
  intros Hrun.
  destruct (decide (failures 3 (malloc_env w) = O)) as [Hf|Hf].
  - destruct (thpool_init_success n w Hf)
      as (tp0 & ths & jq & ts & w0 & Hrun0 & _ & _ & _ & _ & _ & _ & Hp & _).
    rewrite Hrun0 in Hrun. injection Hrun as <- <-.
    exists (pool_ready ths jq (Z.max n 1)). split_and!; try done.
    intros s s1 w1 Hpc Hstep. by eapply idle_worker_step.
  - destruct (thpool_init_failure n w Hf) as (w0 & msg & Hrun0 & _).
    rewrite Hrun0 in Hrun. done.
Qed.

Lemma thpool_init_semaphores_witness :
  ∃ tp w' p, thpool_init 4 w_boot = Ret (Some tp) w' ∧
    heap w' !! tp = Some (BPool p) ∧
    mutex p = 1 ∧ nEmpty p = Z.max 4 1 ∧ nStored p = 0.
Proof.
  assert (∃ tp w', thpool_init 4 w_boot = Ret (Some tp) w') as (tp & w' & Hrun)
    by (eexists _, _; vm_compute; reflexivity).
  destruct (thpool_init_semaphores 4 w_boot tp w' Hrun) as (p & Hp & Hm & He & Hs & _).
  by exists tp, w', p.
Defined.

(** C10: on a well-formed queue [thpool_jobqueue_peek] returns the tail,
    which is not [NULL] iff [jobsN] is not 0.  A worker at line 98 reads
    [job_p->function] and [job_p->arg] without a test: when the queue is not
    empty, lines 98 to 101 run through, with the tail job's function and
    argument in the buffers and that job unlinked; when the queue is empty,
    the read at line 99 dereferences [NULL]. *)
Theorem peek_deref_safe w tp js s :
  queue_rep w tp js → pc s = L98 →
  thpool_jobqueue_peek (Some tp) w = Ret (last js) w ∧
  (∃ q, the_queue w tp = Some q ∧ tail q = last js ∧ (tail q ≠ NULL ↔ jobsN q ≠ 0)) ∧
  (js ≠ [] →
   ∃ t j w', last js = Some t ∧ heap w !! t = Some (BJob j) ∧
     thread_steps 4 (Some tp) s w
       = Ret (Frame (self s) L103 (Some t) (function j) (arg j)) w' ∧
     queue_rep w' tp (removelast js)) ∧
  (js = [] → thread_steps 2 (Some tp) s w = Fault).
Proof.
  intros Hrep Hpc. split_and!.
  - by apply peek_spec.
  - destruct Hrep as (p & jq & q & Hp & Hjq & Hq & Hhd & Htl & Hn & _).
    exists q. split_and!; [by eapply the_queue_rep|done|].
    rewrite Htl, Hn. destruct (snoc_cases js) as [->|(js' & t & ->)].
    + simpl. split; [done|lia].
    + rewrite last_snoc, length_app. simpl. split; [lia|done].
  - intros Hne. destruct (snoc_cases js) as [->|(js' & t & ->)]; [done|].
    destruct (critical_section_safe w tp js' t s Hrep Hpc) as (j & w' & Hj & Hrep' & Hrun).
    exists t, j, w'. rewrite last_snoc, removelast_snoc_list. done.
  - intros ->. by apply critical_section_fault.
Qed.

Lemma peek_deref_safe_witness :
  thpool_jobqueue_peek (Some 1%positive) w_two_jobs = Ret (Some 4%positive) w_two_jobs ∧
  (∃ w', thread_steps 4 (Some 1%positive) (worker_at L98) w_two_jobs
           = Ret (Frame 1 L103 (Some 4%positive) 7 70) w') ∧
  thread_steps 2 (Some 1%positive) (worker_at L98) w_idle = Fault.
Proof.
  assert (Htwo : queue_rep w_two_jobs 1%positive [5%positive; 4%positive]).
  { apply queue_repb_sound. vm_compute. reflexivity. }
  assert (Hidle : queue_rep w_idle 1%positive []).
  { apply queue_repb_sound. vm_compute. reflexivity. }
  destruct (peek_deref_safe _ _ _ (worker_at L98) Htwo eq_refl) as (Hpeek & _ & Hsafe & _).
  destruct (peek_deref_safe _ _ _ (worker_at L98) Hidle eq_refl) as (_ & _ & _ & Hfault).
  split_and!.
  - exact Hpeek.
  - destruct Hsafe as (t & j & w' & Ht & Hj & Hrun & _); [done|].
    exists w'. rewrite Hrun. simpl in Ht. injection Ht as <-.
    revert Hj. vm_compute. by intros [= <-].
  - by apply Hfault.
Defined.

(** * Further properties of the code *)

(** X1: on a pool that no thread is operating on, with a free slot and a
    [malloc] and two waits that succeed, [thpool_add_work] returns 0 having
    allocated one new job, stored the callable and the argument in it and
    linked it at the head of the queue.  One slot is taken, one more job is
    counted as stored, the lock is free again, nothing was executed or
    printed, and the handle array and the other fields of the pool are as
    before. *)
Theorem thpool_add_work_enqueues w tp js fas c f a :
  pool_rep w tp js fas c → 0 < c →
  malloc_env w !! 0%nat ≠ Some false →
  semwait_env w !! 0%nat ≠ Some false → semwait_env w !! 1%nat ≠ Some false →
  ∃ l w', heap w !! l = None ∧
    thpool_add_work (Some tp) f a w = Ret 0 w' ∧
    pool_rep w' tp (l :: js) ((f, a) :: fas) (c - 1) ∧
    dom (heap w') = {[l]} ∪ dom (heap w) ∧
    executed w' = executed w ∧ stderr w' = stderr w ∧
    thpool_keepalive w' = thpool_keepalive w ∧
    malloc_env w' = List.tl (malloc_env w) ∧
    semwait_env w' = List.tl (List.tl (semwait_env w)) ∧
    (∀ ths jq ts, pool_parts w tp ths jq ts → pool_parts w' tp ths jq ts).
Proof. exact (add_work_spec w tp js fas c f a). Qed.

Lemma thpool_add_work_enqueues_witness :
  ∃ l w', heap w_idle !! l = None ∧
    thpool_add_work (Some 1%positive) 7 70 w_idle = Ret 0 w' ∧
    pool_rep w' 1%positive [l] [(7, 70)] 1.
Proof.
  destruct (thpool_add_work_enqueues w_idle 1%positive [] [] 2 7 70)
    as (l & w' & Hl & Hrun & Hrep & _).
  - apply pool_repb_sound. vm_compute. reflexivity.
  - lia.
  - vm_compute. discriminate.
  - vm_compute. discriminate.
  - vm_compute. discriminate.
  - exists l, w'. split_and!; [exact Hl|exact Hrun|exact Hrep].
Defined.

(** X2: back-pressure.  When no slot is empty and the wait of line 131 is
    not interrupted, [thpool_add_work] does not return: it blocks in that
    wait. *)
Theorem thpool_add_work_backpressure w tp js fas f a :
  pool_rep w tp js fas 0 →
  malloc_env w !! 0%nat ≠ Some false → semwait_env w !! 0%nat ≠ Some false →
  thpool_add_work (Some tp) f a w = Block.
Proof. exact (add_work_blocks w tp js fas f a). Qed.

Lemma thpool_add_work_backpressure_witness :
  thpool_add_work (Some 1%positive) 9 90 w_two_jobs = Block.
Proof.
  apply (thpool_add_work_backpressure w_two_jobs 1%positive [5; 4]%positive
           [(7, 71); (7, 70)] 9 90).
  - apply pool_repb_sound. vm_compute. reflexivity.
  - vm_compute. discriminate.
  - vm_compute. discriminate.
Defined.

(** X3: the result of [sem_wait(&tp_p->nEmpty)] at line 131 is not looked
    at.  When that wait is interrupted the job is queued all the same,
    without a slot having been taken: the queue grows by one while [nEmpty]
    stays as it was, also when it was 0. *)
Theorem add_work_ignores_interrupted_slot_wait w tp js fas c f a :
  pool_rep w tp js fas c →
  malloc_env w !! 0%nat ≠ Some false →
  semwait_env w !! 0%nat = Some false → semwait_env w !! 1%nat ≠ Some false →
  c + Z.of_nat (length js) < INT_MAX →
  ∃ l w', heap w !! l = None ∧
    thpool_add_work (Some tp) f a w = Ret 0 w' ∧
    pool_rep w' tp (l :: js) ((f, a) :: fas) c.
Proof.
  intros Hpool Hm Hs0 Hs1 Hlt.
  pose proof Hpool as (_ & _ & p & _ & _ & _ & _ & Hc0 & Hbound).
  destruct (add_work_run w tp js fas c f a Hpool Hm)
    as (l & w' & p' & Hl & Hrun & Hrep' & Hpay' & Hp' & Hne' & Hmx' & Hns' & Hrest);
    [by left|lia|].
  rewrite decide_True in Hne' by done. rewrite decide_False in Hmx' by done.
  exists l, w'. split_and!; try done.
  split_and!; [done|done|].
  exists p'. split_and!; try done; simpl length; lia.
Qed.

Lemma add_work_ignores_interrupted_slot_wait_witness :
  ∃ l w', heap w_two_jobs !! l = None ∧
    thpool_add_work (Some 1%positive) 9 90 (with_semwait_env [false] w_two_jobs) = Ret 0 w' ∧
    pool_rep w' 1%positive (l :: [5; 4]%positive) [(9, 90); (7, 71); (7, 70)] 0.
Proof.
  destruct (add_work_ignores_interrupted_slot_wait (with_semwait_env [false] w_two_jobs) 1%positive
              [5; 4]%positive [(7, 71); (7, 70)] 0 9 90)
    as (l & w' & Hl & Hrun & Hrep).
  - apply pool_repb_sound. vm_compute. reflexivity.
  - vm_compute. discriminate.
  - reflexivity.
  - vm_compute. discriminate.
  - vm_compute. reflexivity.
  - exists l, w'. split_and!; [exact Hl|exact Hrun|exact Hrep].
Defined.

(** X4: the result of [sem_wait(&tp_p->mutex)] at line 132 is not looked at
    either.  When another thread holds the lock and the wait of the
    submitter is interrupted, [thpool_add_work] links its job into the queue
    without the lock and returns 0, and its post of line 136 leaves the lock
    at 1: the lock is free although the thread that took it has not released
    it. *)
Theorem add_work_ignores_interrupted_lock_wait w tp js fas c f a :
  pool_locked w tp js fas c → 0 < c →
  malloc_env w !! 0%nat ≠ Some false →
  semwait_env w !! 0%nat ≠ Some false → semwait_env w !! 1%nat = Some false →
  ∃ l w' p', heap w !! l = None ∧
    thpool_add_work (Some tp) f a w = Ret 0 w' ∧
    pool_rep w' tp (l :: js) ((f, a) :: fas) (c - 1) ∧
    heap w' !! tp = Some (BPool p') ∧ mutex p' = 1.
Proof.
  intros (Hrep & Hpay & p & Hp & Hmx & Hne & Hns & Hc0 & Hbound) Hc Hm Hs0 Hs1.
  assert (H01 : 0 ≤ 0 ≤ 1) by lia.
  assert (Hlen : Z.of_nat (length js) < INT_MAX) by lia.
  destruct (add_work_run_gen w tp js fas c 0 p f a Hrep Hpay Hp Hmx H01 Hne Hns Hc0 Hbound
              Hm (or_intror Hc) (or_introl Hs1) Hlen)
    as (l & w' & p' & Hl & Hrun & Hrep' & Hpay' & Hp' & Hne' & Hmx' & Hns' & _).
  rewrite decide_False in Hne' by done. rewrite decide_True in Hmx' by done.
  exists l, w', p'. split_and!; try done.
  split_and!; [done|done|].
  exists p'. split_and!; try done; simpl length; lia.
Qed.

Lemma add_work_ignores_interrupted_lock_wait_witness :
  ∃ l w' p', heap w_locked !! l = None ∧
    thpool_add_work (Some 1%positive) 7 70 w_locked = Ret 0 w' ∧
    pool_rep w' 1%positive [l] [(7, 70)] 0 ∧
    heap w' !! 1%positive = Some (BPool p') ∧ mutex p' = 1.
Proof.
  apply (add_work_ignores_interrupted_lock_wait w_locked 1%positive [] [] 1 7 70).
  - apply pool_lockedb_sound. vm_compute. reflexivity.
  - lia.
  - vm_compute. discriminate.
  - vm_compute. discriminate.
  - reflexivity.
Defined.

(** X5: one turn of the worker's loop, lines 84 to 107, on a pool that no
    other thread is operating on and whose queue is not empty.  The worker
    takes the oldest job, calls its callable on its argument exactly once,
    frees the job and is back at the loop test; the younger jobs stay
    queued in their order, one slot becomes empty and the lock is free. *)
Theorem worker_turn_runs_oldest w tp js t fas f a c s :
  pool_rep w tp (js ++ [t]) (fas ++ [(f, a)]) c → f ≠ 0 → pc s = L84 →
  thpool_keepalive w ≠ 0 →
  semwait_env w !! 0%nat ≠ Some false → semwait_env w !! 1%nat ≠ Some false →
  ∃ w', thread_steps 12 (Some tp) s w = Ret (Frame (self s) L84 (Some t) f a) w' ∧
    pool_rep w' tp js fas (c + 1) ∧
    heap w' !! t = None ∧ dom (heap w') = dom (heap w) ∖ {[t]} ∧
    executed w' = executed w ++ [(f, a)] ∧ stderr w' = stderr w ∧
    thpool_keepalive w' = thpool_keepalive w ∧
    malloc_env w' = malloc_env w ∧
    semwait_env w' = List.tl (List.tl (semwait_env w)).
Proof. exact (worker_turn_spec w tp js t fas f a c s). Qed.

Lemma worker_turn_runs_oldest_witness :
  ∃ w', thread_steps 12 (Some 1%positive) (worker_at L84) w_two_jobs
          = Ret (Frame 1 L84 (Some 4%positive) 7 70) w' ∧
    pool_rep w' 1%positive [5%positive] [(7, 71)] 1 ∧
    executed w' = [(7, 70)] ∧ heap w' !! 4%positive = None.
Proof.
  destruct (worker_turn_runs_oldest w_two_jobs 1%positive [5%positive] 4%positive [(7, 71)] 7 70 0
              (worker_at L84))
    as (w' & Hrun & Hrep & Hfree & _ & Hex & _).
  - apply pool_repb_sound. vm_compute. reflexivity.
  - lia.
  - reflexivity.
  - vm_compute. discriminate.
  - vm_compute. discriminate.
  - vm_compute. discriminate.
  - exists w'. split_and!; [exact Hrun|exact Hrep|exact Hex|exact Hfree].
Defined.

(** X6: a worker whose wait on [nStored] at line 85 is interrupted prints
    its diagnostic and ends the whole process with exit status 1; it does
    not touch the pool. *)
Theorem worker_exits_on_interrupted_wait tp_p s w :
  pc s = L85 → semwait_env w !! 0%nat = Some false →
  thpool_thread_do tp_p s w =
    Exit 1 (with_stderr (λ l, l ++ ["thpool_thread_do(): Waiting for semaphore"])
             (with_semwait_env (List.tl (semwait_env w)) w)).
Proof.
  intros Hpc He. unfold thpool_thread_do. rewrite Hpc.
  rewrite (bind_ret _ _ _ _ _ (sem_wait_fail _ _ _ He)). reflexivity.
Qed.

Lemma worker_exits_on_interrupted_wait_witness :
  thpool_thread_do (Some 1%positive) (worker_at L85) (with_semwait_env [false] w_idle)
  = Exit 1 (with_stderr (λ l, l ++ ["thpool_thread_do(): Waiting for semaphore"])
             (with_semwait_env [] w_idle)).
Proof.
  apply (worker_exits_on_interrupted_wait (Some 1%positive) (worker_at L85)
           (with_semwait_env [false] w_idle)).
  - reflexivity.
  - reflexivity.
Defined.

(** X7: [thpool_add_work] does not check the callable.  With a null callable
    it returns 0 like with any other, leaving the job queued; the worker
    that takes this job gets through lines 84 to 104 and is at the call of
    line 106 with a null [func_buff], having run nothing, and that call
    faults. *)
Theorem null_callable_faults_worker w tp c a s :
  pool_rep w tp [] [] c → 0 < c → quiet w → thpool_keepalive w ≠ 0 → pc s = L84 →
  ∃ l w1 w2,
    thpool_add_work (Some tp) 0 a w = Ret 0 w1 ∧
    pool_rep w1 tp [l] [(0, a)] (c - 1) ∧
    thread_steps 10 (Some tp) s w1 = Ret (Frame (self s) L106 (Some l) 0 a) w2 ∧
    executed w2 = executed w ∧
    thpool_thread_do (Some tp) (Frame (self s) L106 (Some l) 0 a) w2 = Fault.
Proof.
  intros Hrep Hc [Hqm Hqs] Hk Hpc.
  destruct (add_work_spec w tp [] [] c 0 a Hrep Hc)
    as (l & w1 & Hl & Hrun & Hrep1 & Hd1 & Hex1 & _ & Hk1 & Hm1 & Hs1 & _).
  { by apply no_false_head. }
  { by apply no_false_head. }
  { rewrite <- lookup_tail. by apply no_false_head, tl_no_false. }
  destruct (worker_turn_prefix w1 tp [] l [] 0 a (c - 1) s Hrep1 Hpc)
    as (w2 & Hsteps & _ & _ & _ & _ & _ & Hex2 & _).
  { by rewrite Hk1. }
  { rewrite Hs1. by apply no_false_head, tl_no_false, tl_no_false. }
  { rewrite Hs1. rewrite <- lookup_tail.
    by apply no_false_head, tl_no_false, tl_no_false, tl_no_false. }
  exists l, w1, w2. split_and!; try done.
  by rewrite Hex2, Hex1.
Qed.

Lemma null_callable_faults_worker_witness :
  ∃ l w1 w2,
    thpool_add_work (Some 1%positive) 0 70 w_idle = Ret 0 w1 ∧
    pool_rep w1 1%positive [l] [(0, 70)] 1 ∧
    thread_steps 10 (Some 1%positive) (worker_at L84) w1
      = Ret (Frame 1 L106 (Some l) 0 70) w2 ∧
    executed w2 = executed w_idle ∧
    thpool_thread_do (Some 1%positive) (Frame 1 L106 (Some l) 0 70) w2 = Fault.
Proof.
  apply (null_callable_faults_worker w_idle 1%positive 2 70 (worker_at L84)).
  - apply pool_repb_sound. vm_compute. reflexivity.
  - lia.
  - apply (bool_decide_unpack _). vm_compute. exact I.
  - vm_compute. discriminate.
  - reflexivity.
Defined.

(** X8: submissions and worker turns in any order in which none has to
    wait.  The calls made so far followed by the payloads still queued,
    oldest first, are always the payloads submitted, in submission order:
    every job is run at most once and in the order of submission.  The
    empty slots and the queued jobs add up to the same number throughout,
    and the blocks allocated outside the queue are the same at the end as
    at the start. *)
Theorem pool_serves_fifo tp : ∀ ops w s js fas c,
  pool_rep w tp js fas c → quiet w → thpool_keepalive w ≠ 0 → pc s = L84 →
  never_waits c (Z.of_nat (length js)) ops →
  Forall (λ fa, fa.1 ≠ 0) (fas ++ submitted ops) →
  ∃ s' w' js' fas' c', run_pool (Some tp) s ops w = Ret s' w' ∧
    pool_rep w' tp js' fas' c' ∧ quiet w' ∧ pc s' = L84 ∧
    executed w' ++ rev fas' = executed w ++ rev fas ++ submitted ops ∧
    c' + Z.of_nat (length js') = c + Z.of_nat (length js) ∧
    dom (heap w') ∖ list_to_set js' = dom (heap w) ∖ list_to_set js ∧
    thpool_keepalive w' = thpool_keepalive w.
Proof.
  induction ops as [|[f a|] ops IH]; intros w s js fas c Hrep [Hqm Hqs] Hk Hpc Hok Hfs;
    simpl in Hok.
  - exists s, w, js, fas, c. simpl. rewrite app_nil_r. by split_and!.
  - destruct Hok as (Hc & Hok).
    simpl in Hfs. apply Forall_app in Hfs as [Hfs0 [Hf Hfs1]%Forall_cons].
    destruct (add_work_spec w tp js fas c f a Hrep Hc)
      as (l & w1 & Hl & Hrun & Hrep1 & Hd1 & Hex1 & _ & Hk1 & Hm1 & Hs1 & _).
    { by apply no_false_head. }
    { by apply no_false_head. }
    { rewrite <- lookup_tail. by apply no_false_head, tl_no_false. }
    destruct (IH w1 s (l :: js) ((f, a) :: fas) (c - 1))
      as (s' & w' & js' & fas' & c' & Hrun' & Hrep' & Hq' & Hpc' & Hex' & Hc' & Hd' & Hk');
      try done.
    { split; [rewrite Hm1|rewrite Hs1]; auto using tl_no_false. }
    { by rewrite Hk1. }
    { replace (Z.of_nat (length (l :: js))) with (Z.of_nat (length js) + 1)
        by (simpl length; lia). done. }
    { apply Forall_app. split; [by constructor|done]. }
    exists s', w', js', fas', c'. split_and!; try done.
    + simpl. by rewrite (bind_ret _ _ _ _ _ Hrun).
    + rewrite Hex', Hex1. simpl. by rewrite <- !app_assoc.
    + rewrite Hc'. simpl length. lia.
    + rewrite Hd', Hd1. rewrite list_to_set_cons.
      apply not_elem_of_dom in Hl. by apply difference_add_both.
    + by rewrite Hk', Hk1.
  - destruct Hok as (Hn & Hok).
    destruct (snoc_cases js) as [->|(js0 & t & ->)]; [simpl in Hn; lia|].
    pose proof Hrep as (_ & Hpay & _).
    apply payloads_snoc_inv in Hpay as (fas0 & [f a] & -> & _ & _).
    apply Forall_app in Hfs as [[Hfs0 [Hf _]%Forall_cons]%Forall_app Hfs1]. simpl in Hf.
    destruct (worker_turn_spec w tp js0 t fas0 f a c s Hrep Hf Hpc Hk)
      as (w1 & Hrun & Hrep1 & Ht1 & Hd1 & Hex1 & _ & Hk1 & Hm1 & Hs1).
    { by apply no_false_head. }
    { rewrite <- lookup_tail. by apply no_false_head, tl_no_false. }
    rewrite length_app in Hok. simpl in Hok.
    destruct (IH w1 (Frame (self s) L84 (Some t) f a) js0 fas0 (c + 1))
      as (s' & w' & js' & fas' & c' & Hrun' & Hrep' & Hq' & Hpc' & Hex' & Hc' & Hd' & Hk');
      try done.
    { split; [rewrite Hm1|rewrite Hs1]; auto using tl_no_false. }
    { by rewrite Hk1. }
    { replace (Z.of_nat (length js0)) with (Z.of_nat (length js0 + 1) - 1) by lia. done. }
    { by apply Forall_app. }
    exists s', w', js', fas', c'. split_and!; try done.
    + simpl. by rewrite (bind_ret _ _ _ _ _ Hrun).
    + rewrite Hex', Hex1, rev_app_distr. simpl. by rewrite <- !app_assoc.
    + rewrite Hc', length_app. simpl. lia.
    + rewrite Hd', Hd1, list_to_set_app_L. simpl.
      rewrite (right_id_L ∅ (∪)). apply difference_remove_both.
    + by rewrite Hk', Hk1.
Qed.

Lemma pool_serves_fifo_witness :
  ∃ s' w' js' fas' c',
    run_pool (Some 1%positive) (worker_at L84)
      [Submit 7 70; Submit 8 80; Turn; Submit 9 90; Turn; Turn] w_idle = Ret s' w' ∧
    pool_rep w' 1%positive js' fas' c' ∧
    executed w' ++ rev fas' = [(7, 70); (8, 80); (9, 90)].
Proof.
  destruct (pool_serves_fifo 1%positive
              [Submit 7 70; Submit 8 80; Turn; Submit 9 90; Turn; Turn]
              w_idle (worker_at L84) [] [] 2)
    as (s' & w' & js' & fas' & c' & Hrun & Hrep & _ & _ & Hex & _).
  - apply pool_repb_sound. vm_compute. reflexivity.
  - apply (bool_decide_unpack _). vm_compute. exact I.
  - vm_compute. discriminate.
  - reflexivity.
  - apply (bool_decide_unpack _). vm_compute. exact I.
  - apply (bool_decide_unpack _). vm_compute. exact I.
  - exists s', w', js', fas', c'. split_and!; [exact Hrun|exact Hrep|exact Hex].
Defined.

(** X9: when its three allocations succeed, [thpool_init] returns a pool
    that is ready for use: its queue is well formed and empty, the lock is
    free, [max(threadsN, 1)] slots are empty, the handle array has that many
    entries, and the three blocks are new while every other block is as it
    was. *)
Theorem thpool_init_gives_pool n w :
  failures 3 (malloc_env w) = O → n ≤ INT_MAX →
  ∃ tp ths jq ts w', thpool_init n w = Ret (Some tp) w' ∧
    pool_rep w' tp [] [] (Z.max n 1) ∧ pool_parts w' tp ths jq ts ∧
    Z.of_nat (length ts) = Z.max n 1 ∧
    heap w !! tp = None ∧ heap w !! ths = None ∧ heap w !! jq = None ∧
    (∀ l, l ∉ [tp; ths; jq] → heap w' !! l = heap w !! l) ∧
    (quiet w → quiet w') ∧
    thpool_keepalive w' = thpool_keepalive w ∧ executed w' = executed w.
Proof. exact (thpool_init_ready n w). Qed.

Lemma thpool_init_gives_pool_witness :
  ∃ tp ths jq ts w', thpool_init 2 w_boot = Ret (Some tp) w' ∧
    pool_rep w' tp [] [] 2 ∧ pool_parts w' tp ths jq ts ∧ length ts = 2%nat.
Proof.
  destruct (thpool_init_gives_pool 2 w_boot)
    as (tp & ths & jq & ts & w' & Hrun & Hrep & Hparts & Hlen & _).
  - reflexivity.
  - vm_compute. discriminate.
  - exists tp, ths, jq, ts, w'. split_and!; [exact Hrun|exact Hrep|exact Hparts|].
    change (Z.max 2 1) with 2 in Hlen. lia.
Defined.

(** X10: when one of its three allocations fails, [thpool_init] prints
    exactly one message, the one of the first allocation that failed (lines
    41, 46 and 54), starts no thread and returns [NULL]. *)
Theorem thpool_init_names_failed_allocation n w :
  failures 3 (malloc_env w) ≠ O →
  ∃ w', thpool_init n w = Ret NULL w' ∧
    stderr w' = stderr w ++ [init_diagnostic (malloc_env w)] ∧
    spawned w' = spawned w.
Proof.
  intros Hf. unfold thpool_init, init_diagnostic. cbv zeta. rewrite clamp_max.
  set (N := Z.max n 1).
  destruct (decide (malloc_env w !! 0%nat = Some false)) as [H0|H0].
  { rewrite (bind_ret _ _ _ _ _ (malloc_fail _ _ H0)). rewrite bool_decide_true by done.
    rewrite (bind_ret _ _ _ _ _ (fprintf_ret _ _)).
    eexists. split; [reflexivity|]. done. }
  destruct (malloc_ok (BPool pool_indeterminate) w H0) as (tp & Htp & Hm1).
  rewrite (bind_ret _ _ _ _ _ Hm1). rewrite bool_decide_false by done.
  destruct (decide (malloc_env w !! 1%nat = Some false)) as [H1|H1].
  { erewrite bind_ret; [|apply malloc_fail; simpl; by rewrite lookup_tail].
    repeat run1. simpl threads. rewrite bool_decide_true by done.
    rewrite (bind_ret _ _ _ _ _ (fprintf_ret _ _)). run1.
    eexists. split; [reflexivity|]. done. }
  match type of Hm1 with _ = Ret _ ?w1 =>
    destruct (malloc_ok (BThreads (replicate (Z.to_nat N) 0)) w1) as (ths & Hths & Hm2)
  end.
  { simpl. by rewrite lookup_tail. }
  simpl in Hths. apply lookup_insert_None in Hths as [Hths Hne1].
  rewrite (bind_ret _ _ _ _ _ Hm2).
  repeat run1. simpl threads. rewrite bool_decide_false by done.
  run1.
  destruct (decide (malloc_env w !! 2%nat = Some false)) as [H2|H2].
  - erewrite bind_ret; [|eapply jobqueue_init_fail; [solve_lookup|simpl; by rewrite !lookup_tail]].
    change (-1 =? -1) with true. cbv iota.
    rewrite (bind_ret _ _ _ _ _ (fprintf_ret _ _)).
    repeat run1. simpl threads. repeat run1.
    eexists. split; [reflexivity|]. done.
  - destruct Hf. apply failures_nonzero. intros [|[|[|k]]] Hk; try done. lia.
Qed.

Lemma thpool_init_names_failed_allocation_witness :
  ∃ w', thpool_init 2 w_no_memory = Ret NULL w' ∧
    stderr w' = ["thpool_init(): Could not allocate memory for job queue\n"] ∧
    spawned w' = [].
Proof.
  apply (thpool_init_names_failed_allocation 2 w_no_memory).
  vm_compute. discriminate.
Defined.

(** X11: the capacity of the queue is the number of threads.  After
    [thpool_init], [max(threadsN, 1)] submissions return without any worker
    having taken a job, none of the jobs has been run, and every further
    submission blocks. *)
Theorem queue_capacity_is_thread_count n w fas s :
  quiet w → n ≤ INT_MAX → Z.of_nat (length fas) = Z.max n 1 →
  ∃ tp w1 w2, thpool_init n w = Ret (Some tp) w1 ∧
    run_pool (Some tp) s (submit_all fas) w1 = Ret s w2 ∧
    executed w2 = executed w ∧
    ∀ f a, thpool_add_work (Some tp) f a w2 = Block.
Proof.
  intros Hq Hn Hlen.
  destruct (thpool_init_ready n w) as (tp & ths & jq & ts & w1 & Hinit & Hrep1 & _ & _ & _ & _
    & _ & _ & Hq1 & _ & Hex1); [apply failures_quiet, Hq|done|].
  destruct (submit_all_spec tp s fas w1 [] [] (Z.max n 1) Hrep1 (Hq1 Hq))
    as (w2 & js & Hrun & Hrep2 & [Hqm Hqs] & Hex2 & _); [lia|].
  exists tp, w1, w2. split_and!; try done.
  - by rewrite Hex2.
  - intros f a. rewrite Hlen, Z.sub_diag in Hrep2.
    eapply add_work_blocks; [exact Hrep2|by apply no_false_head|by apply no_false_head].
Qed.

Lemma queue_capacity_is_thread_count_witness :
  ∃ tp w1 w2, thpool_init 2 w_boot = Ret (Some tp) w1 ∧
    run_pool (Some tp) (worker_at L84) (submit_all [(7, 70); (7, 71)]) w1
      = Ret (worker_at L84) w2 ∧
    executed w2 = executed w_boot ∧
    ∀ f a, thpool_add_work (Some tp) f a w2 = Block.
Proof.
  apply (queue_capacity_is_thread_count 2 w_boot [(7, 70); (7, 71)] (worker_at L84)).
  - apply (bool_decide_unpack _). vm_compute. exact I.
  - vm_compute. discriminate.
  - reflexivity.
Defined.

(** X12: [thpool_destroy] on a pool whose workers have all left
    [thpool_thread_do].  It returns, having cleared [thpool_keepalive] and
    freed the pool, the handle array, the queue and every job that was still
    queued, and nothing else.  The queued jobs are dropped: none is
    executed.  Nothing is printed. *)
Theorem thpool_destroy_frees_all w tp ths jq ts js fas c :
  pool_rep w tp js fas c → pool_parts w tp ths jq ts →
  Z.of_nat (length js) + Z.of_nat (length ts) ≤ SEM_VALUE_MAX →
  Forall (λ tid, tid ∈ exited w) ts →
  ∃ w', thpool_destroy (Some tp) w = Ret tt w' ∧
    (∀ l, heap w' !! l
          = if decide (l ∈ tp :: ths :: jq :: js) then None else heap w !! l) ∧
    thpool_keepalive w' = 0 ∧ executed w' = executed w ∧ stderr w' = stderr w ∧
    exited w' = exited w.
Proof.
  intros (Hrep & Hpay & p & Hp & Hmx & Hne & Hns & Hc0 & Hbound) Hparts Hle Hex.
  pose proof Hparts as (p' & Hp' & _ & _ & _ & Hn).
  assert (p' = p) as -> by congruence.
  rewrite destroy_split.
  erewrite bind_ret; [|apply (destroy_wake_spec w tp p Hp); lia].
  set (w1 := with_heap _ _).
  destruct (pool_after_posts w w1 tp ths jq ts js p _ Hrep Hparts Hp eq_refl)
    as [Hrep1 Hparts1].
  destruct (destroy_reap_spec w1 tp ths jq ts js Hrep1 Hparts1 Hex) as (w' & Hrun & Hh & Hw').
  exists w'. split_and!; try done; try (by rewrite Hw').
  intros l. rewrite Hh. case_decide as Hin; [done|].
  subst w1. simpl. rewrite lookup_insert_ne; [done|]. intros <-. apply Hin. by left.
Qed.

Lemma thpool_destroy_frees_all_witness :
  ∃ w', thpool_destroy (Some 1%positive) w_workers_gone = Ret tt w' ∧
    (∀ l, heap w' !! l
          = if decide (l ∈ [1; 2; 3; 5; 4]%positive) then None
            else heap w_workers_gone !! l) ∧
    thpool_keepalive w' = 0 ∧ executed w' = executed w_workers_gone ∧
    stderr w' = stderr w_workers_gone ∧ exited w' = exited w_workers_gone.
Proof.
  apply (thpool_destroy_frees_all w_workers_gone 1%positive 2%positive 3%positive [1; 2]
           [5; 4]%positive [(7, 71); (7, 70)] 0).
  - apply pool_repb_sound. vm_compute. reflexivity.
  - apply (w_two_jobs_parts [1; 2]).
  - vm_compute. discriminate.
  - apply (bool_decide_unpack _). vm_compute. exact I.
Defined.

(** X13: [thpool_destroy] is its posts (lines 146 to 153), then its joins
    (lines 156 to 168), then its frees (lines 170 to 175).  On a pool whose
    handles are threads that were started on it, as long as one of them has
    not left [thpool_thread_do], the posts return with the same blocks
    allocated as before and the joins do not return: [thpool_destroy] blocks
    before the first of its frees. *)
Theorem thpool_destroy_waits_for_workers w tp ths jq ts js fas c tid :
  pool_rep w tp js fas c → pool_parts w tp ths jq ts →
  Z.of_nat (length js) + Z.of_nat (length ts) ≤ SEM_VALUE_MAX →
  Forall (λ t, (t, Some tp) ∈ spawned w) ts →
  tid ∈ ts → tid ∉ exited w →
  (∀ w0, thpool_destroy (Some tp) w0
         = (destroy_wake (Some tp);; destroy_join (Some tp);; destroy_free (Some tp)) w0) ∧
  ∃ w1, destroy_wake (Some tp) w = Ret tt w1 ∧ dom (heap w1) = dom (heap w) ∧
        destroy_join (Some tp) w1 = Block ∧
        thpool_destroy (Some tp) w = Block.
Proof.
  intros (Hrep & Hpay & p & Hp & Hmx & Hne & Hns & Hc0 & Hbound) Hparts Hle _ Hin Hno.
  split; [intros w0; apply destroy_parts|].
  pose proof Hparts as (p' & Hp' & _ & _ & _ & Hn).
  assert (p' = p) as -> by congruence.
  assert (Hwake := destroy_wake_spec w tp p Hp ltac:(lia) ltac:(lia)).
  set (w1 := with_heap _ _) in Hwake.
  destruct (pool_after_posts w w1 tp ths jq ts js p _ Hrep Hparts Hp eq_refl)
    as [Hrep1 Hparts1].
  assert (Hjoin : destroy_join (Some tp) w1 = Block) by (by eapply destroy_join_blocks).
  exists w1. split_and!; try done.
  - subst w1. simpl. apply dom_insert_lookup_L. eauto.
  - rewrite destroy_parts. rewrite (bind_ret _ _ _ _ _ Hwake). by apply bind_block.
Qed.

Lemma thpool_destroy_waits_for_workers_witness :
  ∃ w1, destroy_wake (Some 1%positive) w_two_jobs = Ret tt w1 ∧
        dom (heap w1) = dom (heap w_two_jobs) ∧
        destroy_join (Some 1%positive) w1 = Block ∧
        thpool_destroy (Some 1%positive) w_two_jobs = Block.
Proof.
  apply (thpool_destroy_waits_for_workers w_two_jobs 1%positive 2%positive 3%positive
           [1; 2] [5; 4]%positive [(7, 71); (7, 70)] 0 1).
  - apply pool_repb_sound. vm_compute. reflexivity.
  - apply (w_two_jobs_parts []).
  - vm_compute. discriminate.
  - apply (bool_decide_unpack _). vm_compute. exact I.
  - apply (bool_decide_unpack _). vm_compute. exact I.
  - apply (bool_decide_unpack _). vm_compute. exact I.
Defined.

(** X14: [thpool_destroy] leaves its argument dangling: whenever it has
    returned, a second call on the same pointer faults at its first read of
    the pool. *)
Theorem thpool_destroy_twice_faults tp_p w w' :
  thpool_destroy tp_p w = Ret tt w' → thpool_destroy tp_p w' = Fault.
Proof.
  intros Hrun. unfold thpool_destroy in Hrun.
  repeat (apply bind_inv in Hrun as (? & ? & _ & Hrun)).
  destruct tp_p as [tp|].
  - apply free_inv in Hrun as [_ ->].
    unfold thpool_destroy.
    change ((modify (with_keepalive 0) ≫= ?k) ?w0) with (k tt (with_keepalive 0 w0)).
    cbv beta. unfold mbind at 1, M_bind at 1, fmap, M_fmap, load_pool, load.
    unfold mbind, M_bind. simpl. by rewrite lookup_delete_eq.
  - unfold thpool_destroy.
    change ((modify (with_keepalive 0) ≫= ?k) ?w0) with (k tt (with_keepalive 0 w0)).
    reflexivity.
Qed.

Lemma thpool_destroy_twice_faults_witness :
  ∃ w', thpool_destroy (Some 1%positive) w_workers_gone = Ret tt w' ∧
        thpool_destroy (Some 1%positive) w' = Fault.
Proof.
  assert (∃ w', thpool_destroy (Some 1%positive) w_workers_gone = Ret tt w') as [w' Hrun]
    by (eexists; vm_compute; reflexivity).
  exists w'. split; [exact Hrun|].
  exact (thpool_destroy_twice_faults (Some 1%positive) w_workers_gone w' Hrun).
Defined.

(** X15: shutting down a pool whose handles are exactly the threads that
    were started on it and have not returned, each at the wait of line 85.
    After the posts of lines 146 to 153 every one of these workers gets
    through its wait, reads the flag as 0 and returns without a queue
    operation; the rest of [thpool_destroy], lines 156 to 175, then joins
    them all and frees the pool, the handle array, the queue and the queued
    jobs.  No job is executed and nothing is printed. *)
Theorem shutdown_wakes_and_frees w tp ths jq ts js fas c :
  pool_rep w tp js fas c → pool_parts w tp ths jq ts →
  workers_of w tp = ts →
  Z.of_nat (length js) + Z.of_nat (length ts) ≤ SEM_VALUE_MAX →
  false ∉ semwait_env w →
  ∃ w', (destroy_wake (Some tp);; wake_all (Some tp) (workers_of w tp);;
         destroy_reap (Some tp)) w = Ret tt w' ∧
    (∀ l, heap w' !! l
          = if decide (l ∈ tp :: ths :: jq :: js) then None else heap w !! l) ∧
    exited w' = exited w ++ ts ∧ executed w' = executed w ∧ stderr w' = stderr w ∧
    thpool_keepalive w' = 0.
Proof. exact (shutdown_spec w tp ths jq ts js fas c). Qed.

Lemma shutdown_wakes_and_frees_witness :
  ∃ w', (destroy_wake (Some 1%positive);;
         wake_all (Some 1%positive) (workers_of w_two_jobs 1%positive);;
         destroy_reap (Some 1%positive)) w_two_jobs = Ret tt w' ∧
    (∀ l, heap w' !! l
          = if decide (l ∈ [1; 2; 3; 5; 4]%positive) then None else heap w_two_jobs !! l) ∧
    exited w' = exited w_two_jobs ++ [1; 2] ∧ executed w' = executed w_two_jobs ∧
    stderr w' = stderr w_two_jobs ∧ thpool_keepalive w' = 0.
Proof.
  apply (shutdown_wakes_and_frees w_two_jobs 1%positive 2%positive 3%positive [1; 2]
           [5; 4]%positive [(7, 71); (7, 70)] 0).
  - apply pool_repb_sound. vm_compute. reflexivity.
  - apply (w_two_jobs_parts []).
  - vm_compute. reflexivity.
  - vm_compute. discriminate.
  - apply (bool_decide_unpack _). vm_compute. exact I.
Defined.

(** X16: [thpool_keepalive] is a static that [thpool_destroy] clears and
    nothing sets again.  The workers of a pool that [thpool_init] creates
    after a [thpool_destroy] has returned find the flag 0 at their first
    loop test and return at once. *)
Theorem keepalive_stays_cleared tp w w1 n tp' w2 s :
  thpool_destroy tp w = Ret tt w1 → thpool_init n w1 = Ret tp' w2 → pc s = L84 →
  thread_steps 2 tp' s w2
  = Ret (goto Returned s) (with_exited (λ l, l ++ [self s]) w2).
Proof.
  intros Hd Hi Hpc.
  assert (Hk : thpool_keepalive w2 = 0).
  { rewrite (keeps_thpool_init n _ _ _ Hi). by eapply thpool_destroy_clears. }
  rewrite thread_steps_S. unfold thpool_thread_do at 1. rewrite Hpc.
  rewrite bind_assoc, bind_gets. rewrite Hk.
  change (0 =? 0) with true. cbv iota. rewrite bind_mret.
  rewrite thread_steps_S. unfold thpool_thread_do at 1. simpl pc. cbv iota.
  reflexivity.
Qed.

Lemma keepalive_stays_cleared_witness :
  ∃ w1 tp' w2, thpool_destroy (Some 1%positive) w_workers_gone = Ret tt w1 ∧
    thpool_init 1 w1 = Ret tp' w2 ∧
    thread_steps 2 tp' (worker_at L84) w2
    = Ret (worker_at Returned) (with_exited (λ l, l ++ [1]) w2).
Proof.
  assert (∃ w1 tp' w2, thpool_destroy (Some 1%positive) w_workers_gone = Ret tt w1 ∧
            thpool_init 1 w1 = Ret tp' w2) as (w1 & tp' & w2 & Hd & Hi)
    by (eexists _, _, _; split; vm_compute; reflexivity).
  exists w1, tp', w2. split_and!; [exact Hd|exact Hi|].
  apply (keepalive_stays_cleared (Some 1%positive) w_workers_gone w1 1 tp' w2 (worker_at L84) Hd Hi).
  reflexivity.
Defined.

(** X17: from [thpool_init] to the end of [thpool_destroy], in a process
    where no thread is running and no [malloc], [pthread_create] or
    [sem_wait] fails.  A pool is created: its handles are the threads that
    [thpool_init] has started, one for every entry.  Jobs are submitted up
    to its capacity, and the pool is shut down with these workers at the
    wait of line 85.  Afterwards exactly the blocks that were allocated
    before [thpool_init] are allocated: nothing has leaked and nothing else
    was freed.  The submitted jobs were never run, and the threads that have
    returned are those of before and the workers of the pool. *)
Theorem pool_lifecycle_frees_all n w fas s :
  quiet w → false ∉ create_env w → no_thread_running w →
  Z.of_nat (length fas) ≤ Z.max n 1 →
  Z.max n 1 + Z.of_nat (length fas) ≤ INT_MAX →
  ∃ tp ths jq ts w1 w2 w3,
    thpool_init n w = Ret (Some tp) w1 ∧ pool_parts w1 tp ths jq ts ∧
    spawned w1 = spawned w ++ ((λ tid, (tid, Some tp)) <$> ts) ∧
    run_pool (Some tp) s (submit_all fas) w1 = Ret s w2 ∧
    workers_of w2 tp = ts ∧
    (destroy_wake (Some tp);; wake_all (Some tp) (workers_of w2 tp);;
     destroy_reap (Some tp)) w2 = Ret tt w3 ∧
    dom (heap w3) = dom (heap w) ∧ executed w3 = executed w ∧
    exited w3 = exited w ++ ts.
Proof.
  intros Hq Hcreate [Hold Hids] Hlen Hn.
  destruct (thpool_init_ready n w)
    as (tp & ths & jq & ts & w1 & Hinit & Hrep1 & Hparts1 & Hts & Htp & Hths & Hjq
        & Hsame1 & Hq1 & _ & Hex1); [apply failures_quiet, Hq|lia|].
  destruct (thpool_init_full n w)
    as (tp' & ths' & jq' & ts' & w1' & Hinit' & Hp' & Hts' & _ & _ & Hxt1 & Hok);
    [apply failures_quiet, Hq|].
  rewrite Hinit in Hinit'. injection Hinit' as <- <-.
  destruct (Hok (failures_quiet _ _ Hcreate)) as [Hsp1 Hfresh].
  assert (ts' = ts) as ->.
  { destruct Hparts1 as (p1 & Hp1 & Hths1 & _ & Hts1 & _).
    rewrite Hp' in Hp1. injection Hp1 as <-. simpl in Hths1. injection Hths1 as ->.
    rewrite Hts' in Hts1. by injection Hts1. }
  destruct (submit_all_spec tp s fas w1 [] [] (Z.max n 1) Hrep1 (Hq1 Hq))
    as (w2 & js & Hrun & Hrep2 & [Hqm Hqs] & Hex2 & _ & Hd2 & Hfresh2 & Hparts2 & Hsp2 & Hxt2);
    [lia|].
  rewrite !app_nil_r in Hrep2.
  assert (Hworkers : workers_of w2 tp = ts).
  { apply (workers_of_started w2 tp (spawned w) ts).
    - by rewrite Hsp2.
    - by rewrite Hxt2, Hxt1.
    - rewrite Hxt2, Hxt1, Hfresh. by apply fresh_ids_alive. }
  destruct (shutdown_spec w2 tp ths jq ts js _ _ Hrep2 (Hparts2 _ _ _ Hparts1) Hworkers)
    as (w3 & Hdown & Hh3 & Hexit3 & Hex3 & _); [|done|].
  { assert (Hjs : length js = length fas).
    { destruct Hrep2 as (_ & Hpay & _). apply payloads_length in Hpay.
      by rewrite Hpay, length_rev. }
    rewrite Hjs. unfold SEM_VALUE_MAX, INT_MAX in *. lia. }
  exists tp, ths, jq, ts, w1, w2, w3. split_and!; try done.
  - apply set_eq. intros l. rewrite !elem_of_dom, Hh3.
    destruct Hparts1 as (p1 & Hp1 & _ & _ & Hths1 & _).
    destruct Hrep1 as ((p1' & jq1 & q1 & Hp1' & Hjq1' & Hq1' & _) & _).
    case_decide as Hin.
    + split; [by intros [? ?]|]. intros Hsome. exfalso.
      apply elem_of_cons in Hin as [->|Hin]; [by rewrite Htp in Hsome; destruct Hsome|].
      apply elem_of_cons in Hin as [->|Hin]; [by rewrite Hths in Hsome; destruct Hsome|].
      apply elem_of_cons in Hin as [->|Hin]; [by rewrite Hjq in Hsome; destruct Hsome|].
      specialize (Hfresh2 l Hin).
      destruct (decide (l ∈ [tp; ths; jq])) as [Hl|Hl].
      * rewrite !elem_of_cons, elem_of_nil in Hl.
        destruct Hl as [->|[->|[->|[]]]]; [by rewrite Htp in Hsome; destruct Hsome
          |by rewrite Hths in Hsome; destruct Hsome|by rewrite Hjq in Hsome; destruct Hsome].
      * rewrite <- (Hsame1 l Hl) in Hsome. rewrite Hfresh2 in Hsome. by destruct Hsome.
    + assert (Hl : l ∉ [tp; ths; jq]).
      { intros Hl. apply Hin. rewrite !elem_of_cons, elem_of_nil in Hl.
        rewrite !elem_of_cons. tauto. }
      assert (Hljs : l ∉ js).
      { intros Hl'. apply Hin. rewrite !elem_of_cons. tauto. }
      rewrite <- (Hsame1 l Hl). rewrite <- !elem_of_dom, Hd2.
      rewrite elem_of_union, elem_of_list_to_set. tauto.
  - by rewrite Hex3, Hex2.
  - by rewrite Hexit3, Hxt2, Hxt1.
Qed.

Lemma pool_lifecycle_frees_all_witness :
  ∃ tp ths jq ts w1 w2 w3,
    thpool_init 2 w_boot = Ret (Some tp) w1 ∧ pool_parts w1 tp ths jq ts ∧
    spawned w1 = spawned w_boot ++ ((λ tid, (tid, Some tp)) <$> ts) ∧
    run_pool (Some tp) (worker_at L84) (submit_all [(7, 70)]) w1 = Ret (worker_at L84) w2 ∧
    workers_of w2 tp = ts ∧
    (destroy_wake (Some tp);; wake_all (Some tp) (workers_of w2 tp);;
     destroy_reap (Some tp)) w2 = Ret tt w3 ∧
    dom (heap w3) = dom (heap w_boot) ∧ executed w3 = executed w_boot ∧
    exited w3 = exited w_boot ++ ts.
Proof.
  apply (pool_lifecycle_frees_all 2 w_boot [(7, 70)] (worker_at L84)).
  - apply (bool_decide_unpack _). vm_compute. exact I.
  - apply (bool_decide_unpack _). vm_compute. exact I.
  - apply (bool_decide_unpack _). vm_compute. exact I.
  - vm_compute. discriminate.
  - vm_compute. discriminate.
Defined.
